(** * An incremental SAT front-end: [inc_sat_solver]

    Shallow embedding of [src/sat/sat_solver/inc_sat_solver.cpp] and the
    properties of its bookkeeping: scoped assertion stacks, the translation
    frontier, assumption literals, unsat cores, value reassembly.

    The SAT engine, the tactic pipeline, [goal2sat], the atom map and the
    bit-blaster live in other files of the code base; they enter through the
    [Backend] interface below and every theorem holds for any implementation
    of it.  What a theorem needs from such a component is stated as a named
    contract and passed as a hypothesis. *)

From Stdlib Require Import ZArith Lia.
From stdpp Require Import base option list gmap strings countable.

Local Open Scope string_scope.
Local Open Scope nat_scope.
Local Open Scope list_scope.

(** ** Plain data *)

(** [lbool]: the three-valued answer of every check. *)
Inductive lbool := l_false | l_undef | l_true.

#[global] Instance lbool_eq_dec : EqDecision lbool.
Proof. solve_decision. Defined.

Definition lbool_eqb (a b : lbool) : bool :=
  match a, b with
  | l_false, l_false | l_undef, l_undef | l_true, l_true => true
  | _, _ => false
  end.

(** [sat::bool_var] is an [unsigned]; [sat::null_bool_var] is
    [UINT_MAX >> 1]. *)
Definition bool_var := N.
Definition null_bool_var : bool_var := N.shiftr (2 ^ 32 - 1) 1.

(** [sat::literal]: a variable and a sign; [sign = true] is the negated
    literal.  [index()] is the packed value [(var << 1) + sign]; variables
    lie below [null_bool_var], so the shift loses no bit. *)
Record literal := mk_literal { lit_var : bool_var; lit_sign : bool }.

Definition lit_index (l : literal) : N :=
  (N.shiftl (lit_var l) 1 + (if lit_sign l then 1 else 0))%N.

#[global] Instance literal_eq_dec : EqDecision literal.
Proof. solve_decision. Defined.

#[global] Instance literal_countable : Countable literal.
Proof.
  refine (inj_countable' (λ l, (lit_var l, lit_sign l))
                         (λ p, mk_literal p.1 p.2) _).
  by intros [].
Defined.

Lemma lit_index_inj l1 l2 : lit_index l1 = lit_index l2 → l1 = l2.
Proof.
  destruct l1 as [v1 [|]], l2 as [v2 [|]]; unfold lit_index; simpl;
    rewrite !N.shiftl_mul_pow2; intros; f_equal; lia.
Qed.

(** ** Terms

    The part of the term language this file builds or inspects: constants,
    [not], [=>], [=], bit-vector numerals.  Terms are hash-consed in the
    source, so pointer equality there is structural equality here. *)

Inductive sort := BoolSort | BvSort (w : nat) | OtherSort (name : string).

#[global] Instance sort_eq_dec : EqDecision sort.
Proof. solve_decision. Defined.

#[global] Instance sort_countable : Countable sort.
Proof.
  refine (inj_countable'
    (λ s, match s with
          | BoolSort => inl ()
          | BvSort w => inr (inl w)
          | OtherSort n => inr (inr n)
          end)
    (λ c, match c with
          | inl _ => BoolSort
          | inr (inl w) => BvSort w
          | inr (inr n) => OtherSort n
          end) _).
  by intros [].
Defined.

Inductive expr :=
| EConst (name : string) (s : sort)
| ETrue
| EFalse
| ENot (e : expr)
| EImplies (a b : expr)
| EEq (a b : expr)
| EBvNum (r : Z) (w : nat).

#[global] Instance expr_eq_dec : EqDecision expr.
Proof. solve_decision. Defined.

Fixpoint expr_to_tree (e : expr) : gen_tree (string * sort + Z * nat) :=
  match e with
  | EConst n s => GenLeaf (inl (n, s))
  | ETrue => GenNode 0 []
  | EFalse => GenNode 1 []
  | ENot a => GenNode 2 [expr_to_tree a]
  | EImplies a b => GenNode 3 [expr_to_tree a; expr_to_tree b]
  | EEq a b => GenNode 4 [expr_to_tree a; expr_to_tree b]
  | EBvNum r w => GenLeaf (inr (r, w))
  end.

Fixpoint expr_of_tree (t : gen_tree (string * sort + Z * nat)) : option expr :=
  match t with
  | GenLeaf (inl (n, s)) => Some (EConst n s)
  | GenLeaf (inr (r, w)) => Some (EBvNum r w)
  | GenNode 0 [] => Some ETrue
  | GenNode 1 [] => Some EFalse
  | GenNode 2 [a] => ENot <$> expr_of_tree a
  | GenNode 3 [a; b] =>
      match expr_of_tree a, expr_of_tree b with
      | Some a, Some b => Some (EImplies a b)
      | _, _ => None
      end
  | GenNode 4 [a; b] =>
      match expr_of_tree a, expr_of_tree b with
      | Some a, Some b => Some (EEq a b)
      | _, _ => None
      end
  | _ => None
  end.

Lemma expr_of_to_tree e : expr_of_tree (expr_to_tree e) = Some e.
Proof.
  induction e as [| | |a IHa|a IHa b IHb|a IHa b IHb|]; simpl;
    rewrite ?IHa, ?IHb; reflexivity.
Qed.

#[global] Instance expr_countable : Countable expr :=
  inj_countable expr_to_tree expr_of_tree expr_of_to_tree.

(** [m.get_sort], [is_uninterp_const], [m.is_bool], [bvutil.is_bv_sort]. *)
Definition get_sort (e : expr) : sort :=
  match e with
  | EConst _ s => s
  | EBvNum _ w => BvSort w
  | _ => BoolSort
  end.

Definition is_uninterp_const (e : expr) : bool :=
  match e with EConst _ _ => true | _ => false end.

Definition is_bool (e : expr) : bool :=
  match get_sort e with BoolSort => true | _ => false end.

Definition is_bv_sort (s : sort) : bool :=
  match s with BvSort _ => true | _ => false end.

(** [m.is_not(e, e)]: on [not a] answers true and replaces [e] by [a]. *)
Definition is_not (e : expr) : bool * expr :=
  match e with ENot a => (true, a) | _ => (false, e) end.

Definition mk_not (e : expr) : expr := ENot e.
Definition mk_implies (a b : expr) : expr := EImplies a b.
Definition mk_eq (a b : expr) : expr := EEq a b.
(** [bvutil.mk_numeral(r, sz)]. *)
Definition mk_numeral (r : Z) (sz : nat) : expr := EBvNum r sz.

(** ** Goals

    A goal is the list of its assertions, each with the leaves of its
    dependency ([m.mk_leaf(e)] is the one-leaf dependency [[e]]; an
    assertion without dependency has none), and the two flags the file
    sets when it allocates one. *)
Record goal := mk_goal {
  models_enabled : bool;
  cores_enabled : bool;
  goal_forms : list (expr * list expr)
}.

Definition goal_assert (f : expr) (dep : list expr) (g : goal) : goal :=
  mk_goal (models_enabled g) (cores_enabled g) (goal_forms g ++ [(f, dep)]).

Definition goal_leaves (g : goal) : list expr :=
  concat (snd <$> goal_forms g).

(** ** Vectors

    [svector]/[ref_vector] as lists, last element at the back. *)
Definition push_back {A} (x : A) (v : list A) : list A := v ++ [x].
Definition back {A} (v : list A) : option A := list.last v.
Definition pop_back {A} (v : list A) : list A := removelast v.
Definition empty {A} (v : list A) : bool :=
  match v with [] => true | _ => false end.

(** ** Outcomes

    A call returns, throws a C++ exception of this file, fails a [VERIFY]
    (release and debug builds abort alike), or leaves defined behaviour. *)
Inductive error :=
| default_exception (msg : string)
| verify_failed
| undefined_behaviour (what : string).

Inductive result (A : Type) :=
| Ok (a : A)
| Err (e : error).
Arguments Ok {A} a.
Arguments Err {A} e.

(** ** The components this file drives

    [sat::solver], [params_ref], [atom2bool_var], [bit_blaster_rewriter],
    the tactic built by [and_then], [goal2sat] and the pretty printer are
    declared elsewhere in the code base.  They are used here through the
    operations this file calls on them, as total functions of their own
    state.  An exception other than [tactic_exception] that escapes one of
    them unwinds through every caller of this file unchanged and is not
    part of the interface. *)

(** [obj_map<expr, sat::literal>]. *)
Abbreviation dep2asm_t := (gmap expr literal) (only parsing).

Class Backend := {
  params : Type;
  params_set_bool : string → bool → params → params;
  params_set_uint : string → N → params → params;
  params_get_bool : string → bool → params → bool;

  double : Type;
  double_zero : double;

  sat_solver : Type;
  sat_model : Type;
  sat_mk : params → sat_solver;
  sat_updt_params : params → sat_solver → sat_solver;
  sat_user_push : sat_solver → sat_solver;
  sat_user_pop : nat → sat_solver → sat_solver;
  sat_pop_to_base_level : sat_solver → sat_solver;
  sat_check : list literal → list double → double → sat_solver →
              lbool * sat_solver;
  sat_get_core : sat_solver → list literal;
  sat_get_model : sat_solver → sat_model;
  sat_value_at : literal → sat_model → lbool;
  sat_find_mutexes : list literal → sat_solver →
                     list (list literal) * sat_solver;

  atom2bool_var : Type;
  map_mk : atom2bool_var;
  map_push : atom2bool_var → atom2bool_var;
  map_pop : nat → atom2bool_var → atom2bool_var;
  to_bool_var : atom2bool_var → expr → bool_var;

  bit_blaster_rewriter : Type;
  bb_mk : params → bit_blaster_rewriter;
  bb_push : bit_blaster_rewriter → bit_blaster_rewriter;
  bb_pop : nat → bit_blaster_rewriter → bit_blaster_rewriter;
  bb_get_num_scopes : bit_blaster_rewriter → nat;

  model : Type;
  model_converter : Type;
  proof_converter : Type;
  expr_dependency : Type;

  tactic : Type;
  (** [and_then(card2bv(m_params), simplify(simp2_p), max_bv_sharing,
      bit_blaster, simplify(simp2_p))] *)
  mk_preprocess : params → params → tactic;
  tactic_reset : tactic → tactic;
  (** Running [m_preprocess] on [(g, m_subgoals, m_mc, m_pc, m_dep_core)]:
      either a [tactic_exception] with its message, or the subgoals, the
      three converters, and the bit-blaster and tactic as the run left
      them. *)
  tactic_apply : tactic → bit_blaster_rewriter → goal →
                 string +
                 (list goal * option model_converter *
                  option proof_converter * option expr_dependency *
                  bit_blaster_rewriter * tactic);

  (** [m_goal2sat(g, m_params, m_solver, m_map, dep2asm, true)] followed
      by [m_goal2sat.get_interpreted_atoms(atoms)]. *)
  goal2sat : goal → params → sat_solver → atom2bool_var → dep2asm_t →
             sat_solver * atom2bool_var * dep2asm_t * list expr;

  (** [strm << atoms] *)
  pp_exprs : list expr → string
}.

Section Solver.
Context `{B : Backend}.

(** ** The solver object

    The members of [class inc_sat_solver], but the manager [m] and the
    stateless [m_goal2sat].  The sizes and the scope depth are [unsigned] in
    the source; they count entries of vectors held in memory, never come
    near [2^32], and are natural numbers here. *)

Record inc_sat_solver := mk_inc_sat_solver {
  m_solver : sat_solver;
  m_params : params;
  m_optimize_model : bool;
  m_fmls : list expr;
  m_asmsf : list expr;
  m_fmls_lim : list nat;
  m_asms_lim : list nat;
  m_fmls_head_lim : list nat;
  m_fmls_head : nat;
  m_core : list expr;
  m_map : atom2bool_var;
  m_model : option model;
  m_bb_rewriter : option bit_blaster_rewriter;
  m_preprocess : option tactic;
  m_num_scopes : nat;
  m_asms : list literal;
  m_subgoals : list goal;
  m_pc : option proof_converter;
  m_mc : option model_converter;
  m_mc0 : option model_converter;
  m_dep_core : option expr_dependency;
  m_weights : list double;
  m_unknown : string;
  m_exps : list Z
}.

(** Field updates, one per member. *)
Definition set_m_solver (v : sat_solver)
    (s : inc_sat_solver) : inc_sat_solver :=
  mk_inc_sat_solver v (m_params s) (m_optimize_model s) (m_fmls s)
    (m_asmsf s) (m_fmls_lim s) (m_asms_lim s) (m_fmls_head_lim s)
    (m_fmls_head s) (m_core s) (m_map s) (m_model s) (m_bb_rewriter s)
    (m_preprocess s) (m_num_scopes s) (m_asms s) (m_subgoals s) (m_pc s)
    (m_mc s) (m_mc0 s) (m_dep_core s) (m_weights s) (m_unknown s) (m_exps s).
Definition set_m_params (v : params) (s : inc_sat_solver) : inc_sat_solver :=
  mk_inc_sat_solver (m_solver s) v (m_optimize_model s) (m_fmls s)
    (m_asmsf s) (m_fmls_lim s) (m_asms_lim s) (m_fmls_head_lim s)
    (m_fmls_head s) (m_core s) (m_map s) (m_model s) (m_bb_rewriter s)
    (m_preprocess s) (m_num_scopes s) (m_asms s) (m_subgoals s) (m_pc s)
    (m_mc s) (m_mc0 s) (m_dep_core s) (m_weights s) (m_unknown s) (m_exps s).
Definition set_m_optimize_model (v : bool)
    (s : inc_sat_solver) : inc_sat_solver :=
  mk_inc_sat_solver (m_solver s) (m_params s) v (m_fmls s) (m_asmsf s)
    (m_fmls_lim s) (m_asms_lim s) (m_fmls_head_lim s) (m_fmls_head s)
    (m_core s) (m_map s) (m_model s) (m_bb_rewriter s) (m_preprocess s)
    (m_num_scopes s) (m_asms s) (m_subgoals s) (m_pc s) (m_mc s) (m_mc0 s)
    (m_dep_core s) (m_weights s) (m_unknown s) (m_exps s).
Definition set_m_fmls (v : list expr) (s : inc_sat_solver) : inc_sat_solver :=
  mk_inc_sat_solver (m_solver s) (m_params s) (m_optimize_model s) v
    (m_asmsf s) (m_fmls_lim s) (m_asms_lim s) (m_fmls_head_lim s)
    (m_fmls_head s) (m_core s) (m_map s) (m_model s) (m_bb_rewriter s)
    (m_preprocess s) (m_num_scopes s) (m_asms s) (m_subgoals s) (m_pc s)
    (m_mc s) (m_mc0 s) (m_dep_core s) (m_weights s) (m_unknown s) (m_exps s).
Definition set_m_asmsf (v : list expr)
    (s : inc_sat_solver) : inc_sat_solver :=
  mk_inc_sat_solver (m_solver s) (m_params s) (m_optimize_model s)
    (m_fmls s) v (m_fmls_lim s) (m_asms_lim s) (m_fmls_head_lim s)
    (m_fmls_head s) (m_core s) (m_map s) (m_model s) (m_bb_rewriter s)
    (m_preprocess s) (m_num_scopes s) (m_asms s) (m_subgoals s) (m_pc s)
    (m_mc s) (m_mc0 s) (m_dep_core s) (m_weights s) (m_unknown s) (m_exps s).
Definition set_m_fmls_lim (v : list nat)
    (s : inc_sat_solver) : inc_sat_solver :=
  mk_inc_sat_solver (m_solver s) (m_params s) (m_optimize_model s)
    (m_fmls s) (m_asmsf s) v (m_asms_lim s) (m_fmls_head_lim s)
    (m_fmls_head s) (m_core s) (m_map s) (m_model s) (m_bb_rewriter s)
    (m_preprocess s) (m_num_scopes s) (m_asms s) (m_subgoals s) (m_pc s)
    (m_mc s) (m_mc0 s) (m_dep_core s) (m_weights s) (m_unknown s) (m_exps s).
Definition set_m_asms_lim (v : list nat)
    (s : inc_sat_solver) : inc_sat_solver :=
  mk_inc_sat_solver (m_solver s) (m_params s) (m_optimize_model s)
    (m_fmls s) (m_asmsf s) (m_fmls_lim s) v (m_fmls_head_lim s)
    (m_fmls_head s) (m_core s) (m_map s) (m_model s) (m_bb_rewriter s)
    (m_preprocess s) (m_num_scopes s) (m_asms s) (m_subgoals s) (m_pc s)
    (m_mc s) (m_mc0 s) (m_dep_core s) (m_weights s) (m_unknown s) (m_exps s).
Definition set_m_fmls_head_lim (v : list nat)
    (s : inc_sat_solver) : inc_sat_solver :=
  mk_inc_sat_solver (m_solver s) (m_params s) (m_optimize_model s)
    (m_fmls s) (m_asmsf s) (m_fmls_lim s) (m_asms_lim s) v (m_fmls_head s)
    (m_core s) (m_map s) (m_model s) (m_bb_rewriter s) (m_preprocess s)
    (m_num_scopes s) (m_asms s) (m_subgoals s) (m_pc s) (m_mc s) (m_mc0 s)
    (m_dep_core s) (m_weights s) (m_unknown s) (m_exps s).
Definition set_m_fmls_head (v : nat) (s : inc_sat_solver) : inc_sat_solver :=
  mk_inc_sat_solver (m_solver s) (m_params s) (m_optimize_model s)
    (m_fmls s) (m_asmsf s) (m_fmls_lim s) (m_asms_lim s) (m_fmls_head_lim s)
    v (m_core s) (m_map s) (m_model s) (m_bb_rewriter s) (m_preprocess s)
    (m_num_scopes s) (m_asms s) (m_subgoals s) (m_pc s) (m_mc s) (m_mc0 s)
    (m_dep_core s) (m_weights s) (m_unknown s) (m_exps s).
Definition set_m_core (v : list expr) (s : inc_sat_solver) : inc_sat_solver :=
  mk_inc_sat_solver (m_solver s) (m_params s) (m_optimize_model s)
    (m_fmls s) (m_asmsf s) (m_fmls_lim s) (m_asms_lim s) (m_fmls_head_lim s)
    (m_fmls_head s) v (m_map s) (m_model s) (m_bb_rewriter s)
    (m_preprocess s) (m_num_scopes s) (m_asms s) (m_subgoals s) (m_pc s)
    (m_mc s) (m_mc0 s) (m_dep_core s) (m_weights s) (m_unknown s) (m_exps s).
Definition set_m_map (v : atom2bool_var)
    (s : inc_sat_solver) : inc_sat_solver :=
  mk_inc_sat_solver (m_solver s) (m_params s) (m_optimize_model s)
    (m_fmls s) (m_asmsf s) (m_fmls_lim s) (m_asms_lim s) (m_fmls_head_lim s)
    (m_fmls_head s) (m_core s) v (m_model s) (m_bb_rewriter s)
    (m_preprocess s) (m_num_scopes s) (m_asms s) (m_subgoals s) (m_pc s)
    (m_mc s) (m_mc0 s) (m_dep_core s) (m_weights s) (m_unknown s) (m_exps s).
Definition set_m_model (v : option model)
    (s : inc_sat_solver) : inc_sat_solver :=
  mk_inc_sat_solver (m_solver s) (m_params s) (m_optimize_model s)
    (m_fmls s) (m_asmsf s) (m_fmls_lim s) (m_asms_lim s) (m_fmls_head_lim s)
    (m_fmls_head s) (m_core s) (m_map s) v (m_bb_rewriter s)
    (m_preprocess s) (m_num_scopes s) (m_asms s) (m_subgoals s) (m_pc s)
    (m_mc s) (m_mc0 s) (m_dep_core s) (m_weights s) (m_unknown s) (m_exps s).
Definition set_m_bb_rewriter (v : option bit_blaster_rewriter)
    (s : inc_sat_solver) : inc_sat_solver :=
  mk_inc_sat_solver (m_solver s) (m_params s) (m_optimize_model s)
    (m_fmls s) (m_asmsf s) (m_fmls_lim s) (m_asms_lim s) (m_fmls_head_lim s)
    (m_fmls_head s) (m_core s) (m_map s) (m_model s) v (m_preprocess s)
    (m_num_scopes s) (m_asms s) (m_subgoals s) (m_pc s) (m_mc s) (m_mc0 s)
    (m_dep_core s) (m_weights s) (m_unknown s) (m_exps s).
Definition set_m_preprocess (v : option tactic)
    (s : inc_sat_solver) : inc_sat_solver :=
  mk_inc_sat_solver (m_solver s) (m_params s) (m_optimize_model s)
    (m_fmls s) (m_asmsf s) (m_fmls_lim s) (m_asms_lim s) (m_fmls_head_lim s)
    (m_fmls_head s) (m_core s) (m_map s) (m_model s) (m_bb_rewriter s) v
    (m_num_scopes s) (m_asms s) (m_subgoals s) (m_pc s) (m_mc s) (m_mc0 s)
    (m_dep_core s) (m_weights s) (m_unknown s) (m_exps s).
Definition set_m_num_scopes (v : nat) (s : inc_sat_solver) : inc_sat_solver :=
  mk_inc_sat_solver (m_solver s) (m_params s) (m_optimize_model s)
    (m_fmls s) (m_asmsf s) (m_fmls_lim s) (m_asms_lim s) (m_fmls_head_lim s)
    (m_fmls_head s) (m_core s) (m_map s) (m_model s) (m_bb_rewriter s)
    (m_preprocess s) v (m_asms s) (m_subgoals s) (m_pc s) (m_mc s) (m_mc0 s)
    (m_dep_core s) (m_weights s) (m_unknown s) (m_exps s).
Definition set_m_asms (v : list literal)
    (s : inc_sat_solver) : inc_sat_solver :=
  mk_inc_sat_solver (m_solver s) (m_params s) (m_optimize_model s)
    (m_fmls s) (m_asmsf s) (m_fmls_lim s) (m_asms_lim s) (m_fmls_head_lim s)
    (m_fmls_head s) (m_core s) (m_map s) (m_model s) (m_bb_rewriter s)
    (m_preprocess s) (m_num_scopes s) v (m_subgoals s) (m_pc s) (m_mc s)
    (m_mc0 s) (m_dep_core s) (m_weights s) (m_unknown s) (m_exps s).
Definition set_m_subgoals (v : list goal)
    (s : inc_sat_solver) : inc_sat_solver :=
  mk_inc_sat_solver (m_solver s) (m_params s) (m_optimize_model s)
    (m_fmls s) (m_asmsf s) (m_fmls_lim s) (m_asms_lim s) (m_fmls_head_lim s)
    (m_fmls_head s) (m_core s) (m_map s) (m_model s) (m_bb_rewriter s)
    (m_preprocess s) (m_num_scopes s) (m_asms s) v (m_pc s) (m_mc s)
    (m_mc0 s) (m_dep_core s) (m_weights s) (m_unknown s) (m_exps s).
Definition set_m_pc (v : option proof_converter)
    (s : inc_sat_solver) : inc_sat_solver :=
  mk_inc_sat_solver (m_solver s) (m_params s) (m_optimize_model s)
    (m_fmls s) (m_asmsf s) (m_fmls_lim s) (m_asms_lim s) (m_fmls_head_lim s)
    (m_fmls_head s) (m_core s) (m_map s) (m_model s) (m_bb_rewriter s)
    (m_preprocess s) (m_num_scopes s) (m_asms s) (m_subgoals s) v (m_mc s)
    (m_mc0 s) (m_dep_core s) (m_weights s) (m_unknown s) (m_exps s).
Definition set_m_mc (v : option model_converter)
    (s : inc_sat_solver) : inc_sat_solver :=
  mk_inc_sat_solver (m_solver s) (m_params s) (m_optimize_model s)
    (m_fmls s) (m_asmsf s) (m_fmls_lim s) (m_asms_lim s) (m_fmls_head_lim s)
    (m_fmls_head s) (m_core s) (m_map s) (m_model s) (m_bb_rewriter s)
    (m_preprocess s) (m_num_scopes s) (m_asms s) (m_subgoals s) (m_pc s) v
    (m_mc0 s) (m_dep_core s) (m_weights s) (m_unknown s) (m_exps s).
Definition set_m_mc0 (v : option model_converter)
    (s : inc_sat_solver) : inc_sat_solver :=
  mk_inc_sat_solver (m_solver s) (m_params s) (m_optimize_model s)
    (m_fmls s) (m_asmsf s) (m_fmls_lim s) (m_asms_lim s) (m_fmls_head_lim s)
    (m_fmls_head s) (m_core s) (m_map s) (m_model s) (m_bb_rewriter s)
    (m_preprocess s) (m_num_scopes s) (m_asms s) (m_subgoals s) (m_pc s)
    (m_mc s) v (m_dep_core s) (m_weights s) (m_unknown s) (m_exps s).
Definition set_m_dep_core (v : option expr_dependency)
    (s : inc_sat_solver) : inc_sat_solver :=
  mk_inc_sat_solver (m_solver s) (m_params s) (m_optimize_model s)
    (m_fmls s) (m_asmsf s) (m_fmls_lim s) (m_asms_lim s) (m_fmls_head_lim s)
    (m_fmls_head s) (m_core s) (m_map s) (m_model s) (m_bb_rewriter s)
    (m_preprocess s) (m_num_scopes s) (m_asms s) (m_subgoals s) (m_pc s)
    (m_mc s) (m_mc0 s) v (m_weights s) (m_unknown s) (m_exps s).
Definition set_m_weights (v : list double)
    (s : inc_sat_solver) : inc_sat_solver :=
  mk_inc_sat_solver (m_solver s) (m_params s) (m_optimize_model s)
    (m_fmls s) (m_asmsf s) (m_fmls_lim s) (m_asms_lim s) (m_fmls_head_lim s)
    (m_fmls_head s) (m_core s) (m_map s) (m_model s) (m_bb_rewriter s)
    (m_preprocess s) (m_num_scopes s) (m_asms s) (m_subgoals s) (m_pc s)
    (m_mc s) (m_mc0 s) (m_dep_core s) v (m_unknown s) (m_exps s).
Definition set_m_unknown (v : string) (s : inc_sat_solver) : inc_sat_solver :=
  mk_inc_sat_solver (m_solver s) (m_params s) (m_optimize_model s)
    (m_fmls s) (m_asmsf s) (m_fmls_lim s) (m_asms_lim s) (m_fmls_head_lim s)
    (m_fmls_head s) (m_core s) (m_map s) (m_model s) (m_bb_rewriter s)
    (m_preprocess s) (m_num_scopes s) (m_asms s) (m_subgoals s) (m_pc s)
    (m_mc s) (m_mc0 s) (m_dep_core s) (m_weights s) v (m_exps s).
Definition set_m_exps (v : list Z) (s : inc_sat_solver) : inc_sat_solver :=
  mk_inc_sat_solver (m_solver s) (m_params s) (m_optimize_model s)
    (m_fmls s) (m_asmsf s) (m_fmls_lim s) (m_asms_lim s) (m_fmls_head_lim s)
    (m_fmls_head s) (m_core s) (m_map s) (m_model s) (m_bb_rewriter s)
    (m_preprocess s) (m_num_scopes s) (m_asms s) (m_subgoals s) (m_pc s)
    (m_mc s) (m_mc0 s) (m_dep_core s) (m_weights s) (m_unknown s) v.

(** ** A state-and-error monad for the member functions

    A member function reads and writes the object and may stop in an
    [error]. *)
Definition M (A : Type) : Type :=
  inc_sat_solver → result (A * inc_sat_solver).

Definition ret {A} (a : A) : M A := λ s, Ok (a, s).

Definition bind {A C} (m : M A) (k : A → M C) : M C :=
  λ s, match m s with
       | Ok (a, s') => k a s'
       | Err e => Err e
       end.

Definition gets {A} (f : inc_sat_solver → A) : M A := λ s, Ok (f s, s).

Definition modify (f : inc_sat_solver → inc_sat_solver) : M unit :=
  λ s, Ok ((), f s).

Definition throw {A} (e : error) : M A := λ _, Err e.

(** Reading through a pointer or an index that may be invalid. *)
Definition defined {A} (what : string) (o : option A) : M A :=
  match o with
  | Some a => ret a
  | None => throw (undefined_behaviour what)
  end.

Notation "x <- m ;; k" := (bind m (λ x, k))
  (at level 100, m at next level, right associativity).
Notation "m ;; k" := (bind m (λ _, k))
  (at level 100, right associativity).

(** ** Assertions and introspection *)

Definition assert_expr (t : expr) : M unit :=
  modify (λ s, set_m_fmls (push_back t (m_fmls s)) s).

(** [assert_expr(t, a)]; [a] is a nullable pointer. *)
Definition assert_expr2 (t : expr) (a : option expr) : M unit :=
  match a with
  | Some a =>
      modify (λ s, set_m_asmsf (push_back a (m_asmsf s)) s) ;;
      assert_expr (mk_implies a t)
  | None => assert_expr t
  end.

Definition get_scope_level : M nat := gets m_num_scopes.
Definition get_num_assertions : M nat := gets (λ s, length (m_fmls s)).
Definition get_num_assumptions : M nat := gets (λ s, length (m_asmsf s)).
Definition get_unsat_core : M (list expr) := gets m_core.
Definition reason_unknown : M string := gets m_unknown.
Definition set_reason_unknown (msg : string) : M unit :=
  modify (set_m_unknown msg).

(** ** The preprocessing pipeline *)

Definition simp2_p (p : params) : params :=
  params_set_bool "blast_distinct" true
   (params_set_bool "elim_and" true
    (params_set_bool "hoist_mul" false
     (params_set_bool "flat" true
      (params_set_uint "local_ctx_limit" 10000000%N
       (params_set_bool "local_ctx" true
        (params_set_bool "push_ite_bv" false
         (params_set_bool "pull_cheap_ite" true
          (params_set_bool "som" true p)))))))).

(** [while (m_bb_rewriter->get_num_scopes() < m_num_scopes) push()]: each
    round adds a scope, so [n] rounds always suffice. *)
Fixpoint bb_align (fuel n : nat) (b : bit_blaster_rewriter)
  : bit_blaster_rewriter :=
  match fuel with
  | O => b
  | S fuel =>
      if bb_get_num_scopes b <? n then bb_align fuel n (bb_push b) else b
  end.

Definition init_preprocess_on (s : inc_sat_solver) : inc_sat_solver :=
  let s := set_m_preprocess (tactic_reset <$> m_preprocess s) s in
  let bb := match m_bb_rewriter s with
            | Some b => b
            | None => bb_mk (m_params s)
            end in
  let s := set_m_bb_rewriter (Some bb) s in
  let s := set_m_preprocess
             (Some (mk_preprocess (m_params s) (simp2_p (m_params s)))) s in
  let s := set_m_bb_rewriter
             (Some (bb_align (m_num_scopes s) (m_num_scopes s) bb)) s in
  set_m_preprocess (tactic_reset <$> m_preprocess s) s.

Definition init_preprocess : M unit := modify init_preprocess_on.

(** [internalize_goal(g, dep2asm)]; both arguments are in-out references
    and come back with the answer. *)
Definition internalize_goal (g : goal) (dep2asm : dep2asm_t)
  : M (lbool * goal * dep2asm_t) :=
  modify (set_m_mc None) ;;
  modify (set_m_pc None) ;;
  modify (set_m_dep_core None) ;;
  modify (set_m_subgoals []) ;;
  init_preprocess ;;
  t <- bind (gets m_preprocess) (defined "m_preprocess is null") ;;
  bb <- bind (gets m_bb_rewriter) (defined "m_bb_rewriter is null") ;;
  match tactic_apply t bb g with
  | inl _ =>
      modify (set_m_preprocess None) ;;
      modify (set_m_bb_rewriter None) ;;
      ret (l_undef, g, dep2asm)
  | inr (subgoals, mc, pc, core, bb', t') =>
      modify (set_m_subgoals subgoals) ;;
      modify (set_m_mc mc) ;;
      modify (set_m_pc pc) ;;
      modify (set_m_dep_core core) ;;
      modify (set_m_bb_rewriter (Some bb')) ;;
      modify (set_m_preprocess (Some t')) ;;
      if negb (length subgoals =? 1) then ret (l_undef, g, dep2asm)
      else
        g <- defined "m_subgoals[0]" (subgoals !! 0) ;;
        s <- gets id ;;
        let '(solver, map, dep2asm, atoms) :=
          goal2sat g (m_params s) (m_solver s) (m_map s) dep2asm in
        modify (set_m_solver solver) ;;
        modify (set_m_map map) ;;
        if negb (empty atoms) then
          set_reason_unknown
            ("interpreted atoms sent to SAT solver " +:+ pp_exprs atoms) ;;
          ret (l_undef, g, dep2asm)
        else ret (l_true, g, dep2asm)
  end.

(** ** Formulas and assumptions *)

Definition internalize_formulas : M lbool :=
  s <- gets id ;;
  if m_fmls_head s =? length (m_fmls s) then ret l_true
  else
    let g := foldl (λ g f, goal_assert f [] g) (mk_goal true false [])
                   (drop (m_fmls_head s) (m_fmls s)) in
    r <- internalize_goal g ∅ ;;
    let res := r.1.1 in
    (if negb (lbool_eqb res l_undef)
     then modify (λ s, set_m_fmls_head (length (m_fmls s)) s)
     else ret ()) ;;
    ret res.

(** The first loop of [extract_assumptions]: [i] runs over the
    call-supplied terms, [j] counts the ones kept. *)
Fixpoint extract_supplied (dep2asm : dep2asm_t) (asms : list expr)
    (i j : nat) : M unit :=
  match asms with
  | [] => ret ()
  | a :: asms =>
      match dep2asm !! a with
      | Some lit =>
          modify (λ s, set_m_asms (push_back lit (m_asms s)) s) ;;
          ws <- gets m_weights ;;
          (if negb (i =? j) && negb (empty ws) then
             w <- defined "m_weights[i]" (ws !! i) ;;
             modify (set_m_weights (<[j := w]> ws))
           else ret ()) ;;
          extract_supplied dep2asm asms (S i) (S j)
      | None => extract_supplied dep2asm asms (S i) j
      end
  end.

Fixpoint extract_standing (dep2asm : dep2asm_t) (asmsf : list expr)
  : M unit :=
  match asmsf with
  | [] => ret ()
  | a :: asmsf =>
      (match dep2asm !! a with
       | Some lit => modify (λ s, set_m_asms (push_back lit (m_asms s)) s)
       | None => ret ()
       end) ;;
      extract_standing dep2asm asmsf
  end.

Definition extract_assumptions (asms : list expr) (dep2asm : dep2asm_t)
  : M unit :=
  modify (set_m_asms []) ;;
  extract_supplied dep2asm asms 0 0 ;;
  asmsf <- gets m_asmsf ;;
  extract_standing dep2asm asmsf.

Definition internalize_assumptions (asms : list expr) (dep2asm : dep2asm_t)
  : M (lbool * dep2asm_t) :=
  n <- get_num_assumptions ;;
  if (length asms =? 0) && (n =? 0) then
    modify (set_m_asms []) ;;
    ret (l_true, dep2asm)
  else
    asmsf <- gets m_asmsf ;;
    let g := foldl (λ g a, goal_assert a [a] g) (mk_goal true true []) asms in
    let g := foldl (λ g a, goal_assert a [a] g) g asmsf in
    r <- internalize_goal g dep2asm ;;
    let res := r.1.1 in
    let dep2asm := r.2 in
    (if lbool_eqb res l_true then extract_assumptions asms dep2asm
     else ret ()) ;;
    ret (res, dep2asm).

(** ** Scopes *)

Definition push : M unit :=
  internalize_formulas ;;
  modify (λ s, set_m_solver (sat_user_push (m_solver s)) s) ;;
  modify (λ s, set_m_num_scopes (S (m_num_scopes s)) s) ;;
  modify (λ s, set_m_fmls_lim
                 (push_back (length (m_fmls s)) (m_fmls_lim s)) s) ;;
  modify (λ s, set_m_asms_lim
                 (push_back (length (m_asmsf s)) (m_asms_lim s)) s) ;;
  modify (λ s, set_m_fmls_head_lim
                 (push_back (m_fmls_head s) (m_fmls_head_lim s)) s) ;;
  modify (λ s, set_m_bb_rewriter (bb_push <$> m_bb_rewriter s) s) ;;
  modify (λ s, set_m_map (map_push (m_map s)) s).

(** [v.resize(n)] on a vector of terms.  Shrinking keeps the first [n]
    entries.  Growing would pad with null pointers, which [list expr] has
    no room for; that case is an error here and [pop_returns] shows that
    no checkpoint ever asks for it. *)
Definition resize (n : nat) (v : list expr) : M (list expr) :=
  if n <=? length v then ret (take n v)
  else throw (undefined_behaviour "resize pads with null").

(** One round of the loop of [pop]. *)
Definition pop_scope : M unit :=
  h <- bind (gets m_fmls_head_lim)
            (λ v, defined "m_fmls_head_lim.back()" (back v)) ;;
  modify (set_m_fmls_head h) ;;
  n <- bind (gets m_fmls_lim) (λ v, defined "m_fmls_lim.back()" (back v)) ;;
  fmls <- bind (gets m_fmls) (resize n) ;;
  modify (set_m_fmls fmls) ;;
  modify (λ s, set_m_fmls_lim (pop_back (m_fmls_lim s)) s) ;;
  modify (λ s, set_m_fmls_head_lim (pop_back (m_fmls_head_lim s)) s) ;;
  a <- bind (gets m_asms_lim) (λ v, defined "m_asms_lim.back()" (back v)) ;;
  asmsf <- bind (gets m_asmsf) (resize a) ;;
  modify (set_m_asmsf asmsf) ;;
  modify (λ s, set_m_asms_lim (pop_back (m_asms_lim s)) s).

Fixpoint pop_loop (n : nat) : M unit :=
  match n with
  | O => ret ()
  | S n => pop_scope ;; pop_loop n
  end.

Definition pop (n : nat) : M unit :=
  d <- gets m_num_scopes ;;
  let n := if d <? n then d else n in
  modify (λ s, set_m_bb_rewriter (bb_pop n <$> m_bb_rewriter s) s) ;;
  modify (λ s, set_m_map (map_pop n (m_map s)) s) ;;
  modify (λ s, set_m_solver (sat_user_pop n (m_solver s)) s) ;;
  modify (λ s, set_m_num_scopes (m_num_scopes s - n) s) ;;
  pop_loop n.

(** ** Checking *)

(** [u_map<expr*>]: from [literal::index()] to the term.  The source walks
    the hash table of [dep2asm]; here the entries come in the order of
    [map_to_list].  When two terms share a literal the one met last stays;
    nothing below depends on which one that is. *)
Definition extract_asm2dep (dep2asm : dep2asm_t) (asm2dep : gmap N expr)
  : gmap N expr :=
  foldl (λ acc kv, <[lit_index kv.2 := kv.1]> acc) asm2dep
        (map_to_list dep2asm).

Fixpoint extract_core_loop (asm2dep : gmap N expr) (core : list literal)
  : M unit :=
  match core with
  | [] => ret ()
  | l :: core =>
      match asm2dep !! lit_index l with
      | Some e =>
          modify (λ s, set_m_core (push_back e (m_core s)) s) ;;
          extract_core_loop asm2dep core
      | None => throw verify_failed
      end
  end.

Definition extract_core (dep2asm : dep2asm_t) : M unit :=
  let asm2dep := extract_asm2dep dep2asm ∅ in
  core <- gets (λ s, sat_get_core (m_solver s)) ;;
  modify (set_m_core []) ;;
  extract_core_loop asm2dep core.

Fixpoint check_assumptions_loop (ll_m : sat_model)
    (entries : list (expr * literal)) : M unit :=
  match entries with
  | [] => ret ()
  | (_, lit) :: entries =>
      if negb (lbool_eqb (sat_value_at lit ll_m) l_true)
      then throw (default_exception "bad state")
      else check_assumptions_loop ll_m entries
  end.

Definition check_assumptions (dep2asm : dep2asm_t) : M unit :=
  ll_m <- gets (λ s, sat_get_model (m_solver s)) ;;
  check_assumptions_loop ll_m (map_to_list dep2asm).

(** A pointer that is not null. *)
Definition is_some {A} (p : option A) : bool :=
  match p with Some _ => true | None => false end.

(** [check_sat(sz, assumptions, weights, max_weight)]: [assumptions] is
    the array of length [sz]; [weights] is null or an array that must hold
    [sz] entries. *)
Definition check_sat (assumptions : list expr)
    (weights : option (list double)) (max_weight : double) : M lbool :=
  let sz := length assumptions in
  modify (set_m_weights []) ;;
  (match weights with
   | Some ws =>
       if length ws <? sz then throw (undefined_behaviour "weights[i]")
       else modify (set_m_weights (take sz ws))
   | None => ret ()
   end) ;;
  modify (λ s, set_m_solver (sat_pop_to_base_level (m_solver s)) s) ;;
  modify (set_m_model None) ;;
  r <- internalize_formulas ;;
  if negb (lbool_eqb r l_true) then ret r
  else
    rd <- internalize_assumptions assumptions ∅ ;;
    let dep2asm := rd.2 in
    if negb (lbool_eqb rd.1 l_true) then ret rd.1
    else
      s <- gets id ;;
      let '(r, solver) :=
        sat_check (m_asms s) (m_weights s) max_weight (m_solver s) in
      modify (set_m_solver solver) ;;
      (match r with
       | l_true =>
           if (0 <? sz) && negb (is_some weights)
           then check_assumptions dep2asm else ret ()
       | l_false =>
           asms <- gets m_asms ;;
           if negb (empty asms) then extract_core dep2asm
           else ret ()
       | l_undef => ret ()
       end) ;;
      ret r.

(** [check_sat(num_assumptions, assumptions)] *)
Definition check_sat0 (assumptions : list expr) : M lbool :=
  check_sat assumptions None double_zero.

(** ** Mutexes *)

(** One round of the first loop of [find_mutexes]. *)
Definition collect_literal (map : atom2bool_var)
    (acc : list literal * gmap N expr) (var : expr)
  : list literal * gmap N expr :=
  let '(neg, e) := is_not var in
  let v := to_bool_var map e in
  if negb (v =? null_bool_var)%N then
    let lit := mk_literal v neg in
    (push_back lit acc.1, <[lit_index lit := var]> acc.2)
  else acc.

Definition collect_literals (map : atom2bool_var) (vars : list expr)
  : list literal * gmap N expr :=
  foldl (collect_literal map) ([], ∅) vars.

(** [lit2var.find(idx)] returns the value and has no answer for an absent
    key. *)
Fixpoint map_mutex (lit2var : gmap N expr) (ls_mutex : list literal)
    (mutex : list expr) : M (list expr) :=
  match ls_mutex with
  | [] => ret mutex
  | l :: ls_mutex =>
      e <- defined "lit2var.find" (lit2var !! lit_index l) ;;
      map_mutex lit2var ls_mutex (push_back e mutex)
  end.

Fixpoint map_mutexes (lit2var : gmap N expr)
    (ls_mutexes : list (list literal)) (mutexes : list (list expr))
  : M (list (list expr)) :=
  match ls_mutexes with
  | [] => ret mutexes
  | ls_mutex :: ls_mutexes =>
      mutex <- map_mutex lit2var ls_mutex [] ;;
      map_mutexes lit2var ls_mutexes (push_back mutex mutexes)
  end.

(** [find_mutexes(vars, mutexes)]; [mutexes] is an in-out reference. *)
Definition find_mutexes (vars : list expr) (mutexes : list (list expr))
  : M (lbool * list (list expr)) :=
  s <- gets id ;;
  let '(ls, lit2var) := collect_literals (m_map s) vars in
  let '(ls_mutexes, solver) := sat_find_mutexes ls (m_solver s) in
  modify (set_m_solver solver) ;;
  mutexes <- map_mutexes lit2var ls_mutexes mutexes ;;
  ret (l_true, mutexes).

(** ** Construction and translation *)

Definition inc_sat_solver_new (p : params) : inc_sat_solver :=
  let s := {|
    m_solver := sat_mk p;
    m_params := p;
    m_optimize_model := false;
    m_fmls := [];
    m_asmsf := [];
    m_fmls_lim := [];
    m_asms_lim := [];
    m_fmls_head_lim := [];
    m_fmls_head := 0;
    m_core := [];
    m_map := map_mk;
    m_model := None;
    m_bb_rewriter := None;
    m_preprocess := None;
    m_num_scopes := 0;
    m_asms := [];
    m_subgoals := [];
    m_pc := None;
    m_mc := None;
    m_mc0 := None;
    m_dep_core := None;
    m_weights := [];
    m_unknown := "no reason given";
    m_exps := []
  |} in
  let s := set_m_params (params_set_bool "elim_vars" false (m_params s)) s in
  let s := set_m_solver (sat_updt_params (m_params s) (m_solver s)) s in
  init_preprocess_on s.

(** [translate(dst_m, p)]; [tr] is the [ast_translation] from [m] to
    [dst_m].  The object itself is left as it was. *)
Definition translate (tr : expr → expr) (p : params) : M inc_sat_solver :=
  n <- gets m_num_scopes ;;
  if 0 <? n then
    throw (default_exception "Cannot translate sat solver at non-base level")
  else
    s <- gets id ;;
    let result := inc_sat_solver_new p in
    let result :=
      foldl (λ r f, set_m_fmls (push_back (tr f) (m_fmls r)) r)
            result (m_fmls s) in
    let result :=
      foldl (λ r f, set_m_asmsf (push_back (tr f) (m_asmsf r)) r)
            result (m_asmsf s) in
    ret result.

(** ** Values of consequences *)

(** [while (m_exps.size() < value.size()) push_back(2 * m_exps.back())];
    every round adds an entry, so [n] rounds suffice. *)
Fixpoint grow_exps (fuel n : nat) : M unit :=
  match fuel with
  | O => ret ()
  | S fuel =>
      exps <- gets m_exps ;;
      if length exps <? n then
        b <- defined "m_exps.back()" (back exps) ;;
        modify (set_m_exps (push_back (2 * b)%Z exps)) ;;
        grow_exps fuel n
      else ret ()
  end.

Fixpoint sum_bits (value : list literal) (i : nat) (r : Z) : M Z :=
  match value with
  | [] => ret r
  | l :: value =>
      if negb (lit_sign l) then
        e <- bind (gets m_exps) (λ exps, defined "m_exps[i]" (exps !! i)) ;;
        sum_bits value (S i) (r + e)%Z
      else sum_bits value (S i) r
  end.

(** [internalize_value(value, v, val)]; the result is [val]. *)
Definition internalize_value (value : list literal) (v : expr) : M expr :=
  if is_uninterp_const v && is_bool v then
    l <- defined "value[0]" (value !! 0) ;;
    ret (if lit_sign l then mk_not v else v)
  else if is_uninterp_const v && is_bv_sort (get_sort v) then
    exps <- gets m_exps ;;
    (if empty exps then modify (set_m_exps (push_back 1%Z exps))
     else ret ()) ;;
    grow_exps (length value) (length value) ;;
    r <- sum_bits value 0 0%Z ;;
    ret (mk_eq v (mk_numeral r (length value)))
  else throw (undefined_behaviour "UNREACHABLE").

(** ** Reading a call *)

(** The answer of a call, when it returns. *)
Definition answer {A} (r : result (A * inc_sat_solver))
  : option A :=
  match r with
  | Ok (a, _) => Some a
  | Err _ => None
  end.

(** The state a call leaves; the state it started in when it stops in an
    error. *)
Definition after {A} (m : M A) (s : inc_sat_solver)
  : inc_sat_solver :=
  match m s with
  | Ok (_, s') => s'
  | Err _ => s
  end.

End Solver.

Arguments M {B} A.
Arguments inc_sat_solver {B}.

(** ** A small backend

    An implementation of [Backend] small enough to run: the pipeline is a
    given function from a goal to its outcome, [goal2sat] numbers boolean
    atoms in the order it meets them, drops the dependency leaf [true],
    and reports every atom that is not an uninterpreted boolean constant
    as interpreted; the engine answers unsat with the whole assumption
    list as core whenever it is given assumptions. *)
Module Toy.

(** Index of [e] in [atoms], appending it when new. *)
Fixpoint intern (atoms : list expr) (e : expr) (i : N) : list expr * N :=
  match atoms with
  | [] => ([e], i)
  | a :: atoms =>
      if bool_decide (a = e) then (a :: atoms, i)
      else let '(atoms, k) := intern atoms e (N.succ i) in (a :: atoms, k)
  end.

Fixpoint lookup_atom (atoms : list expr) (e : expr) (i : N) : bool_var :=
  match atoms with
  | [] => null_bool_var
  | a :: atoms =>
      if bool_decide (a = e) then i else lookup_atom atoms e (N.succ i)
  end.

(** The atoms of a formula, through [not] and [=>]. *)
Fixpoint atoms_of (f : expr) : list expr :=
  match f with
  | ETrue | EFalse => []
  | ENot a => atoms_of a
  | EImplies a b => atoms_of a ++ atoms_of b
  | _ => [f]
  end.

Definition interpreted (a : expr) : bool :=
  negb (is_uninterp_const a && is_bool a).

Definition add_dep (acc : list expr * gmap expr literal) (leaf : expr)
  : list expr * gmap expr literal :=
  if bool_decide (leaf = ETrue) then acc
  else
    let '(sign, a) := is_not leaf in
    let '(atoms, v) := intern acc.1 a 0%N in
    (atoms, <[leaf := mk_literal v sign]> acc.2).

Definition toy_goal2sat (g : goal) (atoms : list expr)
    (dep2asm : gmap expr literal)
  : list expr * gmap expr literal * list expr :=
  let fs := concat (atoms_of <$> (fst <$> goal_forms g)) in
  let atoms := foldl (λ m a, (intern m a 0%N).1) atoms fs in
  let '(atoms, dep2asm) := foldl add_dep (atoms, dep2asm) (goal_leaves g) in
  (atoms, dep2asm, filter (λ a, interpreted a = true) fs).

Definition backend (pipeline : goal → string + list goal) : Backend := {|
  params := unit;
  params_set_bool _ _ p := p;
  params_set_uint _ _ p := p;
  params_get_bool _ d _ := d;
  double := nat;
  double_zero := 0;
  sat_solver := list literal;
  sat_model := unit;
  sat_mk _ := [];
  sat_updt_params _ s := s;
  sat_user_push s := s;
  sat_user_pop _ s := s;
  sat_pop_to_base_level s := s;
  sat_check asms _ _ _ :=
    if empty asms then (l_true, []) else (l_false, asms);
  sat_get_core s := s;
  sat_get_model _ := ();
  sat_value_at _ _ := l_true;
  sat_find_mutexes ls s := ([ls], s);
  atom2bool_var := list expr;
  map_mk := [];
  map_push m := m;
  map_pop _ m := m;
  to_bool_var m e := lookup_atom m e 0%N;
  bit_blaster_rewriter := nat;
  bb_mk _ := 0;
  bb_push := S;
  bb_pop n b := b - n;
  bb_get_num_scopes b := b;
  model := unit;
  model_converter := unit;
  proof_converter := unit;
  expr_dependency := unit;
  tactic := unit;
  mk_preprocess _ _ := ();
  tactic_reset t := t;
  tactic_apply t bb g :=
    match pipeline g with
    | inl msg => inl msg
    | inr gs => inr (gs, None, None, None, bb, t)
    end;
  goal2sat g _ solver atoms dep2asm :=
    let '(atoms, dep2asm, interp) := toy_goal2sat g atoms dep2asm in
    (solver, atoms, dep2asm, interp);
  pp_exprs atoms := "..."
|}.

(** The pipeline that hands its goal on unchanged, the one that always
    raises, and the one that splits its goal in two. *)
Definition accept (g : goal) : string + list goal := inr [g].
Definition raise (g : goal) : string + list goal := inl "tactic failed".
Definition split (g : goal) : string + list goal := inr [g; g].

(** The one model of the small backend, and its weights. *)
Definition a_model pipeline : @model (backend pipeline) := ().
Definition weights pipeline (ws : list nat)
  : list (@double (backend pipeline)) := ws.

Definition accepting : Backend := backend accept.
Definition raising : Backend := backend raise.
Definition splitting : Backend := backend split.

Definition x : expr := EConst "x" BoolSort.
Definition y : expr := EConst "y" BoolSort.
Definition a : expr := EConst "a" BoolSort.
Definition b4 : expr := EConst "b" (BvSort 4).
Definition i1 : expr := EConst "i" (OtherSort "Int").
Definition i2 : expr := EConst "j" (OtherSort "Int").

(** A fresh solver; one with [x] asserted; one with the integer
    equation [i = j] asserted; one with [x] and [y] asserted, each
    under the guard [a]. *)
Definition fresh (pipeline : goal → string + list goal)
  : @inc_sat_solver (backend pipeline) :=
  inc_sat_solver_new (B := backend pipeline) ().

Definition with_x pipeline : @inc_sat_solver (backend pipeline) :=
  after (assert_expr x) (fresh pipeline).

Definition with_eq : @inc_sat_solver accepting :=
  after (assert_expr (mk_eq i1 i2)) (fresh accept).

Definition guarded : @inc_sat_solver accepting :=
  after (assert_expr2 y (Some a))
    (after (assert_expr2 x (Some a)) (fresh accept)).

End Toy.

(** ** Call sequences *)

(** Calls that only add: the two forms of [assert_expr], and [push]. *)
Inductive op :=
| AssertExpr (t : expr)
| AssertExpr2 (t : expr) (a : option expr)
| Push.

(** Calls that move between scopes. *)
Inductive scope_op :=
| ScopePush
| ScopePop (n : nat).

Section Calls.
Context `{B : Backend}.

Definition run_op (o : op) : M unit :=
  match o with
  | AssertExpr t => assert_expr t
  | AssertExpr2 t a => assert_expr2 t a
  | Push => push
  end.

Fixpoint run_ops (ops : list op) : M unit :=
  match ops with
  | [] => ret ()
  | o :: ops => bind (run_op o) (λ _, run_ops ops)
  end.

Fixpoint pushes (ops : list op) : nat :=
  match ops with
  | [] => 0
  | Push :: ops => S (pushes ops)
  | _ :: ops => pushes ops
  end.

Definition run_scope_op (o : scope_op) : M unit :=
  match o with
  | ScopePush => push
  | ScopePop n => pop n
  end.

Fixpoint run_scope_ops (ops : list scope_op) : M unit :=
  match ops with
  | [] => ret ()
  | o :: ops => bind (run_scope_op o) (λ _, run_scope_ops ops)
  end.

(** The members [internalize_goal] never writes. *)
Definition book (s : inc_sat_solver) :=
  (m_fmls s, m_asmsf s, m_fmls_lim s, m_asms_lim s, m_fmls_head_lim s,
   m_fmls_head s, m_num_scopes s, m_core s, m_model s, m_asms s,
   m_weights s, m_exps s, m_params s).

(** ** Invariants of the object *)

(** A checkpoint vector below a bound: ascending towards the back, and the
    back no larger than the bound. *)
Inductive checkpoints : list nat → nat → Prop :=
| checkpoints_nil n : checkpoints [] n
| checkpoints_snoc l k n :
    checkpoints l k → k ≤ n → checkpoints (push_back k l) n.

Definition stacks_ok (s : inc_sat_solver) : Prop :=
  length (m_asms_lim s) = length (m_fmls_lim s) ∧
  length (m_fmls_head_lim s) = length (m_fmls_lim s) ∧
  checkpoints (m_fmls_lim s) (length (m_fmls s)) ∧
  checkpoints (m_asms_lim s) (length (m_asmsf s)).

(** The class invariant: one checkpoint per scope in each of the three
    vectors, and no checkpoint beyond what it measures. *)
Definition wf (s : inc_sat_solver) : Prop :=
  length (m_fmls_lim s) = m_num_scopes s ∧ stacks_ok s.

(** The invariant as a test, for states given in full. *)
Fixpoint descending (l : list nat) (n : nat) : bool :=
  match l with
  | [] => true
  | k :: l => (k <=? n) && descending l k
  end.

Definition wfb (s : inc_sat_solver) : bool :=
  (length (m_fmls_lim s) =? m_num_scopes s) &&
  (length (m_asms_lim s) =? length (m_fmls_lim s)) &&
  (length (m_fmls_head_lim s) =? length (m_fmls_lim s)) &&
  descending (rev (m_fmls_lim s)) (length (m_fmls s)) &&
  descending (rev (m_asms_lim s)) (length (m_asmsf s)).

(** [s] lies [k] scopes above a checkpoint that recorded the formulas [F],
    the assumptions [A] and the frontier [h] on top of the checkpoint
    vectors [L1], [L2], [L3].  Only the checkpoints from that one on are
    bounded: what lies below it in the three vectors is arbitrary. *)
Definition above (F A : list expr) (h : nat) (L1 L2 L3 : list nat)
    (k : nat) (s : inc_sat_solver) : Prop :=
  ∃ M1 M2 M3,
    m_fmls_lim s = (L1 ++ [length F]) ++ M1 ∧
    m_asms_lim s = (L2 ++ [length A]) ++ M2 ∧
    m_fmls_head_lim s = (L3 ++ [h]) ++ M3 ∧
    length M1 = k ∧ length M2 = k ∧ length M3 = k ∧
    checkpoints ([length F] ++ M1) (length (m_fmls s)) ∧
    checkpoints ([length A] ++ M2) (length (m_asmsf s)) ∧
    F `prefix_of` m_fmls s ∧ A `prefix_of` m_asmsf s.

(** [m_exps[i]] caches [2^i]. *)
Definition exps_ok (exps : list Z) : Prop :=
  ∀ i e, exps !! i = Some e → e = (2 ^ Z.of_nat i)%Z.

(** ** Two stronger readings, which the code does not meet *)

(** [pop] after the matching pushes brings back the formula count, the
    assumption count and also the frontier from before the first push. *)
Definition restores_counts_and_frontier (s0 : inc_sat_solver)
    (ops : list op) : Prop :=
  ∀ s1 s2 s3,
    push s0 = Ok ((), s1) → run_ops ops s1 = Ok ((), s2) →
    pop (S (pushes ops)) s2 = Ok ((), s3) →
    length (m_fmls s3) = length (m_fmls s0) ∧
    length (m_asmsf s3) = length (m_asmsf s0) ∧
    m_fmls_head s3 = m_fmls_head s0.

(** A second [internalize_formulas()] right after a first one succeeds
    and changes nothing, whatever the first one answered. *)
Definition second_call_is_noop (s : inc_sat_solver) : Prop :=
  ∀ r s1,
    internalize_formulas s = Ok (r, s1) →
    internalize_formulas s1 = Ok (l_true, s1).

(** ** What the engine and the pipeline owe this file *)

(** An unsat core holds only literals of the assumptions of that check. *)
Definition core_within_assumptions : Prop :=
  ∀ asms ws mw solver solver',
    sat_check asms ws mw solver = (l_false, solver') →
    ∀ l, l ∈ sat_get_core solver' → l ∈ asms.

(** The pipeline invents no dependency leaf, and [goal2sat] records only
    leaves of the goal it is given. *)
Definition deps_within_leaves : Prop :=
  (∀ t bb g gs mc pc dc bb' t',
     tactic_apply t bb g = inr (gs, mc, pc, dc, bb', t') →
     ∀ g' e, g' ∈ gs → e ∈ goal_leaves g' → e ∈ goal_leaves g) ∧
  (∀ g p solver map (d : dep2asm_t) solver' map' d' atoms,
     goal2sat g p solver map d = (solver', map', d', atoms) →
     ∀ e, is_Some (d' !! e) → is_Some (d !! e) ∨ e ∈ goal_leaves g).

(** A mutex group holds only literals it was asked about. *)
Definition mutexes_within_input : Prop :=
  ∀ ls solver groups solver',
    sat_find_mutexes ls solver = (groups, solver') →
    ∀ group l, group ∈ groups → l ∈ group → l ∈ ls.

End Calls.

(** ** The weights that stay

    The weights of the call-supplied terms that [dep2asm] keeps, in
    order. *)
Fixpoint kept_weights {W} (dep2asm : dep2asm_t) (asms : list expr)
    (ws : list W) : list W :=
  match asms, ws with
  | a :: asms, w :: ws =>
      match dep2asm !! a with
      | Some _ => w :: kept_weights dep2asm asms ws
      | None => kept_weights dep2asm asms ws
      end
  | _, _ => []
  end.

(** ** The value a bit sequence stands for

    Bit [i] counts [2^i] when its literal is positive. *)
Fixpoint bits_value (value : list literal) (i : nat) : Z :=
  match value with
  | [] => 0
  | l :: value =>
      ((if lit_sign l then 0 else 2 ^ Z.of_nat i) + bits_value value (S i))%Z
  end.

(** * Models, consequences, display

    The rest of the member functions and the three free functions at the
    end of the file. *)

(** ** Declarations

    [to_app(n)->get_decl()] and [to_app(n)->get_num_args()], for the terms
    of [expr]; every one of them is an application. *)
Inductive func_decl :=
| DConst (name : string) (range : sort)
| DTrue
| DFalse
| DNot
| DImplies
| DEq
| DBvNum (r : Z) (w : nat).

#[global] Instance func_decl_eq_dec : EqDecision func_decl.
Proof. solve_decision. Defined.

#[global] Instance func_decl_countable : Countable func_decl.
Proof.
  refine (inj_countable'
    (λ d, match d with
          | DConst n s => inl (inl (n, s))
          | DBvNum r w => inl (inr (r, w))
          | DTrue => inr 0
          | DFalse => inr 1
          | DNot => inr 2
          | DImplies => inr 3
          | DEq => inr 4
          end)
    (λ c, match c with
          | inl (inl (n, s)) => DConst n s
          | inl (inr (r, w)) => DBvNum r w
          | inr 0 => DTrue
          | inr 1 => DFalse
          | inr 2 => DNot
          | inr 3 => DImplies
          | inr _ => DEq
          end) _).
  by intros [].
Defined.

Definition get_decl (e : expr) : func_decl :=
  match e with
  | EConst n s => DConst n s
  | ETrue => DTrue
  | EFalse => DFalse
  | ENot _ => DNot
  | EImplies _ _ => DImplies
  | EEq _ _ => DEq
  | EBvNum r w => DBvNum r w
  end.

Definition get_num_args (e : expr) : nat :=
  match e with
  | ENot _ => 1
  | EImplies _ _ | EEq _ _ => 2
  | _ => 0
  end.

Definition mk_true : expr := ETrue.
Definition mk_false : expr := EFalse.

(** [obj_map<func_decl, expr*>] of the bit-blaster: a constant's
    declaration to the term that lists its bits.  This file reads that
    term through [get_num_args] and [get_arg] only, so the value kept here
    is the list of its arguments, bit 0 first. *)
Abbreviation const2bits_t := (gmap func_decl (list expr)) (only parsing).

(** [c_ptr()] of a local vector that was only pushed to: the data
    pointer, null when nothing was pushed. *)
Definition c_ptr {A} (v : list A) : option (list A) :=
  if empty v then None else Some v.

(** ** Further operations of the components

    What the functions below call on the engine, the atom map, the
    bit-blaster, models and their converters, [rational], the manager's
    supply of fresh constants and [mk_and] of [ast_util.h]. *)
Class Services (B : Backend) := {
  (** [params_ref p;] *)
  params_mk : params;

  rational : Type;
  get_double : rational → double;
  is_unsigned : rational → bool;
  get_unsigned : rational → N;
  (** the conversion [unsigned] to [double] and the cast back *)
  double_of_unsigned : N → double;
  unsigned_of_double : double → N;

  sat_model_is_current : sat_solver → bool;
  (** [sat::value_at(v, model)] for a variable *)
  sat_value_at_var : bool_var → sat_model → lbool;
  (** [m_solver.get_consequences(asms, bvars, lconseq)], [lconseq] empty
      on entry *)
  sat_get_consequences : list literal → list bool_var → sat_solver →
                         lbool * list (list literal) * sat_solver;
  (** what [m_solver.display_wcnf(out, n, asms, weights)] writes *)
  sat_display_wcnf : list literal → list N → sat_solver → string;

  (** the entries of [m_map], from [begin()] to [end()] *)
  map_entries : atom2bool_var → list (expr * bool_var);

  bb_const2bits : bit_blaster_rewriter → const2bits_t;

  (** [alloc(model, m)] and [md->register_decl(d, e)] *)
  model_mk : model;
  model_register_decl : func_decl → expr → model → model;
  mk_bit_blaster_model_converter : const2bits_t → model_converter;
  (** [concat(mc1, mc2)], [mc1] a nullable pointer *)
  mc_concat : option model_converter → model_converter →
              option model_converter;
  (** applying a converter to the reference [m_model] *)
  mc_apply : model_converter → option model → option model;

  mk_and : list expr → expr;

  ast_manager : Type;
  (** [m.mk_fresh_const(prefix, sort)] *)
  mk_fresh_const : string → sort → ast_manager → expr * ast_manager
}.

Section More.
Context `{B : Backend} {V : Services B}.

Notation "x <- m ;; k" := (bind m (λ x, k))
  (at level 100, m at next level, right associativity).
Notation "m ;; k" := (bind m (λ _, k))
  (at level 100, right associativity).

(** ** Parameters and introspection *)

Definition updt_params (p : params) : M unit :=
  modify (set_m_params p) ;;
  modify (λ s, set_m_params
                 (params_set_bool "elim_vars" false (m_params s)) s) ;;
  modify (λ s, set_m_solver (sat_updt_params (m_params s) (m_solver s)) s) ;;
  modify (λ s, set_m_optimize_model
                 (params_get_bool "optimize_model" false (m_params s)) s).

(** [m_fmls[idx]], [m_asmsf[idx]]: no bounds check. *)
Definition get_assertion (idx : nat) : M expr :=
  bind (gets m_fmls) (λ v, defined "m_fmls[idx]" (v !! idx)).

Definition get_assumption (idx : nat) : M expr :=
  bind (gets m_asmsf) (λ v, defined "m_asmsf[idx]" (v !! idx)).

(** ** Models *)

(** One round of the loop of [extract_model] over the atom map. *)
Definition register_atom (ll_m : sat_model) (md : model)
    (entry : expr * bool_var) : model :=
  let '(n, v) := entry in
  if 0 <? get_num_args n then md
  else
    match sat_value_at_var v ll_m with
    | l_true => model_register_decl (get_decl n) mk_true md
    | l_false => model_register_decl (get_decl n) mk_false md
    | l_undef => md
    end.

(** [extract_model()]; the evaluation of the stored formulas at its end
    is compiled into debug builds only and is not part of it here. *)
Definition extract_model : M unit :=
  s <- gets id ;;
  if negb (sat_model_is_current (m_solver s)) then modify (set_m_model None)
  else
    let ll_m := sat_get_model (m_solver s) in
    let md := foldl (register_atom ll_m) model_mk (map_entries (m_map s)) in
    modify (set_m_model (Some md)) ;;
    (match m_bb_rewriter s with
     | Some bb =>
         if negb (empty (map_to_list (bb_const2bits bb))) then
           modify (λ s, set_m_mc0
                          (mc_concat (m_mc0 s)
                             (mk_bit_blaster_model_converter
                                (bb_const2bits bb))) s)
         else ret ()
     | None => ret ()
     end) ;;
    mc0 <- gets m_mc0 ;;
    match mc0 with
    | Some mc => modify (λ s, set_m_model (mc_apply mc (m_model s)) s)
    | None => ret ()
    end.

(** [get_model(mdl)]; the result is [mdl]. *)
Definition get_model : M (option model) :=
  md <- gets m_model ;;
  (if negb (is_some md) then extract_model else ret ()) ;;
  gets m_model.

(** ** Variables of a consequence query *)

(** The loop of [internalize_var] over the bits of a bit-vector
    constant. *)
Fixpoint internalize_bits (map : atom2bool_var) (bits : list expr)
    (internalized : bool) (bvars : list bool_var) : bool * list bool_var :=
  match bits with
  | [] => (internalized, bvars)
  | bit :: bits =>
      let b := to_bool_var map bit in
      if (b =? null_bool_var)%N
      then internalize_bits map bits false bvars
      else internalize_bits map bits internalized (push_back b bvars)
  end.

(** [internalize_var(v, bvars)]; [bvars] is an in-out reference and comes
    back with the answer.  [m_bb_rewriter] is dereferenced on entry.  The
    third branch of the source, for a bit-vector constant the bit-blaster
    has no bits for, does nothing. *)
Definition internalize_var (v : expr) (bvars : list bool_var)
  : M (bool * list bool_var) :=
  bb <- bind (gets m_bb_rewriter) (defined "m_bb_rewriter is null") ;;
  let const2bits := bb_const2bits bb in
  map <- gets m_map ;;
  if is_uninterp_const v && is_bool v then
    let b := to_bool_var map v in
    if negb (b =? null_bool_var)%N then ret (true, push_back b bvars)
    else ret (false, bvars)
  else
    match (if is_uninterp_const v then const2bits !! get_decl v
           else None) with
    | Some bits => ret (internalize_bits map bits true bvars)
    | None => ret (false, bvars)
    end.

Fixpoint internalize_vars (vars : list expr) (bvars : list bool_var)
  : M (lbool * list bool_var) :=
  match vars with
  | [] => ret (l_true, bvars)
  | v :: vars =>
      r <- internalize_var v bvars ;;
      internalize_vars vars r.2
  end.

(** ** Consequences *)

(** [sat::literal_set] keeps its members in a vector, in the order in
    which they first came in: [insert] of a member changes nothing, and
    [pop()] takes out the member that came in last. *)
Definition literal_set := list literal.

Definition literal_set_insert (l : literal) (p : literal_set)
  : literal_set :=
  if bool_decide (l ∈ p) then p else push_back l p.

(** The first loop of [extract_fixed_variable]: for each variable the
    literal its consequence fixes, and the premises of that consequence
    into the set.  [None] is the [return false] for a variable that no
    consequence covers. *)
Fixpoint collect_value (bool_var2conseq : gmap N nat)
    (lconseq : list (list literal)) (bvars : list bool_var)
    (value : list literal) (premises : literal_set)
  : M (option (list literal * literal_set)) :=
  match bvars with
  | [] => ret (Some (value, premises))
  | b :: bvars =>
      match bool_var2conseq !! b with
      | Some index =>
          c <- defined "lconseq[index]" (lconseq !! index) ;;
          l0 <- defined "lconseq[index][0]" (c !! 0) ;;
          collect_value bool_var2conseq lconseq bvars (push_back l0 value)
            (foldl (λ p l, literal_set_insert l p) premises (drop 1 c))
      | None => ret None
      end
  end.

(** [while (!premises.empty()) VERIFY(asm2dep.find(premises.pop()...))],
    over the members in the order in which [pop()] takes them out. *)
Fixpoint premises_loop (asm2dep : gmap N expr) (premises : list literal)
    (conj : list expr) : M (list expr) :=
  match premises with
  | [] => ret conj
  | l :: premises =>
      match asm2dep !! lit_index l with
      | Some e => premises_loop asm2dep premises (push_back e conj)
      | None => throw verify_failed
      end
  end.

(** [extract_fixed_variable(...)]: the answer [true] comes with the
    consequence it stored in [conseq]. *)
Definition extract_fixed_variable (dep2asm : dep2asm_t)
    (asm2dep : gmap N expr) (v : expr) (bool_var2conseq : gmap N nat)
    (lconseq : list (list literal)) : M (option expr) :=
  r <- internalize_var v [] ;;
  if negb r.1 then ret None
  else
    vp <- collect_value bool_var2conseq lconseq r.2 [] [] ;;
    match vp with
    | None => ret None
    | Some (value, premises) =>
        val <- internalize_value value v ;;
        conj <- premises_loop asm2dep (reverse premises) [] ;;
        ret (Some (mk_implies (mk_and conj) val))
    end.

(** [bool_var2conseq.insert(lconseq[i][0].var(), i)] for every [i]. *)
Fixpoint index_conseq (lconseq : list (list literal)) (i : nat)
    (bool_var2conseq : gmap N nat) : M (gmap N nat) :=
  match lconseq with
  | [] => ret bool_var2conseq
  | c :: lconseq =>
      l0 <- defined "lconseq[i][0]" (c !! 0) ;;
      index_conseq lconseq (S i) (<[lit_var l0 := i]> bool_var2conseq)
  end.

(** The last loop of [get_consequences_core]. *)
Fixpoint extract_fixed (dep2asm : dep2asm_t) (asm2dep : gmap N expr)
    (vars : list expr) (bool_var2conseq : gmap N nat)
    (lconseq : list (list literal)) (conseq : list expr)
  : M (list expr) :=
  match vars with
  | [] => ret conseq
  | v :: vars =>
      c <- extract_fixed_variable dep2asm asm2dep v bool_var2conseq
             lconseq ;;
      extract_fixed dep2asm asm2dep vars bool_var2conseq lconseq
        (match c with
         | Some e => push_back e conseq
         | None => conseq
         end)
  end.

(** [get_consequences_core(assumptions, vars, conseq)]; [conseq] is an
    in-out reference. *)
Definition get_consequences_core (assumptions vars conseq : list expr)
  : M (lbool * list expr) :=
  init_preprocess ;;
  modify (λ s, set_m_solver (sat_pop_to_base_level (m_solver s)) s) ;;
  r <- internalize_formulas ;;
  if negb (lbool_eqb r l_true) then ret (r, conseq)
  else
    rv <- internalize_vars vars [] ;;
    if negb (lbool_eqb rv.1 l_true) then ret (rv.1, conseq)
    else
      rd <- internalize_assumptions assumptions ∅ ;;
      if negb (lbool_eqb rd.1 l_true) then ret (rd.1, conseq)
      else
        s <- gets id ;;
        let '(r, lconseq, solver) :=
          sat_get_consequences (m_asms s) rv.2 (m_solver s) in
        modify (set_m_solver solver) ;;
        if lbool_eqb r l_false then
          asms <- gets m_asms ;;
          (if negb (empty asms) then extract_core rd.2 else ret ()) ;;
          ret (r, conseq)
        else
          bool_var2conseq <- index_conseq lconseq 0 ∅ ;;
          let asm2dep := extract_asm2dep rd.2 ∅ in
          conseq <- extract_fixed rd.2 asm2dep vars bool_var2conseq
                      lconseq conseq ;;
          ret (r, conseq).

(** ** Display *)

(** The loop of [display_weighted] that guards each soft constraint by a
    fresh constant and asserts the implication. *)
Fixpoint assert_soft (assumptions : list expr) (asms : list expr)
    (m : ast_manager) : M (list expr * ast_manager) :=
  match assumptions with
  | [] => ret (asms, m)
  | f :: assumptions =>
      let '(a, m) := mk_fresh_const "s" BoolSort m in
      assert_expr (mk_implies a f) ;;
      assert_soft assumptions (push_back a asms) m
  end.

(** [nweights.push_back((unsigned) m_weights[i])] for every index of
    [m_asms]. *)
Fixpoint collect_nweights (asms : list literal) (i : nat)
    (nweights : list N) : M (list N) :=
  match asms with
  | [] => ret nweights
  | _ :: asms =>
      w <- bind (gets m_weights) (λ ws, defined "m_weights[i]" (ws !! i)) ;;
      collect_nweights asms (S i) (push_back (unsigned_of_double w) nweights)
  end.

(** [display_weighted(out, sz, assumptions, weights)]: the answer is the
    text written to [out], with the manager as the call leaves it. *)
Definition display_weighted (assumptions : list expr)
    (weights : option (list N)) (m : ast_manager)
  : M (string * ast_manager) :=
  let sz := length assumptions in
  modify (set_m_weights []) ;;
  (match weights with
   | Some ws =>
       if length ws <? sz then throw (undefined_behaviour "weights[i]")
       else modify (set_m_weights (double_of_unsigned <$> take sz ws))
   | None => ret ()
   end) ;;
  init_preprocess ;;
  modify (λ s, set_m_solver (sat_pop_to_base_level (m_solver s)) s) ;;
  am <- assert_soft assumptions [] m ;;
  r <- internalize_formulas ;;
  if negb (lbool_eqb l_true r) then throw verify_failed
  else
    rd <- internalize_assumptions am.1 ∅ ;;
    if negb (lbool_eqb l_true rd.1) then throw verify_failed
    else
      asms <- gets m_asms ;;
      nweights <- collect_nweights asms 0 [] ;;
      s <- gets id ;;
      ret (sat_display_wcnf (m_asms s) nweights (m_solver s), am.2).

(** ** The free functions

    [_weights] is a nullable pointer to an array that must hold an entry
    for each of the [sz] soft constraints. *)

(** The loop of [inc_sat_check_sat]. *)
Fixpoint double_weights (n i : nat) (_weights : list rational)
    (weights : list double) : M (list double) :=
  match n with
  | O => ret weights
  | S n =>
      w <- defined "_weights[i]" (_weights !! i) ;;
      double_weights n (S i) _weights (push_back (get_double w) weights)
  end.

Definition inc_sat_check_sat (soft : list expr)
    (_weights : option (list rational)) (max_weight : rational) : M lbool :=
  weights <- match _weights with
             | Some ws => double_weights (length soft) 0 ws []
             | None => ret []
             end ;;
  let p := params_set_bool "minimize_core" false params_mk in
  updt_params p ;;
  check_sat soft (c_ptr weights) (get_double max_weight).

(** The loop of [inc_sat_display]. *)
Fixpoint unsigned_weights (n i : nat) (_weights : list rational)
    (weights : list N) : M (list N) :=
  match n with
  | O => ret weights
  | S n =>
      w <- defined "_weights[i]" (_weights !! i) ;;
      if negb (is_unsigned w) then
        throw (default_exception
                 "Cannot display weights that are not integers")
      else
        unsigned_weights n (S i) _weights
          (push_back (get_unsigned w) weights)
  end.

Definition inc_sat_display (soft : list expr)
    (_weights : option (list rational)) (m : ast_manager)
  : M (string * ast_manager) :=
  weights <- match _weights with
             | Some ws => unsigned_weights (length soft) 0 ws []
             | None => ret []
             end ;;
  display_weighted soft (c_ptr weights) m.

End More.

Arguments rational {B Services}.
Arguments ast_manager {B Services}.

(** ** A small set of services

    For the small backend: weights are integers; the engine's model is
    current while its last answer was not unsat; every variable asked
    about is a consequence, true under all the assumptions; the
    bit-blaster knows the four bits of [b]; fresh constants are numbered;
    a conjunction is written with [not] and [=>]. *)
Module ToyServices.

Definition b0 : expr := EConst "b0" BoolSort.
Definition b1 : expr := EConst "b1" BoolSort.
Definition b2 : expr := EConst "b2" BoolSort.
Definition b3 : expr := EConst "b3" BoolSort.

Fixpoint conj (es : list expr) : expr :=
  match es with
  | [] => ETrue
  | [e] => e
  | e :: es => ENot (EImplies e (ENot (conj es)))
  end.

Fixpoint index_from (i : N) (atoms : list expr) : list (expr * bool_var) :=
  match atoms with
  | [] => []
  | a :: atoms => (a, i) :: index_from (N.succ i) atoms
  end.

Fixpoint tally (n : nat) : string :=
  match n with
  | O => ""
  | S n => "i" +:+ tally n
  end.

Definition services (pipeline : goal → string + list goal)
  : Services (Toy.backend pipeline) := {|
  params_mk := tt : @params (Toy.backend pipeline);
  rational := Z;
  get_double r := Z.to_nat r : @double (Toy.backend pipeline);
  is_unsigned r := (0 <=? r)%Z && (r <? 2 ^ 32)%Z;
  get_unsigned r := Z.to_N r;
  double_of_unsigned n := N.to_nat n : @double (Toy.backend pipeline);
  unsigned_of_double (d : @double (Toy.backend pipeline)) := N.of_nat d;
  sat_model_is_current (solver : @sat_solver (Toy.backend pipeline)) :=
    empty solver;
  sat_value_at_var _ _ := l_true;
  sat_get_consequences asms bvars
      (solver : @sat_solver (Toy.backend pipeline)) :=
    (l_true, (λ b, mk_literal b false :: asms) <$> bvars, solver);
  sat_display_wcnf _ _ _ := "p wcnf";
  map_entries (atoms : @atom2bool_var (Toy.backend pipeline)) :=
    index_from 0%N atoms;
  bb_const2bits _ := {[ DConst "b" (BvSort 4) := [b0; b1; b2; b3] ]};
  model_mk := tt : @model (Toy.backend pipeline);
  model_register_decl _ _ md := md;
  mk_bit_blaster_model_converter _ :=
    tt : @model_converter (Toy.backend pipeline);
  mc_concat _ mc := Some mc;
  mc_apply _ md := md;
  mk_and := conj;
  ast_manager := nat;
  mk_fresh_const prefix s n := (EConst (prefix +:+ "!" +:+ tally n) s, S n)
|}.

(** The small backend with an engine that finds every problem
    satisfiable and leaves its state alone. *)
Definition agreeable : Backend := {|
  params := @params Toy.accepting;
  params_set_bool := @params_set_bool Toy.accepting;
  params_set_uint := @params_set_uint Toy.accepting;
  params_get_bool := @params_get_bool Toy.accepting;
  double := @double Toy.accepting;
  double_zero := @double_zero Toy.accepting;
  sat_solver := @sat_solver Toy.accepting;
  sat_model := @sat_model Toy.accepting;
  sat_mk := @sat_mk Toy.accepting;
  sat_updt_params := @sat_updt_params Toy.accepting;
  sat_user_push := @sat_user_push Toy.accepting;
  sat_user_pop := @sat_user_pop Toy.accepting;
  sat_pop_to_base_level := @sat_pop_to_base_level Toy.accepting;
  sat_check _ _ _ solver := (l_true, solver);
  sat_get_core := @sat_get_core Toy.accepting;
  sat_get_model := @sat_get_model Toy.accepting;
  sat_value_at := @sat_value_at Toy.accepting;
  sat_find_mutexes := @sat_find_mutexes Toy.accepting;
  atom2bool_var := @atom2bool_var Toy.accepting;
  map_mk := @map_mk Toy.accepting;
  map_push := @map_push Toy.accepting;
  map_pop := @map_pop Toy.accepting;
  to_bool_var := @to_bool_var Toy.accepting;
  bit_blaster_rewriter := @bit_blaster_rewriter Toy.accepting;
  bb_mk := @bb_mk Toy.accepting;
  bb_push := @bb_push Toy.accepting;
  bb_pop := @bb_pop Toy.accepting;
  bb_get_num_scopes := @bb_get_num_scopes Toy.accepting;
  model := @model Toy.accepting;
  model_converter := @model_converter Toy.accepting;
  proof_converter := @proof_converter Toy.accepting;
  expr_dependency := @expr_dependency Toy.accepting;
  tactic := @tactic Toy.accepting;
  mk_preprocess := @mk_preprocess Toy.accepting;
  tactic_reset := @tactic_reset Toy.accepting;
  tactic_apply := @tactic_apply Toy.accepting;
  goal2sat := @goal2sat Toy.accepting;
  pp_exprs := @pp_exprs Toy.accepting
|}.

(** Integer weights, as [rational]s of the small services. *)
Definition rationals pipeline (ws : list Z)
  : list (@rational _ (services pipeline)) := ws.

Definition manager pipeline (n : nat)
  : @ast_manager _ (services pipeline) := n.

(** A solver with the four bits of [b] asserted, the second negated, and
    [x] under the guard [a]. *)
Definition with_bits : @inc_sat_solver Toy.accepting :=
  after (assert_expr2 Toy.x (Some Toy.a))
    (after (assert_expr b3)
       (after (assert_expr b2)
          (after (assert_expr (mk_not b1))
             (after (assert_expr b0) (Toy.fresh Toy.accept))))).

End ToyServices.

Section Contracts.
Context `{B : Backend} {V : Services B}.

(** ** Further invariants of the object *)

(** The frontier never lies beyond the stored formulas, now or at any
    checkpoint. *)
Definition frontier_ok (s : inc_sat_solver) : Prop :=
  m_fmls_head s ≤ length (m_fmls s) ∧
  Forall2 le (m_fmls_head_lim s) (m_fmls_lim s).

(** The bit-blaster, when there is one, is as deep in scopes as the
    solver. *)
Definition bb_follows (s : inc_sat_solver) : Prop :=
  ∀ b, m_bb_rewriter s = Some b → bb_get_num_scopes b = m_num_scopes s.

(** The state in which [check_sat] starts to translate: weights stored,
    engine at base level, cached model dropped. *)
Definition check_sat_start (ws : list double) (s : inc_sat_solver)
  : inc_sat_solver :=
  let sb := set_m_weights ws (set_m_weights [] s) in
  set_m_model None (set_m_solver (sat_pop_to_base_level (m_solver sb)) sb).

(** The members the loop of [pop] reads and writes, and the other
    members that [book] lists. *)
Definition stacks (s : inc_sat_solver) :=
  (m_fmls s, m_asmsf s, m_fmls_lim s, m_asms_lim s, m_fmls_head_lim s,
   m_fmls_head s).

Definition shelf (s : inc_sat_solver) :=
  (m_num_scopes s, m_core s, m_model s, m_asms s, m_weights s, m_exps s,
   m_params s).

(** The literal [find_mutexes] makes of an input term: the variable of
    the term under a leading [not], negated when there is one. *)
Definition literal_of (map : atom2bool_var) (e : expr) : literal :=
  mk_literal (to_bool_var map (is_not e).2) (is_not e).1.

(** The shape of a consequence for the variable [v]: premises from [P]
    imply a value of [v], which is [v], [not v] or [v = n] for a numeral
    [n] that fits its width. *)
Definition consequence_of (P : expr → Prop) (v c : expr) : Prop :=
  ∃ conj val,
    c = mk_implies (mk_and conj) val ∧
    (∀ e, e ∈ conj → P e) ∧
    (val = v ∨ val = mk_not v ∨
     ∃ r w, val = mk_eq v (mk_numeral r w) ∧ (0 ≤ r < 2 ^ Z.of_nat w)%Z).

(** The atoms one run of [internalize_goal] is left with: those that
    [goal2sat] hands back when the pipeline, run on [g], ends in exactly
    one subgoal.  A raised exception and any other subgoal count leave
    none, since [goal2sat] is not reached. *)
Definition residual_atoms (g : goal) (d : dep2asm_t) (s : inc_sat_solver)
  : list expr :=
  let s0 := init_preprocess_on
              (set_m_subgoals []
                 (set_m_dep_core None (set_m_pc None (set_m_mc None s)))) in
  match m_preprocess s0, m_bb_rewriter s0 with
  | Some t, Some bb =>
      match tactic_apply t bb g with
      | inr ([g1], _, _, _, _, _) =>
          (goal2sat g1 (m_params s) (m_solver s) (m_map s) d).2
      | _ => []
      end
  | _, _ => []
  end.

(** The same for the run that [internalize_formulas] makes, on the goal
    of the formulas from the frontier on; no run when the frontier
    covers them all. *)
Definition formula_atoms (s : inc_sat_solver) : list expr :=
  if m_fmls_head s =? length (m_fmls s) then []
  else
    residual_atoms
      (foldl (λ g f, goal_assert f [] g) (mk_goal true false [])
             (drop (m_fmls_head s) (m_fmls s))) ∅ s.

(** And for the run that [internalize_assumptions] makes, on the goal of
    the supplied and the standing assumptions; no run when there are
    neither. *)
Definition assumption_atoms (asms : list expr) (s : inc_sat_solver)
  : list expr :=
  if (length asms =? 0) && (length (m_asmsf s) =? 0) then []
  else
    residual_atoms
      (foldl (λ g a, goal_assert a [a] g)
             (foldl (λ g a, goal_assert a [a] g) (mk_goal true true []) asms)
             (m_asmsf s)) ∅ s.

(** ** What the further components owe this file *)

(** A consequence is a clause with the fixed literal first and, after
    it, only assumption literals of that query; and the core of an unsat
    answer to the query holds only such literals. *)
Definition consequences_within_assumptions : Prop :=
  ∀ asms bvars solver r lconseq solver',
    sat_get_consequences asms bvars solver = (r, lconseq, solver') →
    (∀ c, c ∈ lconseq → c ≠ [] ∧ ∀ p, p ∈ drop 1 c → p ∈ asms) ∧
    (r = l_false → ∀ l, l ∈ sat_get_core solver' → l ∈ asms).

(** The bit-blaster keeps bits for bit-vector constants only. *)
Definition const2bits_of_bit_vectors : Prop :=
  ∀ bb f bits,
    bb_const2bits bb !! f = Some bits → ∃ n w, f = DConst n (BvSort w).

(** The bit-blaster counts its scopes, and the pipeline leaves the count
    alone. *)
Definition bit_blaster_counts_scopes : Prop :=
  (∀ p, bb_get_num_scopes (bb_mk p) = 0) ∧
  (∀ b, bb_get_num_scopes (bb_push b) = S (bb_get_num_scopes b)) ∧
  (∀ n b, n ≤ bb_get_num_scopes b →
          bb_get_num_scopes (bb_pop n b) = bb_get_num_scopes b - n) ∧
  (∀ t bb g gs mc pc dc bb' t',
     tactic_apply t bb g = inr (gs, mc, pc, dc, bb', t') →
     bb_get_num_scopes bb' = bb_get_num_scopes bb).

End Contracts.

(** * Properties *)

Section Properties.
Context `{B : Backend}.

Local Arguments Nat.ltb : simpl never.

(** ** The monad *)

Lemma bind_Ok {A C} (m : M A) (k : A → M C) s r :
  bind m k s = Ok r ↔ ∃ a s', m s = Ok (a, s') ∧ k a s' = Ok r.
Proof.
  unfold bind. split.
  - destruct (m s) as [[a s']|e]; [eauto|discriminate].
  - intros (a & s' & -> & ?). done.
Qed.

Lemma bind_Err {A C} (m : M A) (k : A → M C) s e :
  bind m k s = Err e ↔
  m s = Err e ∨ ∃ a s', m s = Ok (a, s') ∧ k a s' = Err e.
Proof.
  unfold bind. split.
  - destruct (m s) as [[a s']|e']; [eauto|].
    intros [= ->]. by left.
  - intros [->|(a & s' & -> & ?)]; done.
Qed.

Lemma bind_run {A C} (m : M A) (k : A → M C) s a s' :
  m s = Ok (a, s') → bind m k s = k a s'.
Proof. unfold bind. by intros ->. Qed.

Lemma bind_assoc {A C D} (m : M A) (k1 : A → M C) (k2 : C → M D) s :
  bind (bind m k1) k2 s = bind m (λ a, bind (k1 a) k2) s.
Proof. unfold bind. by destruct (m s) as [[a s']|e]. Qed.

Ltac unfold_monad := unfold bind, ret, gets, modify, throw, defined in *.

(** ** Vectors and checkpoints *)

Lemma snoc_cases {A} (l : list A) : l = [] ∨ ∃ l' x, l = l' ++ [x].
Proof. induction l using rev_ind; eauto. Qed.

Lemma back_push_back {A} (x : A) v : back (push_back x v) = Some x.
Proof. apply last_snoc. Qed.

Lemma pop_back_push_back {A} (x : A) v : pop_back (push_back x v) = v.
Proof. apply removelast_last. Qed.

Lemma checkpoints_mono l n m : checkpoints l n → n ≤ m → checkpoints l m.
Proof. destruct 1; econstructor; eauto; lia. Qed.

Lemma checkpoints_snoc_inv l k n :
  checkpoints (l ++ [k]) n → checkpoints l k ∧ k ≤ n.
Proof.
  inversion 1 as [|l' k' n' Hl Hk Heq]; simplify_eq.
  - by destruct l.
  - unfold push_back in Heq. by apply app_inj_tail in Heq as [-> ->].
Qed.

Lemma checkpoints_push l n : checkpoints l n → checkpoints (push_back n l) n.
Proof. by constructor. Qed.

(** ** What the pipeline leaves alone *)

Ltac internalize_goal_cases :=
  unfold internalize_goal, init_preprocess, set_reason_unknown;
  unfold_monad; cbn;
  destruct (tactic_apply _ _ _) as [?|[[[[[[|? [|? ?]] ?] ?] ?] ?] ?]]; cbn;
  [| |destruct (goal2sat _ _ _ _ _) as [[[? ?] ?] [|? ?]]; cbn|].

Lemma internalize_goal_returns g d s :
  ∃ r g' d' s',
    internalize_goal g d s = Ok ((r, g', d'), s') ∧
    (r = l_true ∨ r = l_undef) ∧ book s' = book s.
Proof. internalize_goal_cases; eauto 10. Qed.

Lemma internalize_goal_leaves g d s r g' d' s' :
  deps_within_leaves →
  internalize_goal g d s = Ok ((r, g', d'), s') →
  ∀ e, is_Some (d' !! e) → is_Some (d !! e) ∨ e ∈ goal_leaves g.
Proof.
  intros [Htac Hg2s]. revert s'.
  unfold internalize_goal, init_preprocess, set_reason_unknown;
    unfold_monad; cbn.
  destruct (tactic_apply _ _ _)
    as [msg|[[[[[gs mc] pc] dc] bb'] t']] eqn:Etac; cbn.
  { intros ? [= <- <- <- <-]. auto. }
  destruct gs as [|g1 [|g2 gs]]; cbn;
    [intros ? [= <- <- <- <-]; auto| |intros ? [= <- <- <- <-]; auto].
  destruct (goal2sat _ _ _ _ _) as [[[solver' map'] d1] atoms] eqn:Eg2s.
  assert (∀ e, is_Some (d1 !! e) → is_Some (d !! e) ∨ e ∈ goal_leaves g)
    as Hd1.
  { intros e He. destruct (Hg2s _ _ _ _ _ _ _ _ _ Eg2s e He) as [?|Hin];
      [by left|right].
    eapply Htac; [exact Etac| |exact Hin]. apply list_elem_of_here. }
  destruct atoms; cbn; intros ? [= <- <- <- <-]; auto.
Qed.

(** A raised [tactic_exception] and a subgoal count other than one leave
    [m_unknown] as it was; residual interpreted atoms replace it. *)
Lemma internalize_goal_unknown g d s r g' d' s' :
  internalize_goal g d s = Ok ((r, g', d'), s') →
  r = l_undef →
  let s0 := init_preprocess_on
              (set_m_subgoals []
                 (set_m_dep_core None (set_m_pc None (set_m_mc None s)))) in
  match m_preprocess s0, m_bb_rewriter s0 with
  | Some t, Some bb =>
      match tactic_apply t bb g with
      | inl _ => m_unknown s' = m_unknown s
      | inr (gs, _, _, _, _, _) =>
          match gs with
          | [g1] =>
              ∃ atoms, atoms ≠ [] ∧
                (goal2sat g1 (m_params s) (m_solver s) (m_map s) d).2 = atoms ∧
                m_unknown s' =
                  "interpreted atoms sent to SAT solver " +:+ pp_exprs atoms
          | _ => m_unknown s' = m_unknown s
          end
      end
  | _, _ => False
  end.
Proof.
  revert s'. internalize_goal_cases; intros ? [= <- <- <- <-] ?; try done.
  eexists; split; [|split; reflexivity]. done.
Qed.

(** ** The frontier *)

Lemma internalize_formulas_covered s :
  m_fmls_head s = length (m_fmls s) → internalize_formulas s = Ok (l_true, s).
Proof.
  intros H. unfold internalize_formulas; unfold_monad; cbn.
  by rewrite H, Nat.eqb_refl.
Qed.

(** [internalize_formulas] always returns, with [l_true] or [l_undef]; it
    writes the frontier only, and only on [l_true]. *)
Lemma internalize_formulas_returns s :
  ∃ r s',
    internalize_formulas s = Ok (r, s') ∧
    m_fmls s' = m_fmls s ∧ m_asmsf s' = m_asmsf s ∧
    m_fmls_lim s' = m_fmls_lim s ∧ m_asms_lim s' = m_asms_lim s ∧
    m_fmls_head_lim s' = m_fmls_head_lim s ∧
    m_num_scopes s' = m_num_scopes s ∧
    m_core s' = m_core s ∧ m_model s' = m_model s ∧
    m_weights s' = m_weights s ∧
    ((r = l_true ∧ m_fmls_head s' = length (m_fmls s)) ∨
     (r = l_undef ∧ m_fmls_head s' = m_fmls_head s ∧
      m_fmls_head s ≠ length (m_fmls s))).
Proof.
  unfold internalize_formulas. unfold gets at 1. unfold bind at 1. cbn.
  destruct (Nat.eqb_spec (m_fmls_head s) (length (m_fmls s))) as [Hhead|Hhead].
  { unfold ret. eexists _, _. split; [done|]. repeat split; auto. }
  match goal with |- context [internalize_goal ?g ?d] =>
    destruct (internalize_goal_returns g d s)
      as (r & g' & d' & s' & E & Hr & Hbook) end.
  rewrite (bind_run _ _ _ _ _ E).
  unfold book in Hbook. simplify_eq. cbn.
  destruct Hr as [->| ->]; cbn; unfold_monad; cbn;
    eexists _, _; (split; [done|]); cbn;
    repeat (split; [congruence|]); [left|right]; repeat split; congruence.
Qed.

(** ** Scopes *)

(** [push] always returns.  It records the formula count, the assumption
    count and the frontier as [internalize_formulas] left it. *)
Lemma push_returns s :
  ∃ r s1 s',
    internalize_formulas s = Ok (r, s1) ∧ push s = Ok ((), s') ∧
    m_fmls s' = m_fmls s ∧ m_asmsf s' = m_asmsf s ∧
    m_fmls_lim s' = push_back (length (m_fmls s)) (m_fmls_lim s) ∧
    m_asms_lim s' = push_back (length (m_asmsf s)) (m_asms_lim s) ∧
    m_fmls_head_lim s' = push_back (m_fmls_head s1) (m_fmls_head_lim s) ∧
    m_fmls_head s' = m_fmls_head s1 ∧
    m_num_scopes s' = S (m_num_scopes s) ∧
    m_core s' = m_core s ∧ m_model s' = m_model s.
Proof.
  destruct (internalize_formulas_returns s)
    as (r & s1 & E & Hf & Ha & Hfl & Hal & Hhl & Hn & Hc & Hm & _ & _).
  exists r, s1. unfold push. rewrite (bind_run _ _ _ _ _ E).
  unfold_monad; cbn. eexists. split; [done|]. split; [done|]. cbn.
  rewrite Hf, Ha, Hfl, Hal, Hhl, Hn, Hc, Hm. done.
Qed.

Lemma pop_scope_spec s L1 k1 L2 k2 L3 h :
  m_fmls_lim s = L1 ++ [k1] →
  m_asms_lim s = L2 ++ [k2] →
  m_fmls_head_lim s = L3 ++ [h] →
  k1 ≤ length (m_fmls s) →
  k2 ≤ length (m_asmsf s) →
  ∃ s',
    pop_scope s = Ok ((), s') ∧
    m_fmls_lim s' = L1 ∧ m_asms_lim s' = L2 ∧ m_fmls_head_lim s' = L3 ∧
    m_fmls s' = take k1 (m_fmls s) ∧ m_asmsf s' = take k2 (m_asmsf s) ∧
    m_fmls_head s' = h ∧ m_num_scopes s' = m_num_scopes s ∧
    m_core s' = m_core s ∧ m_model s' = m_model s.
Proof.
  intros H1 H2 H3 Hk1 Hk2.
  unfold pop_scope, resize, back, pop_back; unfold_monad; cbn.
  apply Nat.leb_le in Hk1, Hk2.
  rewrite H3, last_snoc; cbn. rewrite H1, last_snoc; cbn. rewrite Hk1; cbn.
  rewrite H2, last_snoc; cbn. rewrite Hk2; cbn.
  eexists. split; [done|]. cbn. rewrite H1, H2, H3, !removelast_last. done.
Qed.

(** Under the invariant the loop of [pop] runs [n] rounds for any [n] up
    to the number of checkpoints, touching neither cache. *)
Lemma pop_loop_returns n s :
  stacks_ok s → n ≤ length (m_fmls_lim s) →
  ∃ s',
    pop_loop n s = Ok ((), s') ∧ stacks_ok s' ∧
    length (m_fmls_lim s') = length (m_fmls_lim s) - n ∧
    m_num_scopes s' = m_num_scopes s ∧
    m_core s' = m_core s ∧ m_model s' = m_model s.
Proof.
  revert s. induction n as [|n IH]; intros s Hok Hn.
  { exists s. cbn. rewrite Nat.sub_0_r. done. }
  destruct Hok as (Hla & Hlh & Hcf & Hca).
  destruct (snoc_cases (m_fmls_lim s)) as [E1|(L1 & k1 & E1)];
    [rewrite E1 in Hn; cbn in Hn; lia|].
  destruct (snoc_cases (m_asms_lim s)) as [E2|(L2 & k2 & E2)];
    [rewrite E1, E2, length_app in Hla; cbn in Hla; lia|].
  destruct (snoc_cases (m_fmls_head_lim s)) as [E3|(L3 & h & E3)];
    [rewrite E1, E3, length_app in Hlh; cbn in Hlh; lia|].
  rewrite E1 in Hcf. rewrite E2 in Hca.
  apply checkpoints_snoc_inv in Hcf as [Hcf Hk1].
  apply checkpoints_snoc_inv in Hca as [Hca Hk2].
  destruct (pop_scope_spec s _ _ _ _ _ _ E1 E2 E3 Hk1 Hk2)
    as (s1 & Es1 & F1 & F2 & F3 & F4 & F5 & F6 & F7 & F8 & F9).
  rewrite E1, E2, E3, !length_app in *; cbn in *.
  destruct (IH s1) as (s' & Es' & Hok' & G1 & G2 & G3 & G4).
  { unfold stacks_ok. rewrite F1, F2, F3, F4, F5, !length_take.
    rewrite !Nat.min_l by done. repeat split; [lia|lia|done|done]. }
  { rewrite F1. lia. }
  exists s'. rewrite (bind_run _ _ _ _ _ Es1).
  split; [done|]. split; [done|]. rewrite G1, F1, G2, G3, G4.
  repeat split; [lia|congruence..].
Qed.

(** [pop(n)] returns for every [n]; the depth drops by [min n depth]. *)
Lemma pop_returns n s :
  wf s →
  ∃ s',
    pop n s = Ok ((), s') ∧ wf s' ∧
    m_num_scopes s' = m_num_scopes s - n ∧
    m_core s' = m_core s ∧ m_model s' = m_model s.
Proof.
  intros [Hn Hok]. unfold pop. unfold gets at 1. unfold bind at 1.
  set (k := if m_num_scopes s <? n then m_num_scopes s else n).
  assert (k ≤ m_num_scopes s ∧ m_num_scopes s - k = m_num_scopes s - n)
    as [Hk Hkn].
  { subst k. destruct (Nat.ltb_spec (m_num_scopes s) n); lia. }
  unfold modify, bind; cbn.
  match goal with |- context [pop_loop k ?s1] =>
    destruct (pop_loop_returns k s1) as (s' & E & Hok' & G1 & G2 & G3 & G4)
  end; [done|cbn; lia|].
  cbn in *. exists s'. split; [done|]. split.
  { split; [lia|done]. }
  split; [lia|done].
Qed.

(** Whatever the state, a [push] or [pop] that returns has touched
    neither cache. *)
Lemma pop_scope_caches s s' :
  pop_scope s = Ok ((), s') →
  m_model s' = m_model s ∧ m_core s' = m_core s.
Proof.
  unfold pop_scope, resize, back; unfold_monad; cbn.
  destruct (list.last (m_fmls_head_lim s)); [|done]; cbn.
  destruct (list.last (m_fmls_lim s)); [|done]; cbn.
  destruct (_ <=? _); [|done]; cbn.
  destruct (list.last (m_asms_lim s)); [|done]; cbn.
  destruct (_ <=? _); [|done]; cbn.
  by intros [= <-].
Qed.

Lemma pop_loop_caches n s s' :
  pop_loop n s = Ok ((), s') →
  m_model s' = m_model s ∧ m_core s' = m_core s.
Proof.
  revert s. induction n as [|n IH]; intros s; cbn.
  { by intros [= <-]. }
  intros ([] & s1 & E1 & E)%bind_Ok.
  apply pop_scope_caches in E1 as [<- <-]. by apply IH.
Qed.

Lemma pop_caches n s s' :
  pop n s = Ok ((), s') → m_model s' = m_model s ∧ m_core s' = m_core s.
Proof.
  unfold pop. unfold gets, modify, bind at 1 2 3 4 5. cbn.
  by intros ?%pop_loop_caches.
Qed.

Lemma push_caches s s' :
  push s = Ok ((), s') → m_model s' = m_model s ∧ m_core s' = m_core s.
Proof.
  intros E. destruct (push_returns s) as (? & ? & s1 & _ & E' & F).
  rewrite E in E'. simplify_eq.
  by destruct F as (_ & _ & _ & _ & _ & _ & _ & ? & ?).
Qed.

Lemma wf_new p : wf (inc_sat_solver_new p).
Proof. repeat split; cbn; constructor. Qed.

Lemma assert_expr_wf t s :
  wf s →
  ∃ s', assert_expr t s = Ok ((), s') ∧ wf s' ∧
        m_fmls s' = m_fmls s ++ [t] ∧ m_asmsf s' = m_asmsf s ∧
        m_fmls_lim s' = m_fmls_lim s ∧ m_asms_lim s' = m_asms_lim s ∧
        m_fmls_head_lim s' = m_fmls_head_lim s ∧
        m_fmls_head s' = m_fmls_head s.
Proof.
  intros (Hn & Hla & Hlh & Hcf & Hca). eexists. split; [done|]. cbn.
  split; [|done]. repeat split; cbn; try done.
  unfold push_back. rewrite length_app. eapply checkpoints_mono; [done|lia].
Qed.

Lemma assert_expr2_wf t a s :
  wf s →
  ∃ s', assert_expr2 t a s = Ok ((), s') ∧ wf s' ∧
        m_fmls s `prefix_of` m_fmls s' ∧ m_asmsf s `prefix_of` m_asmsf s' ∧
        m_fmls_lim s' = m_fmls_lim s ∧ m_asms_lim s' = m_asms_lim s ∧
        m_fmls_head_lim s' = m_fmls_head_lim s ∧
        m_fmls_head s' = m_fmls_head s.
Proof.
  intros Hwf. destruct a as [a|].
  - destruct Hwf as (Hn & Hla & Hlh & Hcf & Hca).
    eexists. split; [done|]. cbn. unfold push_back.
    split; [|repeat split; try done; by apply prefix_app_r].
    repeat split; cbn; try done; rewrite length_app;
      (eapply checkpoints_mono; [done|lia]).
  - destruct (assert_expr_wf t s Hwf) as (s' & E & Hwf' & Ef & Ea & Hrest).
    exists s'. cbn. split; [done|]. split; [done|]. rewrite Ef, Ea.
    split; [by apply prefix_app_r|done].
Qed.

Lemma push_wf s :
  wf s → ∃ s', push s = Ok ((), s') ∧ wf s'.
Proof.
  intros (Hn & Hla & Hlh & Hcf & Hca).
  destruct (push_returns s)
    as (r & s1 & s' & _ & E & Hf & Ha & Hfl & Hal & Hhl & Hh & Hns & _).
  exists s'. split; [done|]. unfold wf, stacks_ok.
  rewrite Hf, Ha, Hfl, Hal, Hhl, Hns. unfold push_back.
  rewrite !length_app; cbn.
  repeat split; try lia; by apply checkpoints_push.
Qed.

(** C2: [pop(n)] with [n] beyond the scope depth does what [pop] of the
    depth itself does, whatever the state; and under the class invariant
    that is not an error: the call returns, at depth zero. *)
Theorem pop_clamps n s :
  m_num_scopes s < n →
  pop n s = pop (m_num_scopes s) s ∧
  (wf s → ∃ s', pop n s = Ok ((), s') ∧ m_num_scopes s' = 0).
Proof.
  intros Hn.
  assert (pop n s = pop (m_num_scopes s) s) as E.
  { unfold pop, gets, bind.
    apply Nat.ltb_lt in Hn. by rewrite Hn, Nat.ltb_irrefl. }
  split; [done|]. intros Hwf.
  destruct (pop_returns (m_num_scopes s) s Hwf) as (s' & E' & _ & Hd & _).
  exists s'. rewrite E. split; [done|lia].
Qed.

(** C7: no sequence of [push()] and [pop(n)] calls changes the cached
    model [m_model] or the cached unsat core [m_core], whatever the state
    it starts in; and from a state that meets the class invariant every
    such sequence returns. *)
Theorem push_pop_keep_caches ops s :
  (∀ s', run_scope_ops ops s = Ok ((), s') →
         m_model s' = m_model s ∧ m_core s' = m_core s) ∧
  (wf s → ∃ s', run_scope_ops ops s = Ok ((), s') ∧ wf s').
Proof.
  split.
  - revert s. induction ops as [|o ops IH]; intros s s'; cbn.
    { by intros [= <-]. }
    intros ([] & s1 & E1 & E)%bind_Ok.
    apply IH in E as [-> ->].
    destruct o as [|n];
      [exact (push_caches s s1 E1)|exact (pop_caches n s s1 E1)].
  - revert s. induction ops as [|o ops IH]; intros s Hwf.
    { by exists s. }
    assert (∃ s1, run_scope_op o s = Ok ((), s1) ∧ wf s1)
      as (s1 & E1 & Hwf1).
    { destruct o as [|n]; cbn.
      - by apply push_wf.
      - destruct (pop_returns n s Hwf) as (s1 & E & Hwf1 & _).
        by exists s1. }
    destruct (IH s1 Hwf1) as (s' & E & Hwf').
    exists s'. cbn. by rewrite (bind_run _ _ _ _ _ E1).
Qed.

(** *** Undoing pushes *)

Lemma checkpoints_above_bound L a M n :
  checkpoints ((L ++ [a]) ++ M) n → a ≤ n.
Proof.
  revert n. induction M as [|x M IH] using rev_ind; intros n.
  - rewrite app_nil_r. by intros [_ ?]%checkpoints_snoc_inv.
  - rewrite app_assoc. intros [H ?]%checkpoints_snoc_inv.
    apply IH in H. lia.
Qed.

Lemma above_pop_loop F A h L1 L2 L3 k s :
  above F A h L1 L2 L3 k s →
  ∃ s',
    pop_loop (S k) s = Ok ((), s') ∧
    m_fmls s' = F ∧ m_asmsf s' = A ∧ m_fmls_head s' = h ∧
    m_fmls_lim s' = L1 ∧ m_asms_lim s' = L2 ∧ m_fmls_head_lim s' = L3 ∧
    m_num_scopes s' = m_num_scopes s.
Proof.
  revert s. induction k as [|k IH]; intros s
    (M1 & M2 & M3 & E1 & E2 & E3 & H1 & H2 & H3 & Hcf & Hca & [F' HF] & [A' HA]).
  - destruct M1, M2, M3; try done. rewrite app_nil_r in E1, E2, E3.
    change ([length F] ++ []) with ([] ++ [length F]) in Hcf.
    change ([length A] ++ []) with ([] ++ [length A]) in Hca.
    apply checkpoints_snoc_inv in Hcf as [_ Hk1].
    apply checkpoints_snoc_inv in Hca as [_ Hk2].
    destruct (pop_scope_spec s _ _ _ _ _ _ E1 E2 E3 Hk1 Hk2)
      as (s' & E & G1 & G2 & G3 & G4 & G5 & G6 & G7 & _).
    exists s'. cbn. rewrite (bind_run _ _ _ _ _ E). split; [done|].
    rewrite G4, G5, HF, HA, !take_app_length. done.
  - destruct (snoc_cases M1) as [->|(M1' & x1 & ->)]; [done|].
    destruct (snoc_cases M2) as [->|(M2' & x2 & ->)]; [done|].
    destruct (snoc_cases M3) as [->|(M3' & x3 & ->)]; [done|].
    rewrite length_app in H1, H2, H3; cbn in H1, H2, H3.
    rewrite app_assoc in E1, E2, E3, Hcf, Hca.
    apply checkpoints_snoc_inv in Hcf as [Hcf Hk1].
    apply checkpoints_snoc_inv in Hca as [Hca Hk2].
    destruct (pop_scope_spec s _ _ _ _ _ _ E1 E2 E3 Hk1 Hk2)
      as (s1 & E & G1 & G2 & G3 & G4 & G5 & G6 & G7 & _).
    destruct (IH s1) as (s' & E' & R).
    { exists M1', M2', M3'. rewrite G1, G2, G3, G4, G5, !length_take.
      rewrite !Nat.min_l by done.
      repeat split; try done; try lia.
      - rewrite HF. apply (checkpoints_above_bound []) in Hcf.
        rewrite take_app_ge by done. by apply prefix_app_r.
      - rewrite HA. apply (checkpoints_above_bound []) in Hca.
        rewrite take_app_ge by done. by apply prefix_app_r. }
    exists s'.
    change (pop_loop (S (S k)))
      with (bind pop_scope (λ _, pop_loop (S k))).
    rewrite (bind_run _ _ _ _ _ E). split; [done|].
    rewrite <- G7. exact R.
Qed.

(** Asserts and pushes return in every state; they keep what lies below
    a checkpoint and add one scope for each push. *)
Lemma above_run_ops F A h L1 L2 L3 ops k s :
  above F A h L1 L2 L3 k s →
  ∃ s',
    run_ops ops s = Ok ((), s') ∧
    above F A h L1 L2 L3 (k + pushes ops) s' ∧
    m_num_scopes s' = m_num_scopes s + pushes ops.
Proof.
  revert k s. induction ops as [|o ops IH]; intros k s Hab.
  { exists s. rewrite !Nat.add_0_r. done. }
  assert (∃ s1, run_op o s = Ok ((), s1) ∧
            above F A h L1 L2 L3
                  (k + match o with Push => 1 | _ => 0 end) s1 ∧
            m_num_scopes s1 =
              m_num_scopes s + match o with Push => 1 | _ => 0 end)
    as (s1 & E1 & Hab1 & Hn1).
  { destruct Hab
      as (M1 & M2 & M3 & E1 & E2 & E3 & H1 & H2 & H3 & Hcf & Hca & HF & HA).
    assert (∀ s1 : inc_sat_solver,
              m_fmls s `prefix_of` m_fmls s1 →
              m_asmsf s `prefix_of` m_asmsf s1 →
              m_fmls_lim s1 = m_fmls_lim s → m_asms_lim s1 = m_asms_lim s →
              m_fmls_head_lim s1 = m_fmls_head_lim s →
              above F A h L1 L2 L3 (k + 0) s1) as Hkeep.
    { intros s1 Pf Pa G1 G2 G3.
      exists M1, M2, M3. rewrite Nat.add_0_r.
      repeat split; try congruence; try done; try (by etrans).
      - eapply checkpoints_mono; [done|]. by apply prefix_length.
      - eapply checkpoints_mono; [done|]. by apply prefix_length. }
    destruct o as [t|t a|]; cbn.
    - eexists. split; [reflexivity|]. split; [|cbn; lia].
      apply Hkeep; cbn; try done. by apply prefix_app_r.
    - destruct a as [a|]; cbn.
      + eexists. split; [reflexivity|]. split; [|cbn; lia].
        apply Hkeep; cbn; try done; by apply prefix_app_r.
      + eexists. split; [reflexivity|]. split; [|cbn; lia].
        apply Hkeep; cbn; try done. by apply prefix_app_r.
    - destruct (push_returns s)
        as (? & ? & s1 & _ & E & G1 & G2 & G3 & G4 & G5 & _ & G7 & _).
      exists s1. split; [done|]. split; [|lia].
      eexists (M1 ++ [_]), (M2 ++ [_]), (M3 ++ [_]).
      rewrite G3, G4, G5, E1, E2, E3, G1, G2. unfold push_back.
      rewrite <- !app_assoc, !length_app; cbn.
      repeat split; try lia; try done.
      + exact (checkpoints_push (length F :: M1) _ Hcf).
      + exact (checkpoints_push (length A :: M2) _ Hca). }
  destruct (IH _ s1 Hab1) as (s' & E & Hab' & Hn').
  exists s'. cbn [run_ops]. rewrite (bind_run _ _ _ _ _ E1).
  split; [done|].
  replace (k + pushes (o :: ops))
    with (k + match o with Push => 1 | _ => 0 end + pushes ops)
    by (destruct o; cbn; lia).
  split; [done|]. rewrite Hn', Hn1. destruct o; cbn; lia.
Qed.

(** C1 (amended): in every state, after [push()], any asserts and further
    pushes, and a [pop(k)] for the [k] pushes made, the formula sequence,
    the assumption sequence, the depth and the three checkpoint vectors
    are those from before the first push, and the frontier is the one
    that first push recorded, which is the frontier its own
    [internalize_formulas()] left: the formula count at that push when
    that call answered [l_true], the frontier from before the push when
    it answered [l_undef]; the two agree when nothing was left to
    translate, and [l_false] is never the answer. *)
Theorem push_pop_restores s0 ops :
  ∃ r t s1 s2 s3,
    internalize_formulas s0 = Ok (r, t) ∧
    push s0 = Ok ((), s1) ∧ run_ops ops s1 = Ok ((), s2) ∧
    pop (S (pushes ops)) s2 = Ok ((), s3) ∧
    m_fmls s3 = m_fmls s0 ∧ m_asmsf s3 = m_asmsf s0 ∧
    m_num_scopes s3 = m_num_scopes s0 ∧
    m_fmls_lim s3 = m_fmls_lim s0 ∧ m_asms_lim s3 = m_asms_lim s0 ∧
    m_fmls_head_lim s3 = m_fmls_head_lim s0 ∧
    m_fmls_head s3 = m_fmls_head s1 ∧ m_fmls_head s1 = m_fmls_head t ∧
    match r with
    | l_true => m_fmls_head s3 = length (m_fmls s0)
    | l_undef =>
        m_fmls_head s3 = m_fmls_head s0 ∧
        m_fmls_head s0 ≠ length (m_fmls s0)
    | l_false => False
    end ∧
    (m_fmls_head s0 = length (m_fmls s0) →
     r = l_true ∧ m_fmls_head s3 = m_fmls_head s0).
Proof.
  destruct (push_returns s0)
    as (r & t & s1 & Et & E1 & G1 & G2 & G3 & G4 & G5 & G6 & G7 & _).
  assert (above (m_fmls s0) (m_asmsf s0) (m_fmls_head t)
                (m_fmls_lim s0) (m_asms_lim s0) (m_fmls_head_lim s0) 0 s1)
    as Hab.
  { exists [], [], []. rewrite G1, G2, G3, G4, G5. unfold push_back.
    rewrite !app_nil_r.
    repeat split; try done; by apply (checkpoints_push []), checkpoints_nil. }
  destruct (above_run_ops _ _ _ _ _ _ ops 0 s1 Hab) as (s2 & E2 & Hab2 & Hn2).
  cbn in Hab2.
  exists r, t, s1, s2. unfold pop. unfold gets. unfold bind at 1.
  assert ((m_num_scopes s2 <? S (pushes ops)) = false) as ->
    by (apply Nat.ltb_ge; lia).
  unfold modify, bind; cbn [fst snd].
  match goal with |- context [pop_loop _ ?st] =>
    destruct (above_pop_loop _ _ _ _ _ _ _ st Hab2)
      as (s3 & E3 & R1 & R2 & R3 & R4 & R5 & R6 & R7)
  end.
  exists s3. rewrite E3. cbn in R7.
  destruct (internalize_formulas_returns s0)
    as (r' & t' & Et' & _ & _ & _ & _ & _ & _ & _ & _ & _ & Hh).
  rewrite Et in Et'. simplify_eq.
  repeat (split; [first [done | congruence | lia]|]).
  destruct Hh as [[-> Hh]|(-> & Hh & Hne)].
  - split; [congruence|]. intros Hc. split; [done|]. congruence.
  - split; [split; [congruence|done]|]. done.
Qed.

(** ** The frontier, again *)

(** C3 (amended): when the frontier covers every stored formula,
    [internalize_formulas()] returns [l_true] and changes nothing; so a
    call that follows one that returned [l_true], with no assert between
    them, is such a no-op.  After a call that returned [l_undef] the
    formulas and the frontier are where they were, with a suffix still
    to translate, and the next call runs the pipeline once more, on the
    goal made of that same suffix, and answers what that run answers,
    moving the frontier to the formula count unless the answer is
    [l_undef] again. *)
Theorem internalize_formulas_twice s :
  (m_fmls_head s = length (m_fmls s) →
   internalize_formulas s = Ok (l_true, s)) ∧
  (∀ s1, internalize_formulas s = Ok (l_true, s1) →
         internalize_formulas s1 = Ok (l_true, s1) ∧
         m_fmls_head s1 = length (m_fmls s1)) ∧
  (∀ s1, internalize_formulas s = Ok (l_undef, s1) →
     let g := foldl (λ g f, goal_assert f [] g) (mk_goal true false [])
                    (drop (m_fmls_head s) (m_fmls s)) in
     m_fmls s1 = m_fmls s ∧ m_fmls_head s1 = m_fmls_head s ∧
     m_fmls_head s1 ≠ length (m_fmls s1) ∧
     (∃ g' d', internalize_goal g ∅ s = Ok ((l_undef, g', d'), s1)) ∧
     ∃ r g' d' s2,
       internalize_goal g ∅ s1 = Ok ((r, g', d'), s2) ∧
       m_fmls s2 = m_fmls s ∧ m_fmls_head s2 = m_fmls_head s ∧
       internalize_formulas s1 =
         Ok (r, match r with
                | l_undef => s2
                | _ => set_m_fmls_head (length (m_fmls s2)) s2
                end)).
Proof.
  split; [apply internalize_formulas_covered|]. split.
  - intros s1 E.
    destruct (internalize_formulas_returns s)
      as (r & s1' & E' & Hf & _ & _ & _ & _ & _ & _ & _ & _ & Hh).
    rewrite E in E'. simplify_eq.
    destruct Hh as [[_ Hh]|[? _]]; [|done].
    assert (m_fmls_head s1' = length (m_fmls s1')) by congruence.
    split; [by apply internalize_formulas_covered|done].
  - intros s1 E g.
    assert (∀ s0 : inc_sat_solver,
              m_fmls_head s0 ≠ length (m_fmls s0) →
              ∃ r g' d' s2,
                internalize_goal
                  (foldl (λ g f, goal_assert f [] g) (mk_goal true false [])
                         (drop (m_fmls_head s0) (m_fmls s0))) ∅ s0 =
                  Ok ((r, g', d'), s2) ∧
                book s2 = book s0 ∧
                internalize_formulas s0 =
                  Ok (r, match r with
                         | l_undef => s2
                         | _ => set_m_fmls_head (length (m_fmls s2)) s2
                         end)) as Hrun.
    { intros s0 Hne.
      match goal with |- context [internalize_goal ?g0 ?d0 s0] =>
        destruct (internalize_goal_returns g0 d0 s0)
          as (r & g' & d' & s2 & Eg & Hr & Hbook) end.
      exists r, g', d', s2. split; [done|]. split; [done|].
      unfold internalize_formulas. unfold gets at 1. unfold bind at 1.
      cbn [id fst snd].
      destruct (Nat.eqb_spec (m_fmls_head s0) (length (m_fmls s0)));
        [done|].
      rewrite (bind_run _ _ _ _ _ Eg).
      destruct Hr as [-> | ->]; by cbn. }
    destruct (Nat.eq_dec (m_fmls_head s) (length (m_fmls s))) as [Hc|Hne].
    { rewrite (internalize_formulas_covered s Hc) in E. discriminate. }
    destruct (Hrun s Hne) as (r & g' & d' & s2 & Eg & Hbook & Ef).
    rewrite E in Ef. destruct r; try discriminate.
    injection Ef as ->.
    unfold book in Hbook.
    assert (m_fmls s2 = m_fmls s ∧ m_fmls_head s2 = m_fmls_head s)
      as [Hf Hh] by (by simplify_eq).
    split; [done|]. split; [done|]. split; [congruence|].
    split; [by exists g', d'|].
    destruct (Hrun s2) as (r & g2 & d2 & s3 & Eg2 & Hbook2 & Ef2);
      [congruence|].
    rewrite Hf, Hh in Eg2. exists r, g2, d2, s3. split; [done|].
    unfold book in Hbook2.
    assert (m_fmls s3 = m_fmls s2 ∧ m_fmls_head s3 = m_fmls_head s2)
      as [Hf3 Hh3] by (by simplify_eq).
    split; [congruence|]. split; [congruence|]. exact Ef2.
Qed.

(** ** Values of consequences *)

Lemma bits_value_bounds value i :
  (0 ≤ bits_value value i ≤
   2 ^ Z.of_nat (i + length value) - 2 ^ Z.of_nat i)%Z.
Proof.
  revert i. induction value as [|l value IH]; intros i; cbn.
  - rewrite Nat.add_0_r. lia.
  - specialize (IH (S i)).
    replace (i + S (length value)) with (S i + length value) by lia.
    assert (2 ^ Z.of_nat (S i) = 2 * 2 ^ Z.of_nat i)%Z as Hs.
    { rewrite Nat2Z.inj_succ, Z.pow_succ_r by lia. done. }
    assert (0 < 2 ^ Z.of_nat i)%Z by (apply Z.pow_pos_nonneg; lia).
    destruct (lit_sign l); lia.
Qed.

Lemma exps_ok_snoc exps b :
  exps_ok exps → back exps = Some b → exps_ok (push_back (2 * b)%Z exps).
Proof.
  intros Hok Hb i e. unfold push_back, back in *.
  apply last_Some in Hb as [exps' ->].
  destruct (decide (i < length (exps' ++ [b]))) as [Hi|Hi].
  - rewrite lookup_app_l by done. apply Hok.
  - rewrite lookup_app_r by lia.
    destruct (i - length (exps' ++ [b])) as [|k] eqn:Ek; [|done].
    cbn. intros [= <-].
    assert (i = S (length exps')) as ->
      by (rewrite length_app in *; cbn in *; lia).
    rewrite (Hok (length exps') b).
    + rewrite Nat2Z.inj_succ, Z.pow_succ_r by lia. done.
    + rewrite lookup_app_r by lia. by rewrite Nat.sub_diag.
Qed.

Lemma grow_exps_spec fuel n s :
  exps_ok (m_exps s) → m_exps s ≠ [] → n ≤ length (m_exps s) + fuel →
  ∃ exps,
    grow_exps fuel n s = Ok ((), set_m_exps exps s) ∧
    exps_ok exps ∧ n ≤ length exps.
Proof.
  revert s. induction fuel as [|fuel IH]; intros s Hok Hne Hn; cbn.
  { exists (m_exps s). destruct s. split; [done|]. split; [done|lia]. }
  unfold gets. unfold bind at 1.
  destruct (Nat.ltb_spec (length (m_exps s)) n) as [Hlt|Hge].
  - destruct (back (m_exps s)) as [b|] eqn:Hb;
      [|by apply last_None in Hb].
    unfold defined, ret, modify, bind.
    destruct (IH (set_m_exps (push_back (2 * b)%Z (m_exps s)) s))
      as (exps & E & Hok' & Hn').
    + cbn. by apply exps_ok_snoc.
    + cbn. unfold push_back. by destruct (m_exps s).
    + cbn. unfold push_back. rewrite length_app. cbn. lia.
    + exists exps. unfold bind in E. rewrite E. done.
  - exists (m_exps s). destruct s. done.
Qed.

Lemma sum_bits_spec value i r s :
  exps_ok (m_exps s) → i + length value ≤ length (m_exps s) →
  sum_bits value i r s = Ok ((r + bits_value value i)%Z, s).
Proof.
  revert i r. induction value as [|l value IH]; intros i r Hok Hlen; cbn.
  { unfold ret. by rewrite Z.add_0_r. }
  cbn in Hlen. destruct (lit_sign l); cbn.
  - rewrite IH by (done || lia). done.
  - unfold gets, defined. unfold bind at 1 2.
    destruct (lookup_lt_is_Some_2 (m_exps s) i) as [e He]; [lia|].
    rewrite He. unfold ret. rewrite IH by (done || lia).
    rewrite (Hok i e He). do 2 f_equal. lia.
Qed.

(** C4: for an uninterpreted bit-vector constant [v] of width [w] the
    value is the constraint [v = n], [n] the numeral of width [w] that
    sums [2^i] over the positions [i] whose literal is positive; for a
    boolean constant it is [v] for a positive literal and [not v] for a
    negated one. *)
Theorem internalize_value_spec value v s :
  exps_ok (m_exps s) → is_uninterp_const v = true →
  (get_sort v = BoolSort →
   ∀ l, value = [l] →
        internalize_value value v s =
          Ok ((if lit_sign l then mk_not v else v), s)) ∧
  (∀ w, get_sort v = BvSort w → length value = w →
        ∃ s',
          internalize_value value v s =
            Ok (mk_eq v (mk_numeral (bits_value value 0) w), s') ∧
          exps_ok (m_exps s') ∧
          (0 ≤ bits_value value 0 < 2 ^ Z.of_nat w)%Z).
Proof.
  intros Hok Hconst. unfold internalize_value. rewrite Hconst. cbn.
  split.
  - intros Hsort l ->. unfold is_bool. rewrite Hsort. done.
  - intros w Hsort Hlen. unfold is_bool. rewrite Hsort. cbn.
    set (s1 := if empty (m_exps s)
               then set_m_exps (push_back 1%Z (m_exps s)) s else s).
    assert (exps_ok (m_exps s1) ∧ m_exps s1 ≠ []) as [Hok1 Hne1].
    { subst s1. destruct (m_exps s) eqn:Ee; cbn; [|by rewrite Ee].
      split; [|done]. intros [|i] e; [|done]. by intros [= <-]. }
    destruct (grow_exps_spec (length value) (length value) s1)
      as (exps & E & Hok2 & Hlen2); [done|done|lia|].
    exists (set_m_exps exps s1).
    rewrite (bind_run _ _ s () s1) by (subst s1; by destruct (m_exps s)).
    rewrite (bind_run _ _ _ _ _ E).
    rewrite (bind_run _ _ _ (0 + bits_value value 0)%Z (set_m_exps exps s1))
      by (apply sum_bits_spec; cbn; done || lia).
    unfold ret. rewrite Hlen. split; [done|]. cbn.
    split; [done|].
    pose proof (bits_value_bounds value 0) as Hb. cbn in Hb. rewrite Hlen in Hb.
    lia.
Qed.

(** ** Translation *)

Lemma translate_fmls_loop (tr : expr → expr) l r :
  let r' := foldl (λ r f, set_m_fmls (push_back (tr f) (m_fmls r)) r) r l in
  m_fmls r' = m_fmls r ++ (tr <$> l) ∧ m_asmsf r' = m_asmsf r ∧
  m_num_scopes r' = m_num_scopes r ∧ m_fmls_head r' = m_fmls_head r.
Proof.
  revert r. induction l as [|f l IH]; intros r; cbn.
  { by rewrite app_nil_r. }
  destruct (IH (set_m_fmls (push_back (tr f) (m_fmls r)) r))
    as (-> & -> & -> & ->).
  cbn. unfold push_back. by rewrite <- app_assoc.
Qed.

Lemma translate_asmsf_loop (tr : expr → expr) l r :
  let r' := foldl (λ r f, set_m_asmsf (push_back (tr f) (m_asmsf r)) r) r l in
  m_asmsf r' = m_asmsf r ++ (tr <$> l) ∧ m_fmls r' = m_fmls r ∧
  m_num_scopes r' = m_num_scopes r ∧ m_fmls_head r' = m_fmls_head r.
Proof.
  revert r. induction l as [|f l IH]; intros r; cbn.
  { by rewrite app_nil_r. }
  destruct (IH (set_m_asmsf (push_back (tr f) (m_asmsf r)) r))
    as (-> & -> & -> & ->).
  cbn. unfold push_back. by rewrite <- app_assoc.
Qed.

(** C9: at a nonzero scope depth [translate] throws and yields no solver;
    at depth zero it returns a fresh solver at depth zero whose formula
    and assumption sequences are the translations of the original's, in
    order, and leaves the original as it was. *)
Theorem translate_spec (tr : expr → expr) p s :
  (0 < m_num_scopes s →
   translate tr p s =
     Err (default_exception
            "Cannot translate sat solver at non-base level")) ∧
  (m_num_scopes s = 0 →
   ∃ r, translate tr p s = Ok (r, s) ∧
        m_fmls r = tr <$> m_fmls s ∧ m_asmsf r = tr <$> m_asmsf s ∧
        m_num_scopes r = 0 ∧ m_fmls_head r = 0).
Proof.
  unfold translate, gets, throw, ret, bind. split.
  - intros H. apply Nat.ltb_lt in H. by rewrite H.
  - intros H. rewrite H. cbn. eexists. split; [done|].
    match goal with |- context [foldl ?f (foldl ?g ?r0 ?l1) ?l2] =>
      destruct (translate_asmsf_loop tr l2 (foldl g r0 l1))
        as (-> & -> & -> & ->);
      destruct (translate_fmls_loop tr l1 r0) as (-> & -> & -> & ->)
    end.
    done.
Qed.

(** ** Mutexes *)

Lemma collect_literals_indexed map vars acc :
  (∀ l, l ∈ acc.1 → is_Some (acc.2 !! lit_index l)) →
  ∀ l, l ∈ (foldl (collect_literal map) acc vars).1 →
       is_Some ((foldl (collect_literal map) acc vars).2 !! lit_index l).
Proof.
  revert acc. induction vars as [|var vars IH]; intros acc Hacc; [done|].
  cbn. apply IH. unfold collect_literal.
  destruct (is_not var) as [neg e].
  destruct (negb _); [|done]. cbn. unfold push_back.
  intros l [Hl|Hl%list_elem_of_singleton]%elem_of_app.
  - destruct (decide (lit_index (mk_literal (to_bool_var map e) neg)
                      = lit_index l)) as [->|Hne].
    + rewrite lookup_insert_eq. eauto.
    + rewrite lookup_insert_ne by done. auto.
  - subst l. rewrite lookup_insert_eq. eauto.
Qed.

Lemma map_mutex_returns (lit2var : gmap N expr) ls_mutex mutex s :
  (∀ l, l ∈ ls_mutex → is_Some (lit2var !! lit_index l)) →
  ∃ out, map_mutex lit2var ls_mutex mutex s = Ok (out, s).
Proof.
  revert mutex. induction ls_mutex as [|l ls IH]; intros mutex Hin; cbn.
  { by eexists. }
  destruct (Hin l) as [e He]; [apply list_elem_of_here|].
  unfold bind, defined. rewrite He. cbn.
  apply IH. intros l' Hl'. apply Hin. by apply list_elem_of_further.
Qed.

Lemma map_mutexes_returns (lit2var : gmap N expr) ls_mutexes mutexes s :
  (∀ group l, group ∈ ls_mutexes → l ∈ group →
              is_Some (lit2var !! lit_index l)) →
  ∃ out, map_mutexes lit2var ls_mutexes mutexes s = Ok (out, s).
Proof.
  revert mutexes. induction ls_mutexes as [|g gs IH]; intros mutexes Hin; cbn.
  { by eexists. }
  destruct (map_mutex_returns lit2var g [] s) as [out E].
  { intros l Hl. eapply Hin; [apply list_elem_of_here|done]. }
  rewrite (bind_run _ _ _ _ _ E).
  apply IH. intros g' l Hg' Hl. eapply Hin; [|done].
  by apply list_elem_of_further.
Qed.

(** C10: [find_mutexes] has no answer but [l_true]; and when the engine
    puts in its groups only literals it was asked about, [find_mutexes]
    does return, for every input vector and every state, however many
    atoms without a boolean variable it has dropped. *)
Theorem find_mutexes_l_true vars mutexes s :
  (∀ r out s', find_mutexes vars mutexes s = Ok ((r, out), s') → r = l_true) ∧
  (mutexes_within_input →
   ∃ out s', find_mutexes vars mutexes s = Ok ((l_true, out), s')).
Proof.
  split.
  - intros r out s' H. unfold find_mutexes in H.
    apply bind_Ok in H as (s0 & ? & [= <- <-] & H).
    destruct (collect_literals (m_map s) vars) as [ls lit2var].
    destruct (sat_find_mutexes ls (m_solver s)) as [groups solver].
    apply bind_Ok in H as (? & ? & _ & H).
    apply bind_Ok in H as (? & ? & _ & H).
    unfold ret in H. by simplify_eq.
  - intros Hin. unfold find_mutexes.
    rewrite (bind_run _ _ s s s) by done.
    destruct (collect_literals (m_map s) vars) as [ls lit2var] eqn:Ec.
    destruct (sat_find_mutexes ls (m_solver s)) as [groups solver] eqn:Em.
    destruct (map_mutexes_returns lit2var groups mutexes
                (set_m_solver solver s)) as [out E].
    { intros group l Hg Hl.
      pose proof (collect_literals_indexed (m_map s) vars ([], ∅)) as Hidx.
      unfold collect_literals in Ec. rewrite Ec in Hidx. cbn in Hidx.
      apply Hidx; [by intros ? ?%elem_of_nil|]. eapply Hin; eauto. }
    exists out, (set_m_solver solver s).
    rewrite (bind_run _ _ s () (set_m_solver solver s)) by done.
    by rewrite (bind_run _ _ _ _ _ E).
Qed.

(** ** Assumption literals *)

Lemma extract_standing_spec (d : dep2asm_t) asmsf s :
  extract_standing d asmsf s =
    Ok ((), set_m_asms (m_asms s ++ omap (d !!.) asmsf) s).
Proof.
  revert s. induction asmsf as [|a asmsf IH]; intros s; cbn.
  { rewrite app_nil_r. by destruct s. }
  unfold bind. destruct (d !! a) as [lit|] eqn:Ea; unfold modify, ret.
  - rewrite IH. cbn. unfold push_back. by rewrite <- app_assoc.
  - rewrite IH. done.
Qed.

Lemma extract_supplied_spec (d : dep2asm_t) asms i j s :
  j ≤ i →
  m_weights s = [] ∨ i + length asms ≤ length (m_weights s) →
  ∃ ws,
    extract_supplied d asms i j s =
      Ok ((), set_m_weights ws
                (set_m_asms (m_asms s ++ omap (d !!.) asms) s)) ∧
    length ws = length (m_weights s) ∧
    (i + length asms ≤ length (m_weights s) →
     take j ws = take j (m_weights s) ∧
     take (length (omap (d !!.) asms)) (drop j ws) =
       kept_weights d asms (drop i (m_weights s))).
Proof.
  revert i j s. induction asms as [|a asms IH]; intros i j s Hji Hws.
  { exists (m_weights s). cbn. rewrite app_nil_r. destruct s. done. }
  cbn [extract_supplied omap list_omap]. cbn in Hws.
  destruct (d !! a) as [lit|] eqn:Ea.
  - (* the term is kept *)
    rewrite (bind_run _ _ s ()
               (set_m_asms (push_back lit (m_asms s)) s)) by done.
    rewrite (bind_run _ _ _ (m_weights s)
               (set_m_asms (push_back lit (m_asms s)) s)) by done.
    destruct (m_weights s) as [|w0 ws0] eqn:Ews.
    + (* no weights *)
      rewrite andb_false_r.
      rewrite (bind_run _ _ _ ()
                 (set_m_asms (push_back lit (m_asms s)) s)) by done.
      destruct (IH (S i) (S j) (set_m_asms (push_back lit (m_asms s)) s))
        as (ws & E & Hlen & _); [lia|left; by cbn|].
      exists ws. rewrite E. cbn. unfold push_back.
      rewrite <- app_assoc. cbn in Hlen. rewrite Ews in Hlen.
      split; [done|]. split; [done|]. intros H. exfalso. clear -H. cbn in H. lia.
    + (* weights are present *)
      assert (m_weights s ≠ []) as Hne by (by rewrite Ews).
      rewrite <- Ews in *. clear w0 ws0 Ews.
      destruct Hws as [Hws|Hws]; [done|].
      destruct (lookup_lt_is_Some_2 (m_weights s) i) as [w Hw]; [lia|].
      set (s1 := set_m_asms (push_back lit (m_asms s)) s).
      set (s2 := set_m_weights (<[j := w]> (m_weights s)) s1).
      assert ((if negb (i =? j) && negb (empty (m_weights s))
               then bind (defined "m_weights[i]" (m_weights s !! i))
                      (λ w, modify (set_m_weights (<[j := w]> (m_weights s))))
               else ret ()) s1 = Ok ((), s2)) as Estep.
      { destruct (Nat.eqb_spec i j) as [->|Hij]; cbn.
        - subst s2. rewrite list_insert_id by done.
          unfold ret. subst s1. by destruct s.
        - destruct (m_weights s) eqn:Ews'; [done|]. cbn.
          unfold bind, defined. rewrite Hw. done. }
      rewrite (bind_run _ _ _ _ _ Estep).
      destruct (IH (S i) (S j) s2) as (ws & E & Hlen & Hkeep);
        [lia|right; subst s2 s1; cbn; rewrite length_insert; lia|].
      subst s2 s1. cbn in E, Hlen, Hkeep. rewrite length_insert in Hlen, Hkeep.
      exists ws. rewrite E. unfold push_back. rewrite <- app_assoc.
      split; [done|]. split; [done|]. intros _.
      destruct Hkeep as [Htake Hkept]; [lia|].
      assert (j < length (m_weights s)) as Hj by lia.
      assert (ws !! j = Some w) as Hwj.
      { rewrite <- (lookup_take_lt ws (S j) j) by lia. rewrite Htake.
        rewrite lookup_take_lt by lia. by apply list_lookup_insert_eq. }
      split.
      * rewrite <- (Nat.min_l j (S j)) by lia.
        rewrite <- !take_take, Htake, !take_take, Nat.min_l by lia.
        by apply take_insert_ge.
      * rewrite (drop_S _ _ _ Hwj), (drop_S _ _ _ Hw). cbn.
        rewrite Ea. f_equal. rewrite Hkept.
        by rewrite drop_insert_lt by lia.
  - (* the term was dropped *)
    destruct (IH (S i) j s) as (ws & E & Hlen & Hkeep); [lia| |].
    { destruct Hws; [by left|right; lia]. }
    exists ws. split; [done|]. split; [done|]. intros Hi.
    cbn [length] in Hi.
    destruct Hkeep as [Htake Hkept]; [lia|]. split; [done|].
    destruct (lookup_lt_is_Some_2 (m_weights s) i) as [w Hw]; [lia|].
    rewrite (drop_S _ _ _ Hw). cbn. by rewrite Ea.
Qed.

(** What [extract_assumptions] leaves: the literals of the call-supplied
    terms and then of the standing assumptions, each found in [dep2asm],
    in order, terms without entry skipped; the weights of the supplied
    terms that stayed, moved to the front in the same order. *)
Lemma extract_assumptions_spec asms (d : dep2asm_t) s :
  m_weights s = [] ∨ length asms ≤ length (m_weights s) →
  ∃ ws,
    extract_assumptions asms d s =
      Ok ((), set_m_weights ws
                (set_m_asms (omap (d !!.) (asms ++ m_asmsf s)) s)) ∧
    length ws = length (m_weights s) ∧
    (length asms ≤ length (m_weights s) →
     take (length (omap (d !!.) asms)) ws = kept_weights d asms (m_weights s)).
Proof.
  intros Hws. unfold extract_assumptions.
  rewrite (bind_run _ _ s () (set_m_asms [] s)) by done.
  destruct (extract_supplied_spec d asms 0 0 (set_m_asms [] s))
    as (ws & E & Hlen & Hkeep); [done|done|].
  rewrite (bind_run _ _ _ _ _ E).
  rewrite (bind_run _ _ _ (m_asmsf s) _) by done.
  rewrite extract_standing_spec. cbn. rewrite omap_app.
  exists ws. split; [done|]. split; [done|]. intros H.
  destruct Hkeep as [_ Hk]; [done|]. done.
Qed.

Lemma goal_leaves_asserted l g :
  goal_leaves (foldl (λ g a, goal_assert a [a] g) g l) = goal_leaves g ++ l.
Proof.
  revert g. induction l as [|a l IH]; intros g; cbn.
  { by rewrite app_nil_r. }
  rewrite IH. unfold goal_leaves, goal_assert. cbn.
  rewrite fmap_app, concat_app. cbn. by rewrite <- app_assoc.
Qed.

(** [internalize_assumptions] on a fresh dependency map: it returns, with
    [l_true] or [l_undef]; on [l_true] the literal list and the weights
    are as [extract_assumptions] leaves them; and the map it hands back
    has entries only for terms it was given, when the pipeline keeps to
    [deps_within_leaves]. *)
Lemma internalize_assumptions_spec asms s :
  m_weights s = [] ∨ length asms ≤ length (m_weights s) →
  ∃ r (d : dep2asm_t) s',
    internalize_assumptions asms ∅ s = Ok ((r, d), s') ∧
    (r = l_true ∨ r = l_undef) ∧
    m_asmsf s' = m_asmsf s ∧ m_core s' = m_core s ∧
    m_fmls s' = m_fmls s ∧ m_model s' = m_model s ∧
    (r = l_true →
     m_asms s' = omap (d !!.) (asms ++ m_asmsf s) ∧
     length (m_weights s') = length (m_weights s) ∧
     (length asms ≤ length (m_weights s) →
      take (length (omap (d !!.) asms)) (m_weights s') =
        kept_weights d asms (m_weights s))) ∧
    (deps_within_leaves →
     ∀ e, is_Some (d !! e) → e ∈ asms ∨ e ∈ m_asmsf s).
Proof.
  intros Hws. unfold internalize_assumptions, get_num_assumptions.
  rewrite (bind_run _ _ s (length (m_asmsf s)) s) by done.
  destruct ((length asms =? 0) && (length (m_asmsf s) =? 0)) eqn:Ez.
  { apply andb_true_iff in Ez as [Ha%Nat.eqb_eq Hf%Nat.eqb_eq].
    apply nil_length_inv in Ha, Hf. subst asms.
    exists l_true, ∅, (set_m_asms [] s). cbn. rewrite Hf.
    repeat split; auto. intros _ e [? He]. by rewrite lookup_empty in He. }
  rewrite (bind_run _ _ s (m_asmsf s) s) by done.
  set (g := foldl _ (foldl _ _ asms) (m_asmsf s)).
  destruct (internalize_goal_returns g ∅ s)
    as (r & g' & d & s1 & E & Hr & Hbook).
  rewrite (bind_run _ _ _ _ _ E). cbn [fst snd].
  unfold book in Hbook. simplify_eq.
  assert (deps_within_leaves →
          ∀ e, is_Some (d !! e) → e ∈ asms ∨ e ∈ m_asmsf s) as Hdom.
  { intros Hdeps e He.
    destruct (internalize_goal_leaves _ _ _ _ _ _ _ Hdeps E e He)
      as [[? Hx]|Hin]; [by rewrite lookup_empty in Hx|].
    subst g. rewrite !goal_leaves_asserted in Hin. cbn in Hin.
    by apply elem_of_app in Hin. }
  destruct Hr as [-> | ->]; cbn [lbool_eqb].
  - destruct (extract_assumptions_spec asms d s1) as (ws & Ex & Hlen & Hk);
      [congruence|].
    rewrite (bind_run _ _ _ _ _ Ex). unfold ret.
    eexists _, _, _. split; [done|]. cbn.
    repeat split; auto; try congruence.
    intros Hl. rewrite Hk by congruence. congruence.
  - rewrite (bind_run _ _ s1 () s1) by done. unfold ret.
    eexists _, _, _. split; [done|].
    repeat split; auto; done.
Qed.

(** ** Unsat cores *)

Lemma extract_asm2dep_fold entries (acc : gmap N expr) i e :
  foldl (λ acc (kv : expr * literal), <[lit_index kv.2 := kv.1]> acc)
        acc entries !! i = Some e →
  acc !! i = Some e ∨ ∃ l, (e, l) ∈ entries ∧ lit_index l = i.
Proof.
  revert acc. induction entries as [|[k v] entries IH]; intros acc; cbn.
  { auto. }
  intros [H|(l & Hl & <-)]%IH.
  - destruct (decide (lit_index v = i)) as [<-|Hne].
    + rewrite lookup_insert_eq in H. simplify_eq.
      right. exists v. split; [apply list_elem_of_here|done].
    + rewrite lookup_insert_ne in H by done. auto.
  - right. exists l. split; [by apply list_elem_of_further|done].
Qed.

Lemma extract_asm2dep_fold_is_Some entries (acc : gmap N expr) i :
  is_Some (acc !! i) ∨ (∃ e l, (e, l) ∈ entries ∧ lit_index l = i) →
  is_Some (foldl (λ acc (kv : expr * literal),
                    <[lit_index kv.2 := kv.1]> acc) acc entries !! i).
Proof.
  revert acc. induction entries as [|[k v] entries IH]; intros acc; cbn.
  { intros [?|(? & ? & []%elem_of_nil & _)]. done. }
  intros [H|(e & l & Hin & <-)]; apply IH.
  - left. destruct (decide (lit_index v = i)) as [<-|Hne].
    + rewrite lookup_insert_eq. eauto.
    + by rewrite lookup_insert_ne.
  - apply elem_of_cons in Hin as [[= <- <-]|Hin].
    + left. rewrite lookup_insert_eq. eauto.
    + right. eauto.
Qed.

(** The inverted map sends the index of a literal to a term that
    [dep2asm] maps to that literal, and has an entry for every literal in
    the range of [dep2asm]. *)
Lemma extract_asm2dep_lookup (d : dep2asm_t) l e :
  extract_asm2dep d ∅ !! lit_index l = Some e → d !! e = Some l.
Proof.
  unfold extract_asm2dep.
  intros [H|(l' & Hin & Hidx)]%extract_asm2dep_fold.
  - by rewrite lookup_empty in H.
  - apply lit_index_inj in Hidx as ->. by apply elem_of_map_to_list.
Qed.

Lemma extract_asm2dep_is_Some (d : dep2asm_t) l e :
  d !! e = Some l → is_Some (extract_asm2dep d ∅ !! lit_index l).
Proof.
  intros H. apply extract_asm2dep_fold_is_Some. right.
  exists e, l. split; [by apply elem_of_map_to_list|done].
Qed.

(** The loop of [extract_core] is a [mapM] of the lookups: it fails its
    [VERIFY] exactly when one of them fails. *)
Lemma extract_core_loop_spec (asm2dep : gmap N expr) core s :
  extract_core_loop asm2dep core s =
    match mapM (λ l, asm2dep !! lit_index l) core with
    | Some es => Ok ((), set_m_core (m_core s ++ es) s)
    | None => Err verify_failed
    end.
Proof.
  revert s. induction core as [|l core IH]; intros s; cbn.
  { rewrite app_nil_r. by destruct s. }
  destruct (asm2dep !! lit_index l) as [e|]; cbn; [|done].
  unfold bind, modify. rewrite IH.
  destruct (mapM _ core) as [es|]; cbn; [|done].
  unfold push_back. by rewrite <- app_assoc.
Qed.

Lemma extract_core_spec (d : dep2asm_t) s :
  extract_core d s =
    match mapM (λ l, extract_asm2dep d ∅ !! lit_index l)
               (sat_get_core (m_solver s)) with
    | Some es => Ok ((), set_m_core es s)
    | None => Err verify_failed
    end.
Proof.
  unfold extract_core.
  rewrite (bind_run _ _ s (sat_get_core (m_solver s)) s) by done.
  rewrite (bind_run _ _ s () (set_m_core [] s)) by done.
  rewrite extract_core_loop_spec. by destruct (mapM _ _).
Qed.

Lemma check_assumptions_cases (d : dep2asm_t) s :
  check_assumptions d s = Ok ((), s) ∨
  check_assumptions d s = Err (default_exception "bad state").
Proof.
  unfold check_assumptions.
  rewrite (bind_run _ _ s (sat_get_model (m_solver s)) s) by done.
  induction (map_to_list d) as [|[e lit] entries IH]; cbn; [by left|].
  destruct (lbool_eqb _ _); cbn; [done|by right].
Qed.



(** ** Counting assumption literals against the dependency map *)

Lemma omap_lookup_ext (d d' : dep2asm_t) (l : list expr) :
  (∀ e, e ∈ l → d' !! e = d !! e) → omap (d' !!.) l = omap (d !!.) l.
Proof.
  induction l as [|a l IH]; intros H; cbn; [done|].
  rewrite (H a) by apply list_elem_of_here.
  rewrite IH; [done|]. intros e He. apply H. by apply list_elem_of_further.
Qed.

Lemma omap_lookup_delete_le (d : dep2asm_t) a (l : list expr) :
  length (omap (delete a d !!.) l) ≤ length (omap (d !!.) l).
Proof.
  induction l as [|b l IH]; cbn; [done|].
  destruct (decide (a = b)) as [->|Hne].
  - rewrite lookup_delete_eq. destruct (d !! b); cbn; lia.
  - rewrite lookup_delete_ne by done. destruct (d !! b); cbn; lia.
Qed.

Lemma dep2asm_size_delete (d : dep2asm_t) a v :
  d !! a = Some v → size d = S (size (delete a d)).
Proof.
  intros H. rewrite <- (insert_id d a v H) at 1.
  rewrite <- insert_delete_eq.
  apply map_size_insert_None, lookup_delete_eq.
Qed.

(** A map with entries only for terms of [l] has at most as many entries
    as lookups of [l] succeed, and exactly as many when [l] repeats no
    term. *)
Lemma dep2asm_size_le (d : dep2asm_t) (l : list expr) :
  (∀ e, is_Some (d !! e) → e ∈ l) → size d ≤ length (omap (d !!.) l).
Proof.
  revert d. induction l as [|a l IH]; intros d Hdom; cbn.
  { assert (d = ∅) as ->; [|by rewrite map_size_empty].
    apply map_empty. intros e. apply eq_None_not_Some.
    by intros ?%Hdom%elem_of_nil. }
  assert (size (delete a d) ≤ length (omap (d !!.) l)) as Hle.
  { etrans; [apply IH|apply omap_lookup_delete_le].
    intros e [Hne He]%lookup_delete_is_Some.
    apply Hdom, elem_of_cons in He as [->|?]; done. }
  destruct (d !! a) as [v|] eqn:Ea; cbn.
  - rewrite (dep2asm_size_delete d a v Ea). lia.
  - rewrite <- (map_size_delete_None a d Ea). done.
Qed.

Lemma dep2asm_size_NoDup (d : dep2asm_t) (l : list expr) :
  NoDup l → (∀ e, is_Some (d !! e) → e ∈ l) →
  length (omap (d !!.) l) = size d.
Proof.
  intros Hnd. revert d. induction Hnd as [|a l Ha Hnd IH]; intros d Hdom; cbn.
  { assert (d = ∅) as ->; [|by rewrite map_size_empty].
    apply map_empty. intros e. apply eq_None_not_Some.
    by intros ?%Hdom%elem_of_nil. }
  assert (length (omap (d !!.) l) = size (delete a d)) as Hl.
  { rewrite <- (omap_lookup_ext d (delete a d)).
    - apply IH. intros e [Hne He]%lookup_delete_is_Some.
      apply Hdom, elem_of_cons in He as [->|?]; done.
    - intros e He. apply lookup_delete_ne. by intros ->. }
  destruct (d !! a) as [v|] eqn:Ea; cbn.
  - rewrite (dep2asm_size_delete d a v Ea). lia.
  - rewrite Hl. by apply map_size_delete_None.
Qed.

(** A term given twice and kept makes the literal list longer than the
    map: the count the source asserts at the end of
    [extract_assumptions] then fails. *)
Lemma dep2asm_size_duplicate (d : dep2asm_t) (l1 : list expr) a l2 l3 :
  is_Some (d !! a) →
  (∀ e, is_Some (d !! e) → e ∈ l1 ++ a :: l2 ++ a :: l3) →
  size d < length (omap (d !!.) (l1 ++ a :: l2 ++ a :: l3)).
Proof.
  intros [v Ha] Hdom.
  assert (size d ≤ length (omap (d !!.) (l1 ++ l2 ++ a :: l3))) as Hle.
  { apply dep2asm_size_le. intros e He. apply Hdom in He.
    rewrite !elem_of_app, !elem_of_cons, !elem_of_app, !elem_of_cons in *.
    tauto. }
  rewrite omap_app, length_app in *. cbn. rewrite Ha. cbn. lia.
Qed.

(** ** Further properties *)

(** X1: the class invariant (in each of the three checkpoint vectors one
    entry per scope, ascending, none beyond the sequence it measures)
    holds for a new solver, and both forms of [assert_expr], [push()] and
    [pop(n)] return and keep it; [push()] deepens the scope by one and
    [pop(n)] lowers it by [n], stopping at zero. *)
Theorem invariant_kept :
  (∀ p, wf (inc_sat_solver_new p)) ∧
  ∀ s, wf s →
    (∀ t, ∃ s', assert_expr t s = Ok ((), s') ∧ wf s' ∧
                m_num_scopes s' = m_num_scopes s) ∧
    (∀ t a, ∃ s', assert_expr2 t a s = Ok ((), s') ∧ wf s' ∧
                  m_num_scopes s' = m_num_scopes s) ∧
    (∃ s', push s = Ok ((), s') ∧ wf s' ∧
           m_num_scopes s' = S (m_num_scopes s)) ∧
    (∀ n, ∃ s', pop n s = Ok ((), s') ∧ wf s' ∧
                m_num_scopes s' = m_num_scopes s - n).
Proof.
  split; [apply wf_new|]. intros s Hwf.
  split; [|split; [|split]].
  - intros t. destruct (assert_expr_wf t s Hwf) as (s' & E & Hwf' & _).
    exists s'. split; [done|]. split; [done|].
    unfold assert_expr, modify in E. by simplify_eq.
  - intros t a. destruct (assert_expr2_wf t a s Hwf) as (s' & E & Hwf' & _).
    exists s'. split; [done|]. split; [done|].
    destruct a; unfold assert_expr2, assert_expr, modify, bind in E;
      by simplify_eq.
  - destruct (push_wf s Hwf) as (s' & E & Hwf').
    destruct (push_returns s) as (? & ? & s1 & _ & E' & F).
    rewrite E in E'. simplify_eq. exists s1.
    by destruct F as (_ & _ & _ & _ & _ & _ & ? & _).
  - intros n. destruct (pop_returns n s Hwf) as (s' & E & Hwf' & Hn & _).
    by exists s'.
Qed.

(** X2: [internalize_formulas()] always returns, with [l_true] or
    [l_undef] and never [l_false]; it leaves the formula and assumption
    sequences alone; on [l_true] the frontier is the formula count, on
    [l_undef] the frontier is where it was. *)
Theorem frontier_moves_on_success s :
  ∃ r s',
    internalize_formulas s = Ok (r, s') ∧
    m_fmls s' = m_fmls s ∧ m_asmsf s' = m_asmsf s ∧
    ((r = l_true ∧ m_fmls_head s' = length (m_fmls s')) ∨
     (r = l_undef ∧ m_fmls_head s' = m_fmls_head s)).
Proof.
  destruct (internalize_formulas_returns s)
    as (r & s' & E & Hf & Ha & _ & _ & _ & _ & _ & _ & _ & Hh).
  exists r, s'. rewrite Hf. repeat split; try done.
  destruct Hh as [[-> ?]|(-> & ? & _)]; auto.
Qed.

(** X3: after [internalize_assumptions] has returned [l_true] on a fresh
    dependency map, [m_asms] holds the literals of the call-supplied
    terms, in input order, and then those of the standing assumptions,
    in input order, each as the map gives it, terms without entry
    skipped; and the first entries of [m_weights] are the weights of the
    call-supplied terms that stayed, in the same order. *)
Theorem assumption_literals_in_order asms s :
  m_weights s = [] ∨ length asms ≤ length (m_weights s) →
  ∃ r (d : dep2asm_t) s',
    internalize_assumptions asms ∅ s = Ok ((r, d), s') ∧
    (r = l_true →
     m_asms s' = omap (d !!.) asms ++ omap (d !!.) (m_asmsf s) ∧
     (length asms ≤ length (m_weights s) →
      take (length (omap (d !!.) asms)) (m_weights s') =
        kept_weights d asms (m_weights s))).
Proof.
  intros Hws.
  destruct (internalize_assumptions_spec asms s Hws)
    as (r & d & s' & E & _ & _ & _ & _ & _ & Hasms & _).
  exists r, d, s'. split; [done|]. intros Hr.
  destruct (Hasms Hr) as (-> & _ & Hk). by rewrite omap_app.
Qed.

(** The literal list does not depend on the weights: whenever the first
    loop of [extract_assumptions] returns, it has appended the literals
    of the supplied terms and left the standing assumptions alone. *)
Lemma extract_supplied_asms (d : dep2asm_t) asms i j s s' :
  extract_supplied d asms i j s = Ok ((), s') →
  m_asms s' = m_asms s ++ omap (d !!.) asms ∧ m_asmsf s' = m_asmsf s.
Proof.
  revert i j s. induction asms as [|a asms IH]; intros i j s.
  { cbn. intros [= <-]. by rewrite app_nil_r. }
  cbn [extract_supplied omap list_omap].
  destruct (d !! a) as [lit|] eqn:Ea; [|apply IH].
  intros ([] & s1 & E1 & E)%bind_Ok.
  unfold modify in E1. injection E1 as <-.
  apply bind_Ok in E as (ws & s2 & E2 & E).
  unfold gets in E2. injection E2 as <- <-.
  apply bind_Ok in E as ([] & s3 & E3 & E).
  apply IH in E as [-> ->].
  assert (m_asms s3 = push_back lit (m_asms s) ∧ m_asmsf s3 = m_asmsf s)
    as [-> ->].
  { destruct (negb (i =? j) && negb (empty _)).
    - apply bind_Ok in E3 as (w & s4 & E4 & E3).
      unfold defined in E4. destruct (_ !! i); [|discriminate].
      injection E4 as <- <-. unfold modify in E3. by injection E3 as <-.
    - unfold ret in E3. by injection E3 as <-. }
  unfold push_back. by rewrite <- app_assoc.
Qed.

Lemma extract_assumptions_asms asms (d : dep2asm_t) s s' :
  extract_assumptions asms d s = Ok ((), s') →
  m_asms s' = omap (d !!.) (asms ++ m_asmsf s).
Proof.
  unfold extract_assumptions.
  rewrite (bind_run _ _ s () (set_m_asms [] s)) by done.
  intros ([] & s1 & E1 & E)%bind_Ok.
  apply extract_supplied_asms in E1 as [Ha Hf]. cbn in Ha, Hf.
  rewrite (bind_run _ _ s1 (m_asmsf s1) s1) in E by done.
  rewrite extract_standing_spec in E. injection E as <-. cbn.
  by rewrite Ha, Hf, omap_app.
Qed.

(** Whatever [m_weights] holds: after [l_true] the literal list is read
    off the map handed back, and that map names only terms it was
    given. *)
Lemma internalize_assumptions_asms asms s (d : dep2asm_t) s' :
  internalize_assumptions asms ∅ s = Ok ((l_true, d), s') →
  m_asms s' = omap (d !!.) (asms ++ m_asmsf s) ∧
  (deps_within_leaves →
   ∀ e, is_Some (d !! e) → e ∈ asms ∨ e ∈ m_asmsf s).
Proof.
  unfold internalize_assumptions, get_num_assumptions.
  rewrite (bind_run _ _ s (length (m_asmsf s)) s) by done.
  destruct ((length asms =? 0) && (length (m_asmsf s) =? 0)) eqn:Ez.
  { apply andb_true_iff in Ez as [Ha%Nat.eqb_eq Hf%Nat.eqb_eq].
    apply nil_length_inv in Ha, Hf. subst asms.
    unfold_monad. intros [= <- <-]. cbn. rewrite Hf.
    split; [done|]. intros _ e [? He]. by rewrite lookup_empty in He. }
  rewrite (bind_run _ _ s (m_asmsf s) s) by done.
  set (g := foldl _ (foldl _ _ asms) (m_asmsf s)).
  destruct (internalize_goal_returns g ∅ s)
    as (r & g' & d1 & s1 & E & Hr & Hbook).
  rewrite (bind_run _ _ _ _ _ E). cbn [fst snd].
  unfold book in Hbook.
  assert (m_asmsf s1 = m_asmsf s) as Hf by (by simplify_eq).
  assert (deps_within_leaves →
          ∀ e, is_Some (d1 !! e) → e ∈ asms ∨ e ∈ m_asmsf s) as Hdom.
  { intros Hdeps e He.
    destruct (internalize_goal_leaves _ _ _ _ _ _ _ Hdeps E e He)
      as [[? Hx]|Hin]; [by rewrite lookup_empty in Hx|].
    subst g. rewrite !goal_leaves_asserted in Hin. cbn in Hin.
    by apply elem_of_app in Hin. }
  destruct Hr as [-> | ->]; cbn [lbool_eqb].
  - intros ([] & s2 & Ex & Er)%bind_Ok.
    unfold ret in Er. injection Er as <- <-.
    apply extract_assumptions_asms in Ex. by rewrite Ex, Hf.
  - rewrite (bind_run _ _ s1 () s1) by done. unfold ret. discriminate.
Qed.

(** X4: when no term occurs twice among the call-supplied and standing
    assumptions and the pipeline records only dependency leaves it was
    given, the literal count equals the size of the dependency map,
    whatever [m_weights] holds. *)
Theorem assumption_count_without_repeats asms s (d : dep2asm_t) s' :
  deps_within_leaves →
  NoDup (asms ++ m_asmsf s) →
  internalize_assumptions asms ∅ s = Ok ((l_true, d), s') →
  length (m_asms s') = size d.
Proof.
  intros Hdeps Hnd E.
  apply internalize_assumptions_asms in E as [-> Hdom].
  apply dep2asm_size_NoDup; [done|].
  intros e He. apply elem_of_app. by apply Hdom.
Qed.

End Properties.

(** * Properties of the remaining functions *)

Section MoreProperties.
Context `{B : Backend} {V : Services B}.

Local Arguments Nat.ltb : simpl never.

Ltac unfold_monad := unfold bind, ret, gets, modify, throw, defined in *.

Ltac internalize_goal_cases :=
  unfold internalize_goal, init_preprocess, set_reason_unknown;
  unfold_monad; cbn;
  destruct (tactic_apply _ _ _) as [?|[[[[[[|? [|? ?]] ?] ?] ?] ?] ?]]; cbn;
  [| |destruct (goal2sat _ _ _ _ _) as [[[? ?] ?] [|? ?]]; cbn|].

(** ** More of what the pipeline leaves alone *)

(** [internalize_goal] never writes [m_optimize_model] or [m_mc0]; it
    writes [m_unknown] on one path only, the one that answers [l_undef]
    for interpreted atoms; after [l_true] there is a bit-blaster. *)
Lemma internalize_goal_more g d s r g' d' s' :
  internalize_goal g d s = Ok ((r, g', d'), s') →
  m_optimize_model s' = m_optimize_model s ∧ m_mc0 s' = m_mc0 s ∧
  (r = l_true → m_unknown s' = m_unknown s ∧ is_Some (m_bb_rewriter s')) ∧
  (m_unknown s' = m_unknown s ∨
   ∃ atoms, atoms ≠ [] ∧ r = l_undef ∧
     m_unknown s' =
       "interpreted atoms sent to SAT solver " +:+ pp_exprs atoms).
Proof.
  revert s'. internalize_goal_cases; intros ? [= <- <- <- <-]; cbn;
    (split; [done|]); (split; [done|]); (split; [try done; eauto|]);
    try (by left).
  right. eexists. split; [|split; reflexivity]. done.
Qed.

Lemma internalize_formulas_more s r s' :
  internalize_formulas s = Ok (r, s') →
  m_optimize_model s' = m_optimize_model s ∧ m_mc0 s' = m_mc0 s ∧
  m_params s' = m_params s ∧ m_asms s' = m_asms s ∧
  m_exps s' = m_exps s ∧
  (r = l_true →
   m_unknown s' = m_unknown s ∧
   (is_Some (m_bb_rewriter s) → is_Some (m_bb_rewriter s'))) ∧
  (m_unknown s' = m_unknown s ∨
   ∃ atoms, atoms ≠ [] ∧ r = l_undef ∧
     m_unknown s' =
       "interpreted atoms sent to SAT solver " +:+ pp_exprs atoms).
Proof.
  unfold internalize_formulas. unfold gets at 1. unfold bind at 1. cbn.
  destruct (Nat.eqb_spec (m_fmls_head s) (length (m_fmls s))) as [Hhead|Hhead].
  { unfold ret. intros [= <- <-]. repeat split; auto. }
  match goal with |- context [internalize_goal ?g ?d] =>
    destruct (internalize_goal_returns g d s)
      as (r1 & g' & d' & s1 & E & Hr & Hbook);
    pose proof (internalize_goal_more g d s _ _ _ _ E)
      as (Ho & Hmc & Ht & Hu)
  end.
  rewrite (bind_run _ _ _ _ _ E).
  unfold book in Hbook. simplify_eq. cbn.
  destruct Hr as [->| ->]; cbn; unfold_monad; cbn;
    intros [= <- <-]; cbn; repeat (split; [congruence|]).
  - destruct (Ht eq_refl) as [Hu1 Hbb]. split; [|by left]. auto.
  - exact Hu.
Qed.

Lemma internalize_assumptions_more asms s r (d : dep2asm_t) s' :
  m_weights s = [] ∨ length asms ≤ length (m_weights s) →
  internalize_assumptions asms ∅ s = Ok ((r, d), s') →
  m_optimize_model s' = m_optimize_model s ∧ m_mc0 s' = m_mc0 s ∧
  m_params s' = m_params s ∧ m_exps s' = m_exps s ∧
  m_fmls_head s' = m_fmls_head s ∧ m_num_scopes s' = m_num_scopes s ∧
  m_fmls_lim s' = m_fmls_lim s ∧ m_asms_lim s' = m_asms_lim s ∧
  m_fmls_head_lim s' = m_fmls_head_lim s ∧
  (r = l_true →
   m_unknown s' = m_unknown s ∧
   (is_Some (m_bb_rewriter s) → is_Some (m_bb_rewriter s'))) ∧
  (m_unknown s' = m_unknown s ∨
   ∃ atoms, atoms ≠ [] ∧ r = l_undef ∧
     m_unknown s' =
       "interpreted atoms sent to SAT solver " +:+ pp_exprs atoms).
Proof.
  intros Hws. unfold internalize_assumptions, get_num_assumptions.
  rewrite (bind_run _ _ s (length (m_asmsf s)) s) by done.
  destruct ((length asms =? 0) && (length (m_asmsf s) =? 0)) eqn:Ez.
  { unfold_monad. intros [= <- <- <-]. cbn. repeat split; auto. }
  rewrite (bind_run _ _ s (m_asmsf s) s) by done.
  set (g := foldl _ (foldl _ _ asms) (m_asmsf s)).
  destruct (internalize_goal_returns g ∅ s)
    as (r1 & g' & d1 & s1 & E & Hr & Hbook).
  pose proof (internalize_goal_more g ∅ s _ _ _ _ E) as (Ho & Hmc & Ht & Hu).
  rewrite (bind_run _ _ _ _ _ E). cbn [fst snd].
  unfold book in Hbook. simplify_eq.
  destruct Hr as [-> | ->]; cbn [lbool_eqb].
  - destruct (extract_assumptions_spec asms d1 s1) as (ws & Ex & Hlen & Hk);
      [congruence|].
    rewrite (bind_run _ _ _ _ _ Ex). unfold ret.
    intros [= <- <- <-]. cbn. repeat (split; [congruence|]).
    destruct (Ht eq_refl) as [Hu1 Hbb]. split; [|by left]. auto.
  - rewrite (bind_run _ _ s1 () s1) by done. unfold ret.
    intros [= <- <- <-]. repeat (split; [congruence|]).
    exact Hu.
Qed.

(** ** The stages of a check *)

Lemma check_sat_run assumptions weights max_weight s :
  let sz := length assumptions in
  let run := check_sat assumptions weights max_weight s in
  (∃ ws, weights = Some ws ∧ length ws < sz ∧
         run = Err (undefined_behaviour "weights[i]")) ∨
  ∃ ws r1 s1,
    (ws = [] ∨ sz ≤ length ws) ∧
    (ws = match weights with
          | Some w => take sz w
          | None => []
          end ∧
     length ws = match weights with
                 | Some _ => sz
                 | None => 0
                 end) ∧
    internalize_formulas (check_sat_start ws s) = Ok (r1, s1) ∧
    ((r1 = l_undef ∧ run = Ok (l_undef, s1)) ∨
     r1 = l_true ∧
     ∃ r2 (d : dep2asm_t) s2,
       internalize_assumptions assumptions ∅ s1 = Ok ((r2, d), s2) ∧
       (m_weights s1 = [] ∨ sz ≤ length (m_weights s1)) ∧
       ((r2 = l_undef ∧ run = Ok (l_undef, s2)) ∨
        r2 = l_true ∧
        ∃ r solver,
          sat_check (m_asms s2) (m_weights s2) max_weight (m_solver s2) =
            (r, solver) ∧
          let s3 := set_m_solver solver s2 in
          match r with
          | l_true =>
              if (0 <? sz) && negb (is_some weights)
              then (check_assumptions d s3 = Ok ((), s3) ∧
                    run = Ok (l_true, s3)) ∨
                   (check_assumptions d s3 =
                      Err (default_exception "bad state") ∧
                    run = Err (default_exception "bad state"))
              else run = Ok (l_true, s3)
          | l_false =>
              if empty (m_asms s2) then run = Ok (l_false, s3)
              else
                match mapM (λ l, extract_asm2dep d ∅ !! lit_index l)
                           (sat_get_core solver) with
                | Some es => run = Ok (l_false, set_m_core es s3)
                | None => run = Err verify_failed
                end
          | l_undef => run = Ok (l_undef, s3)
          end)).
Proof.
  intros sz run. subst run sz. unfold check_sat.
  rewrite (bind_run _ _ s () (set_m_weights [] s)) by done.
  set (ws := match weights with
             | Some w => take (length assumptions) w
             | None => []
             end).
  assert ((∃ w, weights = Some w ∧ length w < length assumptions) ∨
          (ws = [] ∨ length assumptions ≤ length ws) ∧
          length ws = match weights with
                      | Some _ => length assumptions
                      | None => 0
                      end ∧
          match weights with
          | Some ws =>
              if length ws <? length assumptions
              then throw (undefined_behaviour "weights[i]")
              else modify (set_m_weights (take (length assumptions) ws))
          | None => ret ()
          end (set_m_weights [] s) =
            Ok ((), set_m_weights ws (set_m_weights [] s)))
    as [(w & -> & Hlt)|(Hws & Hwl & E)].
  { subst ws. destruct weights as [w|]; [|right; by split; [left|]].
    destruct (Nat.ltb_spec (length w) (length assumptions)) as [Hlt|Hge];
      [left; eauto|right].
    rewrite length_take. split; [right; lia|]. split; [lia|done]. }
  { left. exists w. split; [done|]. split; [done|]. unfold bind at 1.
    by destruct (Nat.ltb_spec (length w) (length assumptions)); [|lia]. }
  right. rewrite (bind_run _ _ _ _ _ E). clear E.
  set (sb := set_m_weights ws (set_m_weights [] s)).
  rewrite (bind_run _ _ sb ()
             (set_m_solver (sat_pop_to_base_level (m_solver sb)) sb)) by done.
  set (sc := set_m_solver _ sb).
  rewrite (bind_run _ _ sc () (set_m_model None sc)) by done.
  change (set_m_model None sc) with (check_sat_start ws s).
  destruct (internalize_formulas_returns (check_sat_start ws s))
    as (r1 & se & E1 & _ & Ha1 & _ & _ & _ & _ & _ & _ & Hw1 & Hr1).
  rewrite (bind_run _ _ _ _ _ E1).
  exists ws, r1, se. split; [done|]. split; [done|]. split; [done|].
  assert (r1 = l_true ∨ r1 = l_undef) as [-> | ->]
    by (destruct Hr1 as [[-> _]|[-> _]]; auto); cbn [lbool_eqb negb];
    [right; split; [done|] | by left].
  assert (m_weights se = [] ∨ length assumptions ≤ length (m_weights se))
    as Hwse.
  { rewrite Hw1. cbn. destruct Hws as [-> |]; auto. }
  destruct (internalize_assumptions_spec assumptions se Hwse)
    as (r2 & d & sf & E2 & Hr2 & _).
  rewrite (bind_run _ _ _ _ _ E2). cbn [fst snd].
  exists r2, d, sf. split; [done|]. split; [done|].
  destruct Hr2 as [-> | ->]; cbn [lbool_eqb negb]; [right; split; [done|] | by left].
  rewrite (bind_run _ _ sf sf sf) by done.
  destruct (sat_check (m_asms sf) (m_weights sf) max_weight (m_solver sf))
    as [r solver'] eqn:Ec.
  exists r, solver'. split; [done|]. cbn zeta.
  rewrite (bind_run _ _ sf () (set_m_solver solver' sf)) by done.
  set (sg := set_m_solver solver' sf).
  destruct r.
  - rewrite bind_assoc.
    rewrite (bind_run _ _ sg (m_asms sf) sg) by done.
    destruct (m_asms sf) as [|lit lits] eqn:Elits; cbn [empty negb].
    { by rewrite (bind_run _ _ sg () sg) by done. }
    pose proof (extract_core_spec d sg) as Ex.
    change (sat_get_core (m_solver sg)) with (sat_get_core solver') in Ex.
    destruct (mapM _ (sat_get_core solver')) as [es|].
    + by rewrite (bind_run _ _ _ _ _ Ex).
    + unfold bind at 1. by rewrite Ex.
  - by rewrite (bind_run _ _ sg () sg) by done.
  - destruct ((0 <? length assumptions) && negb (is_some weights)).
    + destruct (check_assumptions_cases d sg) as [Eca|Eca].
      * left. split; [done|]. by rewrite (bind_run _ _ _ _ _ Eca).
      * right. split; [done|]. unfold bind at 1. by rewrite Eca.
    + by rewrite (bind_run _ _ sg () sg) by done.
Qed.

(** ** Reading back what was asserted *)

(** X5: the term given to [assert_expr(t)] is the assertion at the old
    count, the count grows by one and every earlier assertion stays where
    it was; [assert_expr(t, a)] with a guard stores [a => t] as the last
    assertion and [a] as the last assumption; [get_assertion] and
    [get_assumption] at an index from the count on leave defined
    behaviour. *)
Theorem asserted_terms_read_back t s :
  let n := length (m_fmls s) in
  let k := length (m_asmsf s) in
  (∃ s1, assert_expr t s = Ok ((), s1) ∧
         get_num_assertions s1 = Ok (S n, s1) ∧
         get_assertion n s1 = Ok (t, s1) ∧
         get_num_assumptions s1 = Ok (k, s1) ∧
         ∀ i e, get_assertion i s = Ok (e, s) →
                get_assertion i s1 = Ok (e, s1)) ∧
  (∀ a, ∃ s1,
     assert_expr2 t (Some a) s = Ok ((), s1) ∧
     get_num_assertions s1 = Ok (S n, s1) ∧
     get_assertion n s1 = Ok (mk_implies a t, s1) ∧
     get_num_assumptions s1 = Ok (S k, s1) ∧
     get_assumption k s1 = Ok (a, s1) ∧
     (∀ i e, get_assertion i s = Ok (e, s) →
             get_assertion i s1 = Ok (e, s1)) ∧
     (∀ i e, get_assumption i s = Ok (e, s) →
             get_assumption i s1 = Ok (e, s1))) ∧
  (∀ i, n ≤ i →
        get_assertion i s = Err (undefined_behaviour "m_fmls[idx]")) ∧
  (∀ i, k ≤ i →
        get_assumption i s = Err (undefined_behaviour "m_asmsf[idx]")).
Proof.
  intros n k.
  assert (∀ (l : list expr) x i e what (s0 s1 : inc_sat_solver),
            defined what (l !! i) s0 = Ok (e, s0) →
            defined what ((l ++ [x]) !! i) s1 = Ok (e, s1)) as Hkeep.
  { intros l x i e what s0 s1. unfold defined.
    destruct (l !! i) as [e'|] eqn:El; [|discriminate].
    intros [= ->]. by rewrite (lookup_app_l_Some _ _ _ _ El). }
  assert (∀ (l : list expr) x what (s1 : inc_sat_solver),
            defined what ((l ++ [x]) !! length l) s1 = Ok (x, s1)) as Hlast.
  { intros l x what s1. unfold defined.
    by rewrite lookup_app_r, Nat.sub_diag by lia. }
  split; [|split; [|split]].
  - eexists. split; [reflexivity|].
    unfold get_num_assertions, get_num_assumptions, get_assertion,
      push_back; unfold_monad; cbn.
    rewrite length_app, Nat.add_1_r. split; [done|].
    split; [apply Hlast|]. split; [done|]. intros i e. apply Hkeep.
  - intros a. eexists. split; [reflexivity|].
    unfold get_num_assertions, get_num_assumptions, get_assertion,
      get_assumption, push_back; unfold_monad; cbn.
    rewrite !length_app, !Nat.add_1_r. split; [done|].
    split; [apply Hlast|]. split; [done|]. split; [apply Hlast|].
    split; intros i e; apply Hkeep.
  - intros i Hi. unfold get_assertion; unfold_monad; cbn.
    by rewrite lookup_ge_None_2.
  - intros i Hi. unfold get_assumption; unfold_monad; cbn.
    by rewrite lookup_ge_None_2.
Qed.

(** ** Models *)

Lemma set_m_model_same (s : inc_sat_solver) :
  set_m_model (m_model s) s = s.
Proof. by destruct s. Qed.

(** [extract_model] always returns and writes [m_model] and [m_mc0]
    only. *)
Lemma extract_model_returns s :
  ∃ s', extract_model s = Ok ((), s') ∧ book (set_m_model (m_model s) s') =
                                        book s ∧
        m_solver s' = m_solver s ∧ m_map s' = m_map s ∧
        m_bb_rewriter s' = m_bb_rewriter s ∧ m_unknown s' = m_unknown s ∧
        (sat_model_is_current (m_solver s) = false →
         s' = set_m_model None s).
Proof.
  unfold extract_model; unfold_monad; cbn.
  destruct (sat_model_is_current (m_solver s)); cbn.
  2:{ eexists. split; [done|]. by repeat split. }
  destruct (m_bb_rewriter s) as [bb|] eqn:Ebb; cbn;
    [destruct (empty (map_to_list (bb_const2bits bb))); cbn|];
    try destruct (mc_concat _ _); try destruct (m_mc0 s); cbn;
    eexists; (split; [done|]); unfold book; cbn; by repeat split.
Qed.

(** X6: every [check_sat] that returns has dropped the cached model; a
    [get_model] after it extracts anew, and answers null without a
    further change when the engine's model is not current.  With a model
    cached, [get_model] hands it out and changes nothing. *)
Theorem check_sat_drops_model assumptions weights max_weight s :
  match check_sat assumptions weights max_weight s with
  | Ok (_, s') =>
      m_model s' = None ∧
      (sat_model_is_current (m_solver s') = false →
       get_model s' = Ok (None, s'))
  | Err _ => True
  end ∧
  (∀ md, m_model s = Some md → get_model s = Ok (Some md, s)).
Proof.
  split.
  2:{ intros md Hmd. unfold get_model; unfold_monad; cbn.
      rewrite Hmd. cbn. by rewrite Hmd. }
  assert (∀ s' : inc_sat_solver,
            m_model s' = None →
            m_model s' = None ∧
            (sat_model_is_current (m_solver s') = false →
             get_model s' = Ok (None, s'))) as Hget.
  { intros s' Hm. split; [done|]. intros Hcur.
    unfold get_model. unfold gets at 1. unfold bind at 1. rewrite Hm. cbn.
    destruct (extract_model_returns s') as (s2 & E & _ & _ & _ & _ & _ & Hs2).
    rewrite (bind_run _ _ _ _ _ E). rewrite (Hs2 Hcur).
    rewrite <- Hm, set_m_model_same. unfold gets. by rewrite Hm. }
  destruct (check_sat_run assumptions weights max_weight s)
    as [(ws & _ & _ & ->)|(ws & r1 & s1 & Hws & Hwsd & E1 & Hrun)]; [done|].
  destruct (internalize_formulas_returns (check_sat_start ws s))
    as (r1' & s1' & E1' & _ & _ & _ & _ & _ & _ & _ & Hm1 & _).
  rewrite E1 in E1'. injection E1' as <- <-. cbn in Hm1.
  destruct Hrun as [[_ ->]|[_ (r2 & d & s2 & E2 & Hw1 & Hrun)]];
    [by apply Hget|].
  destruct (internalize_assumptions_spec assumptions s1 Hw1)
    as (r2' & d' & s2' & E2' & _ & _ & _ & _ & Hm2 & _).
  rewrite E2 in E2'. injection E2' as <- <- <-.
  rewrite Hm1 in Hm2.
  destruct Hrun as [[_ ->]|[_ (r & solver & Ec & Hrun)]];
    [by apply Hget|].
  cbn zeta in Hrun. destruct r.
  - destruct (empty (m_asms s2)); [rewrite Hrun; by apply Hget|].
    destruct (mapM _ _); rewrite Hrun; [by apply Hget|done].
  - rewrite Hrun. by apply Hget.
  - destruct (_ && _); [destruct Hrun as [[_ ->]|[_ ->]]|rewrite Hrun];
      try done; by apply Hget.
Qed.

(** ** Cores and reasons that stay *)

(** X7: [check_sat] writes [m_core] only when it answers unsat with a
    non-empty assumption literal list.  After every other answer, and
    after unsat without assumption literals, [get_unsat_core] still
    returns the core of an earlier check. *)
Theorem check_sat_keeps_stale_core assumptions weights max_weight s :
  match check_sat assumptions weights max_weight s with
  | Ok (r, s') =>
      r ≠ l_false ∨ m_asms s' = [] →
      m_core s' = m_core s ∧ get_unsat_core s' = Ok (m_core s, s')
  | Err _ => True
  end.
Proof.
  assert (∀ s' : inc_sat_solver,
            m_core s' = m_core s →
            m_core s' = m_core s ∧ get_unsat_core s' = Ok (m_core s, s'))
    as Hget.
  { intros s' Hc. split; [done|]. unfold get_unsat_core, gets.
    by rewrite Hc. }
  destruct (check_sat_run assumptions weights max_weight s)
    as [(ws & _ & _ & ->)|(ws & r1 & s1 & Hws & Hwsd & E1 & Hrun)]; [done|].
  destruct (internalize_formulas_returns (check_sat_start ws s))
    as (r1' & s1' & E1' & _ & _ & _ & _ & _ & _ & Hc1 & _).
  rewrite E1 in E1'. injection E1' as <- <-. cbn in Hc1.
  destruct Hrun as [[_ ->]|[_ (r2 & d & s2 & E2 & Hw1 & Hrun)]];
    [intros _; by apply Hget|].
  destruct (internalize_assumptions_spec assumptions s1 Hw1)
    as (r2' & d' & s2' & E2' & _ & _ & Hc2 & _).
  rewrite E2 in E2'. injection E2' as <- <- <-.
  rewrite Hc1 in Hc2.
  destruct Hrun as [[_ ->]|[_ (r & solver & Ec & Hrun)]];
    [intros _; by apply Hget|].
  cbn zeta in Hrun. destruct r.
  - destruct (m_asms s2) as [|l ls] eqn:Easms; cbn [empty] in Hrun.
    { rewrite Hrun. intros _. by apply Hget. }
    destruct (mapM _ _); rewrite Hrun; [|done].
    cbn. rewrite Easms. by intros [?|?].
  - rewrite Hrun. intros _. by apply Hget.
  - destruct (_ && _); [destruct Hrun as [[_ ->]|[_ ->]]|rewrite Hrun];
      try done; intros _; by apply Hget.
Qed.

(** The one place that writes [m_unknown]: a run of [internalize_goal]
    leaves the reason as it was unless it is left with interpreted
    atoms, and then it answers [l_undef] and the reason names them. *)
Lemma internalize_goal_reason g d s r g' d' s' :
  internalize_goal g d s = Ok ((r, g', d'), s') →
  match residual_atoms g d s with
  | [] => m_unknown s' = m_unknown s
  | (_ :: _) as atoms =>
      r = l_undef ∧
      m_unknown s' =
        "interpreted atoms sent to SAT solver " +:+ pp_exprs atoms
  end.
Proof.
  revert s'. unfold residual_atoms. internalize_goal_cases;
    intros ? [= <- <- <- <-]; by cbn.
Qed.

Lemma internalize_formulas_reason s r s' :
  internalize_formulas s = Ok (r, s') →
  match formula_atoms s with
  | [] => m_unknown s' = m_unknown s
  | (_ :: _) as atoms =>
      r = l_undef ∧
      m_unknown s' =
        "interpreted atoms sent to SAT solver " +:+ pp_exprs atoms
  end.
Proof.
  unfold internalize_formulas, formula_atoms.
  unfold gets at 1. unfold bind at 1. cbn [id fst snd].
  destruct (Nat.eqb_spec (m_fmls_head s) (length (m_fmls s))) as [Hhead|Hhead].
  { unfold ret. by intros [= <- <-]. }
  match goal with |- context [internalize_goal ?g ?d] =>
    destruct (internalize_goal_returns g d s)
      as (r1 & g' & d' & s1 & E & Hr & _);
    pose proof (internalize_goal_reason g d s _ _ _ _ E) as Hre;
    set (atoms := residual_atoms g d s) in *; clearbody atoms
  end.
  rewrite (bind_run _ _ _ _ _ E).
  destruct Hr as [-> | ->]; cbn; unfold_monad; cbn; intros [= <- <-];
    destruct atoms; cbn; done.
Qed.

Lemma internalize_assumptions_reason asms s r (d : dep2asm_t) s' :
  m_weights s = [] ∨ length asms ≤ length (m_weights s) →
  internalize_assumptions asms ∅ s = Ok ((r, d), s') →
  match assumption_atoms asms s with
  | [] => m_unknown s' = m_unknown s
  | (_ :: _) as atoms =>
      r = l_undef ∧
      m_unknown s' =
        "interpreted atoms sent to SAT solver " +:+ pp_exprs atoms
  end.
Proof.
  intros Hws. unfold internalize_assumptions, assumption_atoms,
    get_num_assumptions.
  rewrite (bind_run _ _ s (length (m_asmsf s)) s) by done.
  destruct ((length asms =? 0) && (length (m_asmsf s) =? 0)) eqn:Ez.
  { unfold_monad. by intros [= <- <- <-]. }
  rewrite (bind_run _ _ s (m_asmsf s) s) by done.
  set (g := foldl _ (foldl _ _ asms) (m_asmsf s)).
  destruct (internalize_goal_returns g ∅ s)
    as (r1 & g' & d1 & s1 & E & Hr & Hbook).
  pose proof (internalize_goal_reason g ∅ s _ _ _ _ E) as Hre.
  set (atoms := residual_atoms g ∅ s) in *. clearbody atoms.
  rewrite (bind_run _ _ _ _ _ E). cbn [fst snd].
  unfold book in Hbook.
  assert (m_weights s1 = m_weights s) as Hw by (by simplify_eq).
  destruct Hr as [-> | ->]; cbn [lbool_eqb].
  - destruct (extract_assumptions_spec asms d1 s1) as (ws & Ex & _);
      [congruence|].
    rewrite (bind_run _ _ _ _ _ Ex). unfold ret.
    intros [= <- <- <-]. cbn. exact Hre.
  - rewrite (bind_run _ _ s1 () s1) by done. unfold ret.
    intros [= <- <- <-]. exact Hre.
Qed.

(** X10: [check_sat] writes the reason for an unknown answer on one path
    only: when one of its two runs of the pipeline, on the formulas and
    then on the assumptions, ends in one subgoal for which [goal2sat]
    hands back interpreted atoms.  The answer is then [l_undef] and the
    reason names those atoms.  In every other case, which are the
    definite answers and the [l_undef] of a raised exception, of a
    subgoal count other than one and of the engine itself, [m_unknown]
    is what it was before the check. *)
Theorem reason_written_for_atoms_only assumptions weights max_weight s :
  let sa := check_sat_start
              match weights with
              | Some ws => take (length assumptions) ws
              | None => []
              end s in
  match check_sat assumptions weights max_weight s with
  | Ok (r, s') =>
      (r ≠ l_undef → m_unknown s' = m_unknown s) ∧
      match formula_atoms sa with
      | (_ :: _) as atoms =>
          r = l_undef ∧
          m_unknown s' =
            "interpreted atoms sent to SAT solver " +:+ pp_exprs atoms
      | [] =>
          ∃ r1 s1,
            internalize_formulas sa = Ok (r1, s1) ∧
            match
              match r1 with
              | l_true => assumption_atoms assumptions s1
              | _ => []
              end
            with
            | (_ :: _) as atoms =>
                r = l_undef ∧
                m_unknown s' =
                  "interpreted atoms sent to SAT solver " +:+ pp_exprs atoms
            | [] => m_unknown s' = m_unknown s
            end
      end
  | Err _ => True
  end.
Proof.
  intros sa.
  destruct (check_sat_run assumptions weights max_weight s)
    as [(ws & _ & _ & ->)|(ws & r1 & s1 & Hws & [-> _] & E1 & Hrun)];
    [done|].
  fold sa in E1.
  pose proof (internalize_formulas_reason _ _ _ E1) as Hre1.
  change (m_unknown sa) with (m_unknown s) in Hre1.
  destruct Hrun as [[-> ->]|[-> (r2 & d & s2 & E2 & Hw1 & Hrun)]].
  { split; [done|]. destruct (formula_atoms sa); [|done].
    by exists l_undef, s1. }
  destruct (formula_atoms sa); [|by destruct Hre1].
  pose proof (internalize_assumptions_reason _ _ _ _ _ Hw1 E2) as Hre2.
  rewrite Hre1 in Hre2.
  destruct Hrun as [[-> ->]|[-> (r & solver & Ec & Hrun)]].
  { split; [done|]. by exists l_true, s1. }
  assert (m_unknown s2 = m_unknown s) as Hs2
    by (destruct (assumption_atoms assumptions s1); [done|by destruct Hre2]).
  assert (∀ (r : lbool) (s' : inc_sat_solver),
            m_unknown s' = m_unknown s →
            (r ≠ l_undef → m_unknown s' = m_unknown s) ∧
            ∃ r1' s1',
              internalize_formulas sa = Ok (r1', s1') ∧
              match
                match r1' with
                | l_true => assumption_atoms assumptions s1'
                | _ => []
                end
              with
              | (_ :: _) as atoms =>
                  r = l_undef ∧
                  m_unknown s' =
                    "interpreted atoms sent to SAT solver " +:+
                    pp_exprs atoms
              | [] => m_unknown s' = m_unknown s
              end) as Hend.
  { intros r' s' Hu. split; [done|]. exists l_true, s1. split; [done|].
    destruct (assumption_atoms assumptions s1); [done|by destruct Hre2]. }
  cbn zeta in Hrun. destruct r.
  - destruct (empty (m_asms s2)); [rewrite Hrun; by apply Hend|].
    destruct (mapM _ _); rewrite Hrun; [by apply Hend|done].
  - rewrite Hrun. by apply Hend.
  - destruct (_ && _); [destruct Hrun as [[_ ->]|[_ ->]]|rewrite Hrun];
      try done; by apply Hend.
Qed.

(** ** How a check can fail *)

(** X8: [check_sat] stops without an answer in three ways only: a
    weights array shorter than the assumption array is read past its
    end, and whenever it is that short; the exception "bad state", only
    for an unweighted check with at least one assumption; the [VERIFY] of
    [extract_core], only with an engine that puts a literal into its
    core that was no assumption of the check. *)
Theorem check_sat_failures assumptions weights max_weight s :
  match check_sat assumptions weights max_weight s with
  | Ok _ => ∀ ws, weights = Some ws → length assumptions ≤ length ws
  | Err e =>
      (e = undefined_behaviour "weights[i]" ∧
       ∃ ws, weights = Some ws ∧ length ws < length assumptions) ∨
      (e = default_exception "bad state" ∧
       weights = None ∧ assumptions ≠ []) ∨
      (e = verify_failed ∧ ¬ core_within_assumptions)
  end.
Proof.
  assert ((∃ ws', weights = Some ws' ∧ length ws' < length assumptions) ∨
          (∀ ws', weights = Some ws' → length assumptions ≤ length ws'))
    as [(ws' & -> & Hlt)|Hlen].
  { destruct weights as [w|]; [|by right].
    destruct (Nat.ltb_spec (length w) (length assumptions));
      [left; eauto|right]. by intros ? [= <-]. }
  { assert (check_sat assumptions (Some ws') max_weight s =
            Err (undefined_behaviour "weights[i]")) as ->; [|left; eauto].
    unfold check_sat.
    rewrite (bind_run _ _ s () (set_m_weights [] s)) by done.
    unfold bind at 1.
    by destruct (Nat.ltb_spec (length ws') (length assumptions)); [|lia]. }
  destruct (check_sat_run assumptions weights max_weight s)
    as [(ws & -> & Hlt & ->)|(ws & r1 & s1 & Hws & Hwsd & E1 & Hrun)];
    [left; eauto|].
  destruct Hrun as [[_ ->]|[_ (r2 & d & s2 & E2 & Hw1 & Hrun)]]; [done|].
  destruct (internalize_assumptions_spec assumptions s1 Hw1)
    as (r2' & d' & s2' & E2' & _ & _ & _ & _ & _ & Hasms & _).
  rewrite E2 in E2'. injection E2' as <- <- <-.
  destruct Hrun as [[_ ->]|[-> (r & solver & Ec & Hrun)]]; [done|].
  destruct (Hasms eq_refl) as [Hasms' _]. clear Hasms.
  cbn zeta in Hrun. destruct r.
  - destruct (empty (m_asms s2)); [by rewrite Hrun|].
    destruct (mapM _ _) eqn:Em; rewrite Hrun; [done|].
    right. right. split; [done|]. intros Hcore.
    apply mapM_None_1, Exists_exists in Em as (l & Hl & Hnone).
    apply list_elem_of_In in Hl.
    apply (Hcore _ _ _ _ _ Ec) in Hl. rewrite Hasms' in Hl.
    apply list_elem_of_omap in Hl as (e & _ & He).
    apply extract_asm2dep_is_Some in He as [? He]. congruence.
  - by rewrite Hrun.
  - destruct ((0 <? length assumptions) && negb (is_some weights)) eqn:Eb.
    + destruct Hrun as [[_ ->]|[_ ->]]; [done|].
      right. left. split; [done|].
      apply andb_true_iff in Eb as [Hsz Hnone].
      destruct weights; [discriminate|]. split; [done|].
      apply Nat.ltb_lt in Hsz. by destruct assumptions; [cbn in Hsz; lia|].
    + by rewrite Hrun.
Qed.

(** ** A sat answer under assumptions *)

Lemma check_assumptions_loop_ok ll_m entries s r :
  check_assumptions_loop ll_m entries s = Ok r →
  ∀ e l, (e, l) ∈ entries → sat_value_at l ll_m = l_true.
Proof.
  induction entries as [|[e0 l0] entries IH]; cbn.
  { by intros _ e l ?%elem_of_nil. }
  destruct (sat_value_at l0 ll_m) eqn:Ev; cbn; try done.
  intros H e l [[= -> ->]|Hin]%elem_of_cons; [done|]. by eapply IH.
Qed.

(** X9: when an unweighted [check_sat] with at least one assumption
    answers sat, every literal of [m_asms] is true in the model the
    engine then holds: otherwise the call would have thrown. *)
Theorem sat_answer_meets_assumptions assumptions max_weight s :
  match check_sat assumptions None max_weight s with
  | Ok (l_true, s') =>
      assumptions ≠ [] →
      ∀ l, l ∈ m_asms s' →
           sat_value_at l (sat_get_model (m_solver s')) = l_true
  | _ => True
  end.
Proof.
  destruct (check_sat_run assumptions None max_weight s)
    as [(ws & _ & _ & ->)|(ws & r1 & s1 & Hws & Hwsd & E1 & Hrun)]; [done|].
  destruct Hrun as [[_ ->]|[_ (r2 & d & s2 & E2 & Hw1 & Hrun)]]; [done|].
  destruct (internalize_assumptions_spec assumptions s1 Hw1)
    as (r2' & d' & s2' & E2' & _ & _ & _ & _ & _ & Hasms & _).
  rewrite E2 in E2'. injection E2' as <- <- <-.
  destruct Hrun as [[_ ->]|[-> (r & solver & Ec & Hrun)]]; [done|].
  destruct (Hasms eq_refl) as [Hasms' _]. clear Hasms.
  cbn zeta in Hrun. destruct r.
  - destruct (empty (m_asms s2)); [by rewrite Hrun|].
    destruct (mapM _ _); by rewrite Hrun.
  - by rewrite Hrun.
  - destruct (Nat.ltb_spec 0 (length assumptions)) as [Hsz|Hsz];
      cbn [andb negb is_some] in Hrun.
    2:{ rewrite Hrun. intros Hne. by destruct assumptions; [|cbn in Hsz; lia]. }
    destruct Hrun as [[Eca ->]|[_ ->]]; [|done].
    intros _ l Hl. cbn in Hl. rewrite Hasms' in Hl.
    apply list_elem_of_omap in Hl as (e & _ & He).
    unfold check_assumptions in Eca.
    apply bind_Ok in Eca as (ll_m & ? & [= <- <-] & Eca).
    eapply check_assumptions_loop_ok; [exact Eca|].
    by apply elem_of_map_to_list.
Qed.

(** ** The bits of a value *)

(** On an uninterpreted constant [internalize_value] returns; it writes
    the cache of powers only. *)
Lemma internalize_value_returns value v s :
  exps_ok (m_exps s) → is_uninterp_const v = true →
  (get_sort v = BoolSort →
   ∀ l, value !! 0 = Some l →
        internalize_value value v s =
          Ok ((if lit_sign l then mk_not v else v), s)) ∧
  (is_bv_sort (get_sort v) = true →
   ∃ exps,
     internalize_value value v s =
       Ok (mk_eq v (mk_numeral (bits_value value 0) (length value)),
           set_m_exps exps s) ∧
     exps_ok exps).
Proof.
  intros Hok Hconst. unfold internalize_value. rewrite Hconst. cbn.
  split.
  - intros Hsort l Hl. unfold is_bool. rewrite Hsort.
    unfold bind, defined. by rewrite Hl.
  - intros Hsort. unfold is_bool.
    destruct (get_sort v) as [|w|]; try discriminate. cbn.
    set (s1 := if empty (m_exps s)
               then set_m_exps (push_back 1%Z (m_exps s)) s else s).
    assert (exps_ok (m_exps s1) ∧ m_exps s1 ≠ [] ∧
            s1 = set_m_exps (m_exps s1) s) as (Hok1 & Hne1 & Es1).
    { subst s1. destruct (m_exps s) eqn:Ee; cbn.
      - split; [|done]. intros [|i] e; [|done]. by intros [= <-].
      - rewrite Ee. split; [done|]. split; [done|].
        rewrite <- Ee. by destruct s. }
    destruct (grow_exps_spec (length value) (length value) s1)
      as (exps & E & Hok2 & Hlen2); [done|done|lia|].
    exists exps.
    rewrite (bind_run _ _ s () s1) by (subst s1; by destruct (m_exps s)).
    rewrite (bind_run _ _ _ _ _ E).
    rewrite (bind_run _ _ _ (0 + bits_value value 0)%Z (set_m_exps exps s1))
      by (apply sum_bits_spec; cbn; done || lia).
    unfold ret. split; [|done]. rewrite Es1. done.
Qed.

Lemma bits_value_succ value i :
  bits_value value (S i) = (2 * bits_value value i)%Z.
Proof.
  revert i. induction value as [|l value IH]; intros i; cbn; [done|].
  rewrite IH. replace (Z.of_nat (S i)) with (Z.succ (Z.of_nat i)) by lia.
  rewrite Z.pow_succ_r by lia. destruct (lit_sign l); lia.
Qed.

Lemma bits_value_testbit value i :
  Z.testbit (bits_value value 0) (Z.of_nat i) =
    match value !! i with
    | Some l => negb (lit_sign l)
    | None => false
    end.
Proof.
  revert i. induction value as [|l value IH]; intros i; cbn.
  { by rewrite Z.testbit_0_l. }
  rewrite bits_value_succ.
  assert (((if lit_sign l then 0 else 2 ^ Z.of_nat 0) +
           2 * bits_value value 0 =
           2 * bits_value value 0 + Z.b2z (negb (lit_sign l)))%Z) as ->
    by (destruct (lit_sign l); cbn; lia).
  destruct i as [|i]; cbn [lookup list_lookup].
  - apply Z.testbit_0_r.
  - replace (Z.of_nat (S i)) with (Z.succ (Z.of_nat i)) by lia.
    rewrite Z.testbit_succ_r by lia. apply IH.
Qed.

(** X11: the numeral that [internalize_value] builds for a bit-vector
    constant has as many bits as there are literals, and its bit [i] is
    set exactly when literal [i] is positive: the literal signs can be
    read back from the numeral. *)
Theorem internalize_value_bits value v s :
  exps_ok (m_exps s) → is_uninterp_const v = true →
  is_bv_sort (get_sort v) = true →
  ∃ r s',
    internalize_value value v s =
      Ok (mk_eq v (mk_numeral r (length value)), s') ∧
    (∀ i l, value !! i = Some l →
            Z.testbit r (Z.of_nat i) = negb (lit_sign l)) ∧
    (∀ i, length value ≤ i → Z.testbit r (Z.of_nat i) = false).
Proof.
  intros Hok Hconst Hbv.
  destruct (proj2 (internalize_value_returns value v s Hok Hconst) Hbv)
    as (exps & E & _).
  eexists _, _. split; [exact E|]. split.
  - intros i l Hl. by rewrite bits_value_testbit, Hl.
  - intros i Hi. by rewrite bits_value_testbit, lookup_ge_None_2.
Qed.

(** ** The terms of a mutex *)

Lemma collect_literals_sound map vars acc pre :
  (∀ i e, acc.2 !! i = Some e →
          e ∈ pre ∧ lit_index (literal_of map e) = i) →
  ∀ i e, (foldl (collect_literal map) acc vars).2 !! i = Some e →
         e ∈ pre ++ vars ∧ lit_index (literal_of map e) = i.
Proof.
  revert acc pre. induction vars as [|var vars IH]; intros acc pre Hacc.
  { cbn. intros i e He. rewrite app_nil_r. by apply Hacc. }
  cbn. intros i e He.
  replace (pre ++ var :: vars) with ((pre ++ [var]) ++ vars)
    by (by rewrite <- app_assoc).
  eapply IH; [|exact He]. clear i e He. intros i e.
  unfold collect_literal.
  destruct (is_not var) as [neg e0] eqn:En.
  destruct (negb _); cbn.
  - destruct (decide (lit_index (mk_literal (to_bool_var map e0) neg) = i))
      as [<-|Hne].
    + rewrite lookup_insert_eq. intros [= <-].
      split; [apply elem_of_app; right; apply list_elem_of_here|].
      unfold literal_of. by rewrite En.
    + rewrite lookup_insert_ne by done. intros He.
      destruct (Hacc _ _ He) as [? ?]. split; [|done].
      apply elem_of_app. by left.
  - intros He. destruct (Hacc _ _ He) as [? ?]. split; [|done].
    apply elem_of_app. by left.
Qed.

Lemma map_mutex_spec (lit2var : gmap N expr) ls_mutex mutex s :
  map_mutex lit2var ls_mutex mutex s =
    match mapM (λ l, lit2var !! lit_index l) ls_mutex with
    | Some es => Ok (mutex ++ es, s)
    | None => Err (undefined_behaviour "lit2var.find")
    end.
Proof.
  revert mutex. induction ls_mutex as [|l ls IH]; intros mutex; cbn.
  { by rewrite app_nil_r. }
  unfold bind at 1. unfold defined.
  destruct (lit2var !! lit_index l) as [e|]; cbn; [|done].
  rewrite IH. destruct (mapM _ ls); cbn; [|done].
  unfold push_back. by rewrite <- app_assoc.
Qed.

Lemma map_mutexes_spec (lit2var : gmap N expr) ls_mutexes mutexes s :
  map_mutexes lit2var ls_mutexes mutexes s =
    match mapM (mapM (λ l, lit2var !! lit_index l)) ls_mutexes with
    | Some ess => Ok (mutexes ++ ess, s)
    | None => Err (undefined_behaviour "lit2var.find")
    end.
Proof.
  revert mutexes. induction ls_mutexes as [|g gs IH]; intros mutexes; cbn.
  { by rewrite app_nil_r. }
  unfold bind at 1. rewrite map_mutex_spec.
  destruct (mapM _ g) as [es|]; cbn; [|done].
  rewrite IH. destruct (mapM _ gs); cbn; [|done].
  unfold push_back. by rewrite <- app_assoc.
Qed.

(** X12: [find_mutexes] keeps the groups it was handed and appends one
    group of terms per group of the engine, in order; each term of a new
    group is one of the input terms, and it is one whose literal, the
    variable of its atom with the sign of a leading [not], is the
    engine's literal at that place. *)
Theorem mutex_terms_from_input vars mutexes s :
  match find_mutexes vars mutexes s with
  | Ok ((_, out), s') =>
      ∃ new,
        out = mutexes ++ new ∧
        Forall2 (Forall2 (λ l e, e ∈ vars ∧ literal_of (m_map s) e = l))
          (sat_find_mutexes (collect_literals (m_map s) vars).1
             (m_solver s)).1
          new
  | Err _ => True
  end.
Proof.
  unfold find_mutexes.
  rewrite (bind_run _ _ s s s) by done.
  pose proof (collect_literals_sound (m_map s) vars ([], ∅) []) as Hsound.
  unfold collect_literals in *.
  destruct (foldl _ _ vars) as [ls lit2var]. cbn in Hsound |- *.
  destruct (sat_find_mutexes ls (m_solver s)) as [groups solver]. cbn.
  unfold bind. rewrite map_mutexes_spec.
  destruct (mapM _ groups) as [ess|] eqn:Em; [|done]. unfold ret.
  exists ess. split; [done|].
  apply mapM_Some_1 in Em.
  eapply Forall2_impl; [|exact Em]. intros g es Hg. cbn in Hg.
  apply mapM_Some_1 in Hg.
  eapply Forall2_impl; [|exact Hg]. intros l e He. cbn in He.
  destruct (Hsound (λ i e', ltac:(by rewrite lookup_empty)) (lit_index l) e)
    as [Hin Hidx]; [done|].
  split; [done|]. by apply lit_index_inj.
Qed.

(** ** What a check leaves alone *)

Lemma check_sat_frame assumptions weights max_weight s r s' :
  check_sat assumptions weights max_weight s = Ok (r, s') →
  m_fmls s' = m_fmls s ∧ m_asmsf s' = m_asmsf s ∧
  m_fmls_lim s' = m_fmls_lim s ∧ m_asms_lim s' = m_asms_lim s ∧
  m_fmls_head_lim s' = m_fmls_head_lim s ∧
  m_num_scopes s' = m_num_scopes s ∧
  m_params s' = m_params s ∧ m_optimize_model s' = m_optimize_model s ∧
  m_mc0 s' = m_mc0 s ∧ m_exps s' = m_exps s ∧
  (m_fmls_head s' = m_fmls_head s ∨ m_fmls_head s' = length (m_fmls s)).
Proof.
  destruct (check_sat_run assumptions weights max_weight s)
    as [(ws & _ & _ & ->)|(ws & r1 & s1 & Hws & Hwsd & E1 & Hrun)]; [done|].
  destruct (internalize_formulas_returns (check_sat_start ws s))
    as (r1' & s1' & E1' & Hf1 & Ha1 & Hfl1 & Hal1 & Hhl1 & Hn1 & _ & _ & _ &
        Hh1).
  rewrite E1 in E1'. injection E1' as <- <-.
  pose proof (internalize_formulas_more _ _ _ E1)
    as (Ho1 & Hmc1 & Hp1 & _ & He1 & _).
  cbn in Hf1, Ha1, Hfl1, Hal1, Hhl1, Hn1, Hh1, Ho1, Hmc1, Hp1, He1.
  assert (m_fmls_head s1 = m_fmls_head s ∨
          m_fmls_head s1 = length (m_fmls s)) as Hh
    by (destruct Hh1 as [[_ ?]|(_ & ? & _)]; auto).
  clear Hh1.
  assert (∀ s2 : inc_sat_solver,
            m_fmls s2 = m_fmls s1 → m_asmsf s2 = m_asmsf s1 →
            m_fmls_lim s2 = m_fmls_lim s1 → m_asms_lim s2 = m_asms_lim s1 →
            m_fmls_head_lim s2 = m_fmls_head_lim s1 →
            m_num_scopes s2 = m_num_scopes s1 →
            m_params s2 = m_params s1 →
            m_optimize_model s2 = m_optimize_model s1 →
            m_mc0 s2 = m_mc0 s1 → m_exps s2 = m_exps s1 →
            m_fmls_head s2 = m_fmls_head s1 →
            Ok (r, s2) = Ok (r, s') →
            m_fmls s' = m_fmls s ∧ m_asmsf s' = m_asmsf s ∧
            m_fmls_lim s' = m_fmls_lim s ∧ m_asms_lim s' = m_asms_lim s ∧
            m_fmls_head_lim s' = m_fmls_head_lim s ∧
            m_num_scopes s' = m_num_scopes s ∧
            m_params s' = m_params s ∧
            m_optimize_model s' = m_optimize_model s ∧
            m_mc0 s' = m_mc0 s ∧ m_exps s' = m_exps s ∧
            (m_fmls_head s' = m_fmls_head s ∨
             m_fmls_head s' = length (m_fmls s))) as Hend.
  { intros s2 ? ? ? ? ? ? ? ? ? ? Hhd [= <-].
    repeat (split; [congruence|]). rewrite Hhd. done. }
  destruct Hrun as [[_ ->]|[_ (r2 & d & s2 & E2 & Hw1 & Hrun)]].
  { intros [= <- <-]. by apply (Hend s1). }
  destruct (internalize_assumptions_spec assumptions s1 Hw1)
    as (r2' & d' & s2' & E2' & _ & Ha2 & _ & Hf2 & _).
  rewrite E2 in E2'. injection E2' as <- <- <-.
  pose proof (internalize_assumptions_more _ _ _ _ _ Hw1 E2)
    as (Ho2 & Hmc2 & Hp2 & He2 & Hh2 & Hn2 & Hfl2 & Hal2 & Hhl2 & _).
  destruct Hrun as [[_ ->]|[_ (r0 & solver & Ec & Hrun)]].
  { intros [= <- <-]. by apply (Hend s2). }
  cbn zeta in Hrun. destruct r0.
  - destruct (empty (m_asms s2)).
    { rewrite Hrun. intros [= <- <-]. by apply (Hend (set_m_solver solver s2)). }
    destruct (mapM _ _) as [es|]; rewrite Hrun; [|done].
    intros [= <- <-].
    by apply (Hend (set_m_core es (set_m_solver solver s2))).
  - rewrite Hrun. intros [= <- <-]. by apply (Hend (set_m_solver solver s2)).
  - destruct (_ && _); [destruct Hrun as [[_ ->]|[_ ->]]|rewrite Hrun];
      try done; intros [= <- <-]; by apply (Hend (set_m_solver solver s2)).
Qed.

(** ** The frontier stays within the formulas *)

Lemma pop_scope_frontier s s' :
  frontier_ok s → pop_scope s = Ok ((), s') → frontier_ok s'.
Proof.
  intros [Hh Hl]. unfold pop_scope, resize, back; unfold_monad; cbn.
  destruct (list.last (m_fmls_head_lim s)) as [h|] eqn:E3; [|done]; cbn.
  destruct (list.last (m_fmls_lim s)) as [k|] eqn:E1; [|done]; cbn.
  destruct (Nat.leb_spec k (length (m_fmls s))); [|done]; cbn.
  destruct (list.last (m_asms_lim s)); [|done]; cbn.
  destruct (_ <=? _); [|done]; cbn.
  intros [= <-]. unfold frontier_ok, pop_back. cbn.
  apply last_Some in E3 as [L3 E3], E1 as [L1 E1].
  rewrite E3, E1 in Hl |- *. rewrite !removelast_last.
  apply Forall2_app_inv in Hl as [Hl Hhk].
  - apply Forall2_cons_1 in Hhk as [Hhk _].
    rewrite length_take. split; [lia|done].
  - apply Forall2_length in Hl. rewrite !length_app in Hl. cbn in Hl. lia.
Qed.

Lemma pop_loop_frontier n s s' :
  frontier_ok s → pop_loop n s = Ok ((), s') → frontier_ok s'.
Proof.
  revert s. induction n as [|n IH]; intros s Hok; cbn.
  { by intros [= <-]. }
  intros ([] & s1 & E1 & E)%bind_Ok.
  eapply IH; [|exact E]. by eapply pop_scope_frontier.
Qed.

Lemma pop_frontier n s s' :
  frontier_ok s → pop n s = Ok ((), s') → frontier_ok s'.
Proof.
  intros Hok. unfold pop. unfold gets, modify, bind at 1 2 3 4 5. cbn.
  by apply pop_loop_frontier.
Qed.

Lemma internalize_formulas_frontier s r s' :
  frontier_ok s → internalize_formulas s = Ok (r, s') → frontier_ok s'.
Proof.
  intros [Hh Hl] E.
  destruct (internalize_formulas_returns s)
    as (r' & s1 & E' & Hf & _ & Hfl & _ & Hhl & _ & _ & _ & _ & Hr).
  rewrite E in E'. injection E' as <- <-.
  unfold frontier_ok. rewrite Hf, Hfl, Hhl. split; [|done].
  destruct Hr as [[_ ->]|(_ & -> & _)]; lia.
Qed.

Lemma push_frontier s s' :
  frontier_ok s → push s = Ok ((), s') → frontier_ok s'.
Proof.
  intros Hok E'.
  destruct (push_returns s)
    as (r & s1 & s2 & E1 & E & Hf & _ & Hfl & _ & Hhl & Hhd & _).
  rewrite E in E'. injection E' as <-.
  destruct (internalize_formulas_frontier _ _ _ Hok E1) as [Hh1 _].
  destruct (internalize_formulas_returns s) as (? & ? & E1' & Hf1 & _).
  rewrite E1 in E1'. injection E1' as <- <-.
  destruct Hok as [_ Hl]. unfold frontier_ok.
  rewrite Hhd, Hf, Hhl, Hfl. rewrite Hf1 in Hh1. split; [done|].
  unfold push_back. apply Forall2_app; [done|]. by constructor.
Qed.

(** X13: the frontier never lies beyond the formulas that are stored, in
    the object and at every checkpoint: that holds for a new solver and
    after every [assert_expr], [push()], [pop(n)],
    [internalize_formulas()] and [check_sat] that returns. *)
Theorem frontier_within_formulas :
  (∀ p, frontier_ok (inc_sat_solver_new p)) ∧
  ∀ s, frontier_ok s →
    (∀ t s', assert_expr t s = Ok ((), s') → frontier_ok s') ∧
    (∀ t a s', assert_expr2 t a s = Ok ((), s') → frontier_ok s') ∧
    (∀ s', push s = Ok ((), s') → frontier_ok s') ∧
    (∀ n s', pop n s = Ok ((), s') → frontier_ok s') ∧
    (∀ r s', internalize_formulas s = Ok (r, s') → frontier_ok s') ∧
    (∀ asms ws mw r s',
       check_sat asms ws mw s = Ok (r, s') → frontier_ok s').
Proof.
  split.
  { intros p. split; cbn; [lia|constructor]. }
  intros s Hok. split; [|split; [|split; [|split; [|split]]]].
  - destruct Hok as [Hh Hl].
    intros t s' [= <-]. split; [|done]. cbn. unfold push_back.
    rewrite length_app. lia.
  - destruct Hok as [Hh Hl].
    intros t [a|] s' [= <-]; (split; [|done]); cbn; unfold push_back;
      rewrite length_app; lia.
  - intros s'. by apply push_frontier.
  - intros n s'. by apply pop_frontier.
  - intros r s'. by apply internalize_formulas_frontier.
  - intros asms ws mw r s' E. destruct Hok as [Hh Hl].
    destruct (check_sat_frame _ _ _ _ _ _ E)
      as (Hf & _ & Hfl & _ & Hhl & _ & _ & _ & _ & _ & Hhd).
    unfold frontier_ok. rewrite Hf, Hfl, Hhl. split; [|done].
    destruct Hhd as [-> | ->]; lia.
Qed.

(** ** The bit-blaster follows the scopes *)

Lemma bb_align_scopes fuel n b :
  bit_blaster_counts_scopes →
  bb_get_num_scopes b ≤ n → n ≤ bb_get_num_scopes b + fuel →
  bb_get_num_scopes (bb_align fuel n b) = n.
Proof.
  intros (_ & Hpush & _). revert b.
  induction fuel as [|fuel IH]; intros b Hle Hn; cbn; [lia|].
  destruct (Nat.ltb_spec (bb_get_num_scopes b) n); [|lia].
  apply IH; rewrite Hpush; lia.
Qed.

(** After [init_preprocess] there is a bit-blaster, as deep as the
    solver when the one before was not deeper, and a pipeline. *)
Lemma init_preprocess_on_bb s :
  bit_blaster_counts_scopes →
  (∀ b, m_bb_rewriter s = Some b → bb_get_num_scopes b ≤ m_num_scopes s) →
  ∃ b t, m_bb_rewriter (init_preprocess_on s) = Some b ∧
         m_preprocess (init_preprocess_on s) = Some t ∧
         bb_get_num_scopes b = m_num_scopes s ∧
         m_num_scopes (init_preprocess_on s) = m_num_scopes s.
Proof.
  intros Hc Hs. unfold init_preprocess_on. cbn.
  eexists _, _. split; [done|]. split; [done|]. split; [|done].
  apply bb_align_scopes; [done| |].
  - destruct (m_bb_rewriter s) as [b|]; [by apply Hs|].
    destruct Hc as (-> & _). lia.
  - lia.
Qed.

Lemma internalize_goal_bb g d s r s' :
  bit_blaster_counts_scopes → bb_follows s →
  internalize_goal g d s = Ok (r, s') → bb_follows s'.
Proof.
  intros Hc Hs.
  pose proof Hc as (_ & _ & _ & Htac).
  destruct (internalize_goal_returns g d s)
    as (r0 & g' & d' & s1 & E & _ & Hbook).
  rewrite E. intros [= <- <-].
  assert (m_num_scopes s1 = m_num_scopes s) as Hn
    by (unfold book in Hbook; by simplify_eq).
  unfold bb_follows. rewrite Hn. clear Hbook Hn. revert E.
  set (s0 := set_m_subgoals []
               (set_m_dep_core None (set_m_pc None (set_m_mc None s)))).
  destruct (init_preprocess_on_bb s0 Hc) as (b & t & Eb & Et & Hb & _).
  { intros b Hb. rewrite (Hs b Hb). done. }
  change (m_num_scopes s0) with (m_num_scopes s) in Hb.
  unfold internalize_goal, init_preprocess.
  rewrite (bind_run _ _ s () (set_m_mc None s)) by done.
  rewrite (bind_run _ _ _ () (set_m_pc None (set_m_mc None s))) by done.
  rewrite (bind_run _ _ _ ()
             (set_m_dep_core None (set_m_pc None (set_m_mc None s))))
    by done.
  rewrite (bind_run _ _ _ () s0) by done.
  rewrite (bind_run _ _ s0 () (init_preprocess_on s0)) by done.
  set (s2 := init_preprocess_on s0) in *. clearbody s2.
  rewrite (bind_run _ _ s2 t s2)
    by (unfold bind, gets, defined; by rewrite Et).
  rewrite (bind_run _ _ s2 b s2)
    by (unfold bind, gets, defined; by rewrite Eb).
  destruct (tactic_apply t b g)
    as [?|[[[[[gs mc] pc] dc] bb'] t']] eqn:Etac;
    unfold set_reason_unknown; unfold_monad; cbn.
  { intros [= <- <- <- <-]. by intros ? [=]. }
  apply Htac in Etac.
  destruct gs as [|g1 [|g2 gs]]; cbn;
    [|destruct (goal2sat _ _ _ _ _) as [[[? ?] ?] [|? ?]]; cbn|];
    intros [= <- <- <- <-]; cbn; intros ? [= <-]; congruence.
Qed.

Lemma internalize_formulas_bb s r s' :
  bit_blaster_counts_scopes → bb_follows s →
  internalize_formulas s = Ok (r, s') → bb_follows s'.
Proof.
  intros Hc Hs. unfold internalize_formulas.
  unfold gets at 1. unfold bind at 1. cbn.
  destruct (_ =? _); [by intros [= <- <-]|].
  intros ([[r1 g1] d1] & s1 & E1 & E)%bind_Ok.
  pose proof (internalize_goal_bb _ _ _ _ _ Hc Hs E1) as Hs1.
  cbn in E. destruct (negb _); unfold_monad; cbn in E;
    injection E as <- <-; done.
Qed.

Lemma internalize_assumptions_bb asms (d : dep2asm_t) s r s' :
  bit_blaster_counts_scopes → bb_follows s →
  m_weights s = [] ∨ length asms ≤ length (m_weights s) →
  internalize_assumptions asms d s = Ok (r, s') → bb_follows s'.
Proof.
  intros Hc Hs Hws. unfold internalize_assumptions, get_num_assumptions.
  rewrite (bind_run _ _ s (length (m_asmsf s)) s) by done.
  destruct (_ && _); [by intros [= <- <-]|].
  rewrite (bind_run _ _ s (m_asmsf s) s) by done.
  intros ([[r1 g1] d1] & s1 & E1 & E)%bind_Ok.
  pose proof (internalize_goal_bb _ _ _ _ _ Hc Hs E1) as Hs1.
  match type of E1 with internalize_goal ?g ?d0 s = _ =>
    destruct (internalize_goal_returns g d0 s)
      as (? & ? & ? & ? & E1' & _ & Hbook)
  end.
  rewrite E1 in E1'. injection E1' as <- <- <- <-.
  unfold book in Hbook. cbn [fst snd] in E.
  destruct (lbool_eqb r1 l_true).
  - destruct (extract_assumptions_spec asms d1 s1) as (ws & Ex & _);
      [simplify_eq; congruence|].
    rewrite (bind_run _ _ _ _ _ Ex) in E. injection E as <- <-. done.
  - rewrite (bind_run _ _ s1 () s1) in E by done. by injection E as <- <-.
Qed.

Lemma pop_scope_keeps s s' :
  pop_scope s = Ok ((), s') →
  m_bb_rewriter s' = m_bb_rewriter s ∧ m_num_scopes s' = m_num_scopes s.
Proof.
  unfold pop_scope, resize, back; unfold_monad; cbn.
  destruct (list.last (m_fmls_head_lim s)); [|done]; cbn.
  destruct (list.last (m_fmls_lim s)); [|done]; cbn.
  destruct (_ <=? _); [|done]; cbn.
  destruct (list.last (m_asms_lim s)); [|done]; cbn.
  destruct (_ <=? _); [|done]; cbn.
  by intros [= <-].
Qed.

Lemma pop_loop_keeps n s s' :
  pop_loop n s = Ok ((), s') →
  m_bb_rewriter s' = m_bb_rewriter s ∧ m_num_scopes s' = m_num_scopes s.
Proof.
  revert s. induction n as [|n IH]; intros s; cbn.
  { by intros [= <-]. }
  intros ([] & s1 & E1 & E)%bind_Ok.
  apply pop_scope_keeps in E1 as [<- <-]. by apply IH.
Qed.

(** X14: with a bit-blaster that counts its scopes, the bit-blaster of
    the solver, whenever there is one, is exactly as deep in scopes as
    the solver: in a new solver and after every [assert_expr], [push()],
    [pop(n)], [internalize_formulas()] and [check_sat] that returns; the
    loop at the end of [init_preprocess] brings a bit-blaster made
    afresh inside open scopes to the depth of the solver. *)
Theorem bit_blaster_follows_scopes :
  bit_blaster_counts_scopes →
  (∀ p, bb_follows (inc_sat_solver_new p)) ∧
  (∀ s b, m_bb_rewriter s = None →
          m_bb_rewriter (init_preprocess_on s) = Some b →
          bb_get_num_scopes b = m_num_scopes s) ∧
  ∀ s, bb_follows s →
    (∀ t s', assert_expr t s = Ok ((), s') → bb_follows s') ∧
    (∀ t a s', assert_expr2 t a s = Ok ((), s') → bb_follows s') ∧
    (∀ s', push s = Ok ((), s') → bb_follows s') ∧
    (∀ n s', pop n s = Ok ((), s') → bb_follows s') ∧
    (∀ r s', internalize_formulas s = Ok (r, s') → bb_follows s') ∧
    (∀ asms ws mw r s',
       check_sat asms ws mw s = Ok (r, s') → bb_follows s').
Proof.
  intros Hc. pose proof Hc as (Hmk & Hpush & Hpop & _).
  split; [|split].
  { intros p b. cbn. intros [= <-]. apply Hmk. }
  { intros s b Hnone Eb.
    destruct (init_preprocess_on_bb s Hc) as (b' & _ & Eb' & _ & Hb' & _).
    { intros ?. by rewrite Hnone. }
    congruence. }
  intros s Hs. split; [|split; [|split; [|split; [|split]]]].
  - by intros t s' [= <-].
  - by intros t [a|] s' [= <-].
  - intros s' E. unfold push in E.
    apply bind_Ok in E as (r1 & s1 & E1 & E).
    pose proof (internalize_formulas_bb _ _ _ Hc Hs E1) as Hs1.
    destruct (internalize_formulas_returns s)
      as (? & ? & E1' & _ & _ & _ & _ & _ & Hn & _).
    rewrite E1 in E1'. injection E1' as <- <-.
    unfold_monad. cbn in E. injection E as <-. unfold bb_follows. cbn.
    destruct (m_bb_rewriter s1) as [b1|] eqn:Eb1; cbn; [|done].
    intros ? [= <-]. rewrite Hpush, (Hs1 b1 Eb1). done.
  - intros n s'. unfold pop. unfold gets, modify, bind at 1 2 3 4 5. cbn.
    intros [Eb En]%pop_loop_keeps. cbn in Eb, En.
    unfold bb_follows. rewrite Eb, En.
    destruct (m_bb_rewriter s) as [b0|] eqn:Eb0; cbn; [|done].
    intros ? [= <-]. rewrite Hpop, (Hs b0 Eb0); [done|].
    rewrite (Hs b0 Eb0). destruct (Nat.ltb_spec (m_num_scopes s) n); lia.
  - intros r s'. by apply internalize_formulas_bb.
  - intros asms ws mw r s'.
    destruct (check_sat_run asms ws mw s)
      as [(ws' & _ & _ & ->)|(ws' & r1 & s1 & Hws & Hwsd & E1 & Hrun)]; [done|].
    assert (bb_follows (check_sat_start ws' s)) as Hs0 by exact Hs.
    pose proof (internalize_formulas_bb _ _ _ Hc Hs0 E1) as Hs1.
    destruct Hrun as [[_ ->]|[_ (r2 & d & s2 & E2 & Hw1 & Hrun)]];
      [by intros [= <- <-]|].
    pose proof (internalize_assumptions_bb _ _ _ _ _ Hc Hs1 Hw1 E2) as Hs2.
    destruct Hrun as [[_ ->]|[_ (r0 & solver & Ec & Hrun)]];
      [by intros [= <- <-]|].
    cbn zeta in Hrun. destruct r0.
    + destruct (empty (m_asms s2)); [rewrite Hrun; by intros [= <- <-]|].
      destruct (mapM _ _) as [es|]; rewrite Hrun; [|done].
      by intros [= <- <-].
    + rewrite Hrun. by intros [= <- <-].
    + destruct (_ && _); [destruct Hrun as [[_ ->]|[_ ->]]|rewrite Hrun];
        try done; by intros [= <- <-].
Qed.

(** ** Variables of a consequence query *)

Lemma internalize_bits_prefix map bits internalized bvars :
  bvars `prefix_of` (internalize_bits map bits internalized bvars).2.
Proof.
  revert internalized bvars.
  induction bits as [|bit bits IH]; intros i bvars; cbn; [done|].
  destruct (_ =? _)%N; [apply IH|].
  etrans; [|apply IH]. by apply prefix_app_r.
Qed.

Lemma internalize_bits_true map bits internalized bvars :
  (internalize_bits map bits internalized bvars).1 = true →
  internalized = true ∧
  (internalize_bits map bits internalized bvars).2 =
    bvars ++ (to_bool_var map <$> bits) ∧
  Forall (λ bit, to_bool_var map bit ≠ null_bool_var) bits.
Proof.
  revert internalized bvars.
  induction bits as [|bit bits IH]; intros i bvars; cbn.
  { intros ->. by rewrite app_nil_r. }
  destruct (N.eqb_spec (to_bool_var map bit) null_bool_var) as [Heq|Hne].
  - intros H. by apply IH in H as [? _].
  - intros H. apply IH in H as (-> & -> & Hall).
    split; [done|]. split; [|by constructor].
    unfold push_back. by rewrite <- app_assoc.
Qed.

Lemma internalize_bits_false map bits internalized bvars bit :
  bit ∈ bits → to_bool_var map bit = null_bool_var →
  (internalize_bits map bits internalized bvars).1 = false.
Proof.
  intros Hin Hnull.
  destruct (internalize_bits map bits internalized bvars).1 eqn:E; [|done].
  apply internalize_bits_true in E as (_ & _ & Hall).
  rewrite Forall_forall in Hall. apply list_elem_of_In in Hin.
  by destruct (Hall bit Hin).
Qed.

Lemma internalize_var_run v bvars s bb :
  m_bb_rewriter s = Some bb →
  ∃ b bvars',
    internalize_var v bvars s = Ok ((b, bvars'), s) ∧
    bvars `prefix_of` bvars' ∧
    (b = true →
     is_uninterp_const v = true ∧
     ((is_bool v = true ∧
       bvars' = bvars ++ [to_bool_var (m_map s) v] ∧
       to_bool_var (m_map s) v ≠ null_bool_var) ∨
      (is_bool v = false ∧
       ∃ bits, bb_const2bits bb !! get_decl v = Some bits ∧
               bvars' = bvars ++ (to_bool_var (m_map s) <$> bits) ∧
               Forall (λ bit, to_bool_var (m_map s) bit ≠ null_bool_var)
                      bits))).
Proof.
  intros Ebb. unfold internalize_var.
  rewrite (bind_run _ _ s bb s)
    by (unfold bind, gets, defined; by rewrite Ebb).
  rewrite (bind_run _ _ s (m_map s) s) by done.
  destruct (is_uninterp_const v) eqn:Ec; cbn [andb].
  2:{ eexists _, _. split; [done|]. split; [done|]. done. }
  destruct (is_bool v) eqn:Eb.
  - destruct (N.eqb_spec (to_bool_var (m_map s) v) null_bool_var)
      as [Heq|Hne]; cbn [negb].
    + eexists _, _. split; [done|]. split; [done|]. done.
    + eexists _, _. split; [done|]. split; [by apply prefix_app_r|].
      intros _. split; [done|]. by left.
  - destruct (bb_const2bits bb !! get_decl v) as [bits|] eqn:Ebits.
    2:{ eexists _, _. split; [done|]. split; [done|]. done. }
    destruct (internalize_bits (m_map s) bits true bvars) as [b bvars']
      eqn:Ei.
    exists b, bvars'. split; [done|].
    split.
    { pose proof (internalize_bits_prefix (m_map s) bits true bvars) as Hp.
      by rewrite Ei in Hp. }
    intros ->. split; [done|]. right. split; [done|].
    pose proof (internalize_bits_true (m_map s) bits true bvars) as Ht.
    rewrite Ei in Ht. cbn in Ht. destruct (Ht eq_refl) as (_ & -> & Hall).
    by exists bits.
Qed.

Lemma internalize_vars_run vars bvars s bb :
  m_bb_rewriter s = Some bb →
  ∃ bvars',
    internalize_vars vars bvars s = Ok ((l_true, bvars'), s) ∧
    bvars `prefix_of` bvars'.
Proof.
  intros Ebb. revert bvars.
  induction vars as [|v vars IH]; intros bvars; cbn.
  { by eexists. }
  destruct (internalize_var_run v bvars s bb Ebb)
    as (b & bvars1 & E & Hp & _).
  rewrite (bind_run _ _ _ _ _ E). cbn.
  destruct (IH bvars1) as (bvars' & E' & Hp').
  exists bvars'. split; [done|]. by etrans.
Qed.

(** X15: with a bit-blaster in place, [internalize_var] returns and
    leaves the object alone, and its vector only grows.  It answers true
    for a boolean constant that has a SAT variable, which it appends, and
    for a constant the bit-blaster has bits for when every bit has a SAT
    variable; then exactly those variables are appended, in bit order.
    It answers false for everything that is no uninterpreted constant
    and whenever a bit lacks its variable.  Without a bit-blaster the
    call leaves defined behaviour. *)
Theorem internalize_var_all_bits v bvars s :
  match m_bb_rewriter s with
  | Some bb =>
      ∃ b bvars',
        internalize_var v bvars s = Ok ((b, bvars'), s) ∧
        bvars `prefix_of` bvars' ∧
        (b = true →
         is_uninterp_const v = true ∧
         ((is_bool v = true ∧
           bvars' = bvars ++ [to_bool_var (m_map s) v] ∧
           to_bool_var (m_map s) v ≠ null_bool_var) ∨
          (is_bool v = false ∧
           ∃ bits,
             bb_const2bits bb !! get_decl v = Some bits ∧
             bvars' = bvars ++ (to_bool_var (m_map s) <$> bits) ∧
             Forall (λ bit, to_bool_var (m_map s) bit ≠ null_bool_var)
                    bits))) ∧
        (is_uninterp_const v = false → b = false ∧ bvars' = bvars) ∧
        (∀ bits bit,
           is_uninterp_const v = true → is_bool v = false →
           bb_const2bits bb !! get_decl v = Some bits →
           bit ∈ bits → to_bool_var (m_map s) bit = null_bool_var →
           b = false)
  | None =>
      internalize_var v bvars s =
        Err (undefined_behaviour "m_bb_rewriter is null")
  end.
Proof.
  destruct (m_bb_rewriter s) as [bb|] eqn:Ebb.
  2:{ unfold internalize_var, bind, gets, defined. by rewrite Ebb. }
  destruct (internalize_var_run v bvars s bb Ebb)
    as (b & bvars' & E & Hp & Ht).
  exists b, bvars'. split; [done|]. split; [done|]. split; [done|].
  revert E. unfold internalize_var.
  rewrite (bind_run _ _ s bb s)
    by (unfold bind, gets, defined; by rewrite Ebb).
  rewrite (bind_run _ _ s (m_map s) s) by done.
  split.
  - intros Hc. rewrite Hc in E. cbn in E. unfold ret in E. by simplify_eq.
  - intros bits bit Hc Hb Hbits Hin Hnull.
    rewrite Hc, Hb, Hbits in E. cbn in E. unfold ret in E.
    injection E as E.
    pose proof (internalize_bits_false (m_map s) bits true bvars bit
                  Hin Hnull) as Hf.
    rewrite E in Hf. done.
Qed.

(** X16: with a bit-blaster in place [internalize_vars] has no answer
    but [l_true]: it returns for every vector of terms, leaves the object
    alone and only appends to its vector, whatever it could not
    internalize. *)
Theorem internalize_vars_never_fails vars bvars s :
  match m_bb_rewriter s with
  | Some _ =>
      ∃ bvars',
        internalize_vars vars bvars s = Ok ((l_true, bvars'), s) ∧
        bvars `prefix_of` bvars'
  | None =>
      vars ≠ [] →
      internalize_vars vars bvars s =
        Err (undefined_behaviour "m_bb_rewriter is null")
  end.
Proof.
  destruct (m_bb_rewriter s) as [bb|] eqn:Ebb.
  - by eapply internalize_vars_run.
  - destruct vars as [|v vars]; [done|]. intros _. cbn.
    unfold bind at 1. unfold internalize_var, bind, gets, defined.
    by rewrite Ebb.
Qed.

(** ** Consequences *)

Lemma index_conseq_spec lconseq i (acc : gmap N nat) s :
  Forall (λ c : list literal, c ≠ []) lconseq →
  ∃ b2c : gmap N nat,
    index_conseq lconseq i acc s = Ok (b2c, s) ∧
    ∀ b k, b2c !! b = Some k →
           acc !! b = Some k ∨
           ∃ c l0, lconseq !! (k - i) = Some c ∧ i ≤ k ∧ c !! 0 = Some l0.
Proof.
  revert i acc. induction lconseq as [|c lconseq IH]; intros i acc Hne; cbn.
  { eexists. split; [done|]. auto. }
  apply Forall_cons_1 in Hne as [Hc Hne].
  destruct c as [|l0 c]; [done|]. cbn.
  destruct (IH (S i) (<[lit_var l0 := i]> acc) Hne) as (b2c & E & Hb2c).
  exists b2c. split; [done|]. intros b k Hk.
  destruct (Hb2c b k Hk) as [Hacc|(c' & l' & Hc' & Hik & Hl')].
  - destruct (decide (lit_var l0 = b)) as [<-|Hneq].
    + rewrite lookup_insert_eq in Hacc. injection Hacc as <-.
      right. exists (l0 :: c), l0. rewrite Nat.sub_diag. done.
    + rewrite lookup_insert_ne in Hacc by done. by left.
  - right. exists c', l'. split; [|split; [lia|done]].
    replace (k - i) with (S (k - S i)) by lia. done.
Qed.

Lemma literal_set_insert_elem (premises : literal_set) l p :
  p ∈ literal_set_insert l premises ↔ p = l ∨ p ∈ premises.
Proof.
  unfold literal_set_insert, push_back. case_bool_decide as Hin.
  - split; [by right|]. by intros [->|?].
  - rewrite elem_of_app, list_elem_of_singleton. tauto.
Qed.

Lemma premises_fold (premises : literal_set) (ls : list literal) p :
  p ∈ foldl (λ (P : literal_set) l, literal_set_insert l P) premises ls ↔
  p ∈ premises ∨ p ∈ ls.
Proof.
  revert premises. induction ls as [|l ls IH]; intros premises; cbn.
  { rewrite elem_of_nil. tauto. }
  rewrite IH, literal_set_insert_elem, elem_of_cons. tauto.
Qed.

Lemma collect_value_spec (b2c : gmap N nat) lconseq bvars value
    (premises : literal_set) s :
  (∀ b k, b2c !! b = Some k →
          ∃ c l0, lconseq !! k = Some c ∧ c !! 0 = Some l0) →
  ∃ res,
    collect_value b2c lconseq bvars value premises s = Ok (res, s) ∧
    ∀ value' (premises' : literal_set),
      res = Some (value', premises') →
      (∃ vals, value' = value ++ vals ∧ length vals = length bvars) ∧
      ∀ p, p ∈ premises' →
           p ∈ premises ∨ ∃ c, c ∈ lconseq ∧ p ∈ drop 1 c.
Proof.
  intros Hb2c. revert value premises.
  induction bvars as [|b bvars IH]; intros value premises; cbn.
  { eexists. split; [done|]. intros ? ? [= <- <-].
    split; [exists []; by rewrite app_nil_r|auto]. }
  destruct (b2c !! b) as [k|] eqn:Ek.
  2:{ eexists. split; [done|]. done. }
  destruct (Hb2c b k Ek) as (c & l0 & Hc & Hl0).
  unfold bind at 1. unfold defined at 1. rewrite Hc. cbn.
  unfold bind at 1. unfold defined at 1. rewrite Hl0. cbn.
  destruct (IH (push_back l0 value)
               (foldl (λ (P : literal_set) l, literal_set_insert l P)
                      premises (drop 1 c)))
    as (res & E & Hres).
  exists res. split; [done|]. intros value' premises' ->.
  destruct (Hres _ _ eq_refl) as [(vals & -> & Hlen) Hprem].
  split.
  - exists (l0 :: vals). unfold push_back. rewrite <- app_assoc. cbn.
    split; [done|]. by rewrite Hlen.
  - intros p Hp. destruct (Hprem p Hp) as [Hin|?]; [|by right].
    apply premises_fold in Hin as [?|?]; [by left|right].
    exists c. split; [|done]. by eapply list_elem_of_lookup_2.
Qed.

Lemma premises_loop_spec (asm2dep : gmap N expr) premises conj s :
  premises_loop asm2dep premises conj s =
    match mapM (λ l, asm2dep !! lit_index l) premises with
    | Some es => Ok (conj ++ es, s)
    | None => Err verify_failed
    end.
Proof.
  revert conj. induction premises as [|l ls IH]; intros conj; cbn.
  { by rewrite app_nil_r. }
  destruct (asm2dep !! lit_index l) as [e|]; cbn; [|done].
  rewrite IH. destruct (mapM _ ls); cbn; [|done].
  unfold push_back. by rewrite <- app_assoc.
Qed.

Lemma set_m_exps_same (s : inc_sat_solver) : set_m_exps (m_exps s) s = s.
Proof. by destruct s. Qed.

Lemma extract_fixed_variable_spec (d : dep2asm_t) (asm2dep : gmap N expr)
    v (b2c : gmap N nat) lconseq s bb :
  const2bits_of_bit_vectors →
  m_bb_rewriter s = Some bb → exps_ok (m_exps s) →
  (∀ b k, b2c !! b = Some k →
          ∃ c l0, lconseq !! k = Some c ∧ c !! 0 = Some l0) →
  (∀ c p, c ∈ lconseq → p ∈ drop 1 c →
          is_Some (asm2dep !! lit_index p)) →
  ∃ res exps,
    extract_fixed_variable d asm2dep v b2c lconseq s =
      Ok (res, set_m_exps exps s) ∧
    exps_ok exps ∧
    ∀ c, res = Some c →
         consequence_of (λ e, ∃ l, asm2dep !! lit_index l = Some e) v c.
Proof.
  intros Hbv Ebb Hok Hb2c Hprem. unfold extract_fixed_variable.
  destruct (internalize_var_run v [] s bb Ebb)
    as (b & bvars & E & _ & Ht).
  rewrite (bind_run _ _ _ _ _ E). cbn [fst snd].
  destruct b; cbn [negb].
  2:{ exists None, (m_exps s). rewrite set_m_exps_same. by repeat split. }
  destruct (Ht eq_refl) as [Hconst Hcase]. clear Ht.
  destruct (collect_value_spec b2c lconseq bvars [] [] s Hb2c)
    as (vp & Ev & Hvp).
  rewrite (bind_run _ _ _ _ _ Ev).
  destruct vp as [[value premises]|].
  2:{ exists None, (m_exps s). rewrite set_m_exps_same. by repeat split. }
  destruct (Hvp _ _ eq_refl) as [(vals & Evals & Hlen) Hp]. cbn in Evals.
  subst vals.
  assert (∃ es, mapM (λ l, asm2dep !! lit_index l) (reverse premises) =
                Some es ∧
                ∀ e, e ∈ es → ∃ l, asm2dep !! lit_index l = Some e)
    as (es & Ees & Hes).
  { destruct (mapM (λ l, asm2dep !! lit_index l) (reverse premises))
      as [es|] eqn:Em.
    - exists es. split; [done|]. intros e He.
      apply mapM_Some_1 in Em.
      apply list_elem_of_lookup in He as [i Hi].
      destruct (Forall2_lookup_r _ _ _ i e Em Hi) as (l & _ & Hl). eauto.
    - exfalso. apply mapM_None_1, Exists_exists in Em as (l & Hl & Hnone).
      apply list_elem_of_In in Hl. rewrite elem_of_reverse in Hl.
      destruct (Hp l Hl) as [Hl'|(c & Hc & Hl')];
        [by apply elem_of_nil in Hl'|].
      destruct (Hprem c l Hc Hl') as [e He]. congruence. }
  destruct (internalize_value_returns value v s Hok Hconst)
    as [Hbool Hbits].
  destruct Hcase as [(Hb & -> & _)|(Hb & bits & Hfind & -> & _)].
  - (* a boolean constant *)
    cbn in Hlen. destruct value as [|l [|? ?]]; try done.
    assert (get_sort v = BoolSort) as Hsort.
    { unfold is_bool in Hb. by destruct (get_sort v). }
    rewrite (bind_run _ _ _ _ _ (Hbool Hsort l eq_refl)).
    unfold bind at 1. rewrite premises_loop_spec, Ees. cbn. unfold ret.
    eexists _, (m_exps s). rewrite set_m_exps_same. split; [done|].
    split; [done|]. intros c [= <-].
    eexists _, _. split; [done|]. split; [done|].
    destruct (lit_sign l); auto.
  - (* a bit-vector constant *)
    destruct (Hbv bb _ _ Hfind) as (n & w & Hdecl).
    assert (is_bv_sort (get_sort v) = true) as Hsort.
    { destruct v; try done. cbn in Hdecl. by injection Hdecl as -> ->. }
    destruct (Hbits Hsort) as (exps & Eval & Hok').
    rewrite (bind_run _ _ _ _ _ Eval).
    unfold bind at 1. rewrite premises_loop_spec, Ees. cbn. unfold ret.
    eexists _, exps. split; [done|]. split; [done|]. intros c [= <-].
    eexists _, _. split; [done|]. split; [done|].
    right. right. eexists _, _. split; [done|].
    pose proof (bits_value_bounds value 0) as Hbd. cbn in Hbd. lia.
Qed.

Lemma extract_fixed_spec (d : dep2asm_t) (asm2dep : gmap N expr) vars
    (b2c : gmap N nat) lconseq conseq s bb :
  const2bits_of_bit_vectors →
  m_bb_rewriter s = Some bb → exps_ok (m_exps s) →
  (∀ b k, b2c !! b = Some k →
          ∃ c l0, lconseq !! k = Some c ∧ c !! 0 = Some l0) →
  (∀ c p, c ∈ lconseq → p ∈ drop 1 c →
          is_Some (asm2dep !! lit_index p)) →
  ∃ new exps,
    extract_fixed d asm2dep vars b2c lconseq conseq s =
      Ok (conseq ++ new, set_m_exps exps s) ∧
    exps_ok exps ∧ length new ≤ length vars ∧
    ∀ c, c ∈ new →
         ∃ v, v ∈ vars ∧
              consequence_of (λ e, ∃ l, asm2dep !! lit_index l = Some e)
                             v c.
Proof.
  intros Hbv Ebb Hok Hb2c Hprem. revert conseq s Ebb Hok.
  induction vars as [|v vars IH]; intros conseq s Ebb Hok; cbn.
  { exists [], (m_exps s). rewrite app_nil_r, set_m_exps_same.
    split; [done|]. split; [done|]. split; [done|].
    by intros c ?%elem_of_nil. }
  destruct (extract_fixed_variable_spec d asm2dep v b2c lconseq s bb
              Hbv Ebb Hok Hb2c Hprem) as (res & exps & E & Hok1 & Hres).
  rewrite (bind_run _ _ _ _ _ E).
  destruct (IH (match res with
                | Some e => push_back e conseq
                | None => conseq
                end) (set_m_exps exps s) Ebb Hok1)
    as (new & exps' & E' & Hok' & Hlen & Hnew).
  rewrite E'. destruct res as [c0|].
  - exists (c0 :: new), exps'. unfold push_back. rewrite <- app_assoc.
    split; [done|]. split; [done|]. split; [cbn; lia|].
    intros c [->|Hc]%elem_of_cons.
    + exists v. split; [apply list_elem_of_here|]. by apply Hres.
    + destruct (Hnew c Hc) as (v' & Hv' & Hcv').
      exists v'. split; [by apply list_elem_of_further|done].
  - exists new, exps'. split; [done|]. split; [done|]. split; [lia|].
    intros c Hc. destruct (Hnew c Hc) as (v' & Hv' & Hcv').
    exists v'. split; [by apply list_elem_of_further|done].
Qed.

Lemma consequence_of_mono (P Q : expr → Prop) v c :
  (∀ e, P e → Q e) → consequence_of P v c → consequence_of Q v c.
Proof.
  intros HPQ (conj & val & -> & Hconj & Hval).
  exists conj, val. split; [done|]. split; [|done]. auto.
Qed.

(** What [get_consequences_core] does when the components keep their
    contracts: it returns; the shape of what it appends; and what it
    leaves alone. *)
Lemma get_consequences_core_spec assumptions vars conseq s :
  deps_within_leaves → consequences_within_assumptions →
  const2bits_of_bit_vectors →
  exps_ok (m_exps s) →
  m_weights s = [] ∨ length assumptions ≤ length (m_weights s) →
  ∃ r new s',
    get_consequences_core assumptions vars conseq s =
      Ok ((r, conseq ++ new), s') ∧
    (exps_ok (m_exps s') ∧ length new ≤ length vars ∧
     (r = l_false → new = []) ∧
     ∀ c, c ∈ new →
          ∃ v, v ∈ vars ∧
               consequence_of (λ e, e ∈ assumptions ∨ e ∈ m_asmsf s) v c) ∧
    m_model s' = m_model s ∧ m_fmls s' = m_fmls s ∧
    m_asmsf s' = m_asmsf s ∧ m_num_scopes s' = m_num_scopes s ∧
    (r ≠ l_false ∨ m_asms s' = [] → m_core s' = m_core s).
Proof.
  intros Hdeps Hcons Hbv Hok Hws.
  assert (∀ r (s' : inc_sat_solver),
            m_exps s' = m_exps s → m_model s' = m_model s →
            m_fmls s' = m_fmls s → m_asmsf s' = m_asmsf s →
            m_num_scopes s' = m_num_scopes s →
            (r ≠ l_false ∨ m_asms s' = [] → m_core s' = m_core s) →
            ∃ r0 new s0,
              Ok (r, conseq, s') = Ok (r0, conseq ++ new, s0) ∧
              (exps_ok (m_exps s0) ∧ length new ≤ length vars ∧
               (r0 = l_false → new = []) ∧
               ∀ c, c ∈ new →
                    ∃ v, v ∈ vars ∧
                         consequence_of
                           (λ e, e ∈ assumptions ∨ e ∈ m_asmsf s) v c) ∧
              m_model s0 = m_model s ∧ m_fmls s0 = m_fmls s ∧
              m_asmsf s0 = m_asmsf s ∧ m_num_scopes s0 = m_num_scopes s ∧
              (r0 ≠ l_false ∨ m_asms s0 = [] → m_core s0 = m_core s))
    as Hstop.
  { intros r s' He Hm Hf Ha Hn Hc. exists r, [], s'. rewrite app_nil_r, He.
    split; [done|]. split; [|done].
    split; [done|]. split; [cbn; lia|].
    split; [done|]. by intros c ?%elem_of_nil. }
  unfold get_consequences_core, init_preprocess.
  rewrite (bind_run _ _ s () (init_preprocess_on s)) by done.
  set (sa := init_preprocess_on s).
  rewrite (bind_run _ _ sa ()
             (set_m_solver (sat_pop_to_base_level (m_solver sa)) sa))
    by done.
  set (sb := set_m_solver _ sa).
  assert (is_Some (m_bb_rewriter sb)) as Hbbb by (cbn; eauto).
  destruct (internalize_formulas_returns sb)
    as (r1 & s1 & E1 & Hf1 & Ha1 & _ & _ & _ & Hn1 & Hc1 & Hm1 & Hw1 & Hr1).
  pose proof (internalize_formulas_more _ _ _ E1)
    as (_ & _ & _ & _ & He1 & Ht1 & _).
  cbn in Hf1, Ha1, Hn1, Hc1, Hm1, Hw1, He1.
  rewrite (bind_run _ _ _ _ _ E1).
  assert (r1 = l_true ∨ r1 = l_undef) as [-> | ->]
    by (destruct Hr1 as [[-> _]|[-> _]]; auto); cbn [lbool_eqb negb];
    [|by apply Hstop].
  destruct (Ht1 eq_refl) as [_ Hbb1].
  destruct (Hbb1 Hbbb) as [bb1 Ebb1]. clear Ht1 Hbb1.
  destruct (internalize_vars_run vars [] s1 bb1 Ebb1) as (bvars & Ev & _).
  rewrite (bind_run _ _ _ _ _ Ev). cbn [fst snd lbool_eqb negb].
  assert (m_weights s1 = [] ∨ length assumptions ≤ length (m_weights s1))
    as Hws1 by (by rewrite Hw1).
  destruct (internalize_assumptions_spec assumptions s1 Hws1)
    as (r2 & d & s2 & E2 & Hr2 & Ha2 & Hc2 & Hf2 & Hm2 & Hasms & Hdom).
  pose proof (internalize_assumptions_more _ _ _ _ _ Hws1 E2)
    as (_ & _ & _ & He2 & _ & Hn2 & _ & _ & _ & Ht2 & _).
  rewrite (bind_run _ _ _ _ _ E2). cbn [fst snd].
  destruct Hr2 as [-> | ->]; cbn [lbool_eqb negb];
    [|apply Hstop; congruence].
  destruct (Hasms eq_refl) as [Hasms' _]. clear Hasms.
  destruct (Ht2 eq_refl) as [_ Hbb2].
  destruct (Hbb2 (ex_intro _ bb1 Ebb1)) as [bb2 Ebb2]. clear Ht2 Hbb2.
  specialize (Hdom Hdeps). rewrite Ha1 in Hdom, Hasms'.
  rewrite (bind_run _ _ s2 s2 s2) by done.
  destruct (sat_get_consequences (m_asms s2) bvars (m_solver s2))
    as [[r lconseq] solver] eqn:Ec.
  destruct (Hcons _ _ _ _ _ _ Ec) as [Hcl Hcore].
  rewrite (bind_run _ _ s2 () (set_m_solver solver s2)) by done.
  set (s3 := set_m_solver solver s2).
  assert (∀ l, l ∈ m_asms s2 →
               is_Some (extract_asm2dep d ∅ !! lit_index l)) as Hidx.
  { intros l Hl. rewrite Hasms' in Hl.
    apply list_elem_of_omap in Hl as (e & _ & He).
    by eapply extract_asm2dep_is_Some. }
  assert (lbool_eqb r l_false = false →
          ∃ r0 new s0,
            bind (index_conseq lconseq 0 ∅)
              (λ bool_var2conseq,
                 bind (extract_fixed d (extract_asm2dep d ∅) vars
                         bool_var2conseq lconseq conseq)
                   (λ conseq0, ret (r, conseq0))) s3 =
              Ok (r0, conseq ++ new, s0) ∧
            (exps_ok (m_exps s0) ∧ length new ≤ length vars ∧
             (r0 = l_false → new = []) ∧
             ∀ c, c ∈ new →
                  ∃ v, v ∈ vars ∧
                       consequence_of
                         (λ e, e ∈ assumptions ∨ e ∈ m_asmsf s) v c) ∧
            m_model s0 = m_model s ∧ m_fmls s0 = m_fmls s ∧
            m_asmsf s0 = m_asmsf s ∧ m_num_scopes s0 = m_num_scopes s ∧
            (r0 ≠ l_false ∨ m_asms s0 = [] → m_core s0 = m_core s))
    as Hextract.
  { intros Hr.
    destruct (index_conseq_spec lconseq 0 ∅ s3) as (b2c & Ei & Hb2c).
    { apply Forall_forall. intros c Hc%list_elem_of_In.
      by apply Hcl. }
    rewrite (bind_run _ _ _ _ _ Ei).
    destruct (extract_fixed_spec d (extract_asm2dep d ∅) vars b2c lconseq
                conseq s3 bb2 Hbv Ebb2)
      as (new & exps & Ex & Hok' & Hlen & Hnew).
    - cbn. by rewrite He2, He1.
    - intros b k Hk. destruct (Hb2c b k Hk) as [Hx|(c & l0 & Hc & _ & Hl0)].
      + by rewrite lookup_empty in Hx.
      + rewrite Nat.sub_0_r in Hc. eauto.
    - intros c p Hc Hp. apply Hidx. by apply (Hcl c Hc).
    - rewrite (bind_run _ _ _ _ _ Ex). unfold ret.
      exists r, new, (set_m_exps exps s3). split; [done|].
      split; [|cbn; repeat split; congruence].
      split; [done|]. split; [done|].
      split; [intros ->; discriminate Hr|].
      intros c Hc. destruct (Hnew c Hc) as (v & Hv & Hcv).
      exists v. split; [done|].
      eapply consequence_of_mono; [|exact Hcv].
      intros e [l He]. apply Hdom.
      apply extract_asm2dep_lookup in He. eauto. }
  destruct r; cbn [lbool_eqb]; [|by apply Hextract|by apply Hextract].
  clear Hextract.
  rewrite (bind_run _ _ s3 (m_asms s2) s3) by done.
  destruct (m_asms s2) as [|lit lits] eqn:Elits; cbn [empty negb].
  { rewrite (bind_run _ _ s3 () s3) by done.
    apply Hstop; cbn; congruence. }
  rewrite <- Elits in *.
  pose proof (extract_core_spec d s3) as Ex.
  destruct (mapM _ (sat_get_core (m_solver s3))) as [es|] eqn:Em.
  - rewrite (bind_run _ _ _ _ _ Ex).
    apply Hstop; cbn; try congruence.
    intros [?|Hnil]; [done|]. rewrite Hnil in Elits. discriminate.
  - exfalso. apply mapM_None_1, Exists_exists in Em as (l & Hl & Hnone).
    apply list_elem_of_In in Hl. cbn in Hl.
    apply (Hcore eq_refl), Hidx in Hl as [? Hl]. congruence.
Qed.

(** X17: with a pipeline that records only dependency leaves it was
    given, an engine whose consequences name only assumption literals as
    premises, a bit-blaster that keeps bits for bit-vector constants
    only, the cache of powers in order and weights that are absent or
    cover the assumptions, [get_consequences_core] returns.  It keeps
    the consequences it was handed and appends at most one per variable
    asked about, none when it answers unsat; each new one is an
    implication for one of these variables: its premises are
    call-supplied or standing assumptions, and its conclusion is the
    variable, its negation, or the equation of the variable with a
    numeral that fits its width. *)
Theorem consequences_shape assumptions vars conseq s :
  deps_within_leaves → consequences_within_assumptions →
  const2bits_of_bit_vectors →
  exps_ok (m_exps s) →
  m_weights s = [] ∨ length assumptions ≤ length (m_weights s) →
  ∃ r new s',
    get_consequences_core assumptions vars conseq s =
      Ok ((r, conseq ++ new), s') ∧
    exps_ok (m_exps s') ∧ length new ≤ length vars ∧
    (r = l_false → new = []) ∧
    ∀ c, c ∈ new →
         ∃ v, v ∈ vars ∧
              consequence_of (λ e, e ∈ assumptions ∨ e ∈ m_asmsf s) v c.
Proof.
  intros Hdeps Hcons Hbv Hok Hws.
  destruct (get_consequences_core_spec assumptions vars conseq s
              Hdeps Hcons Hbv Hok Hws) as (r & new & s' & E & Hshape & _).
  by exists r, new, s'.
Qed.

(** X24: under the same conditions, [get_consequences_core], unlike
    [check_sat], does not drop the cached model: a model cached before
    the query is what [get_model] hands out after it.  The query also
    leaves the formulas, the assumptions and the scope depth as they
    were, and writes the core only when it answers unsat with a
    non-empty assumption literal list. *)
Theorem consequences_keep_cached_model assumptions vars conseq s :
  deps_within_leaves → consequences_within_assumptions →
  const2bits_of_bit_vectors →
  exps_ok (m_exps s) →
  m_weights s = [] ∨ length assumptions ≤ length (m_weights s) →
  ∃ r out s',
    get_consequences_core assumptions vars conseq s = Ok ((r, out), s') ∧
    m_model s' = m_model s ∧
    (∀ md, m_model s = Some md → get_model s' = Ok (Some md, s')) ∧
    m_fmls s' = m_fmls s ∧ m_asmsf s' = m_asmsf s ∧
    m_num_scopes s' = m_num_scopes s ∧
    (r ≠ l_false ∨ m_asms s' = [] → m_core s' = m_core s).
Proof.
  intros Hdeps Hcons Hbv Hok Hws.
  destruct (get_consequences_core_spec assumptions vars conseq s
              Hdeps Hcons Hbv Hok Hws)
    as (r & new & s' & E & _ & Hm & Hf & Ha & Hn & Hc).
  exists r, (conseq ++ new), s'. repeat split; try done.
  intros md Hmd. unfold get_model; unfold_monad; cbn.
  rewrite Hm, Hmd. cbn. by rewrite Hm, Hmd.
Qed.

(** ** A model is extracted once *)

(** X18: [get_model] always returns, and what it returns is what it
    leaves cached; it writes nothing but [m_model] and [m_mc0]; and when
    the model it returned is not null, a second [get_model] returns the
    same model and changes nothing at all. *)
Theorem get_model_caches s :
  ∃ r s',
    get_model s = Ok (r, s') ∧ m_model s' = r ∧
    book (set_m_model (m_model s) s') = book s ∧
    m_solver s' = m_solver s ∧ m_map s' = m_map s ∧
    m_bb_rewriter s' = m_bb_rewriter s ∧ m_unknown s' = m_unknown s ∧
    (is_Some r → get_model s' = Ok (r, s')).
Proof.
  assert (∀ (s0 : inc_sat_solver) md,
            m_model s0 = Some md → get_model s0 = Ok (Some md, s0)) as Hhit.
  { intros s0 md Hmd. unfold get_model; unfold_monad; cbn.
    rewrite Hmd. cbn. by rewrite Hmd. }
  destruct (m_model s) as [md|] eqn:Em.
  - exists (Some md), s. rewrite (Hhit s md Em).
    repeat split; try done. by rewrite <- Em, set_m_model_same.
  - destruct (extract_model_returns s)
      as (s1 & E & Hbook & Hso & Hma & Hbb & Hun & _).
    exists (m_model s1), s1. split.
    { unfold get_model. unfold gets at 1. unfold bind at 1. rewrite Em. cbn.
      by rewrite (bind_run _ _ _ _ _ E). }
    rewrite Em in Hbook. repeat split; try done.
    intros [md Hmd]. rewrite Hmd. by apply Hhit.
Qed.

(** ** Display *)

Lemma assert_soft_spec assumptions asms m s :
  ∃ guards m',
    assert_soft assumptions asms m s =
      Ok ((asms ++ guards, m'),
          set_m_fmls (m_fmls s ++ zip_with mk_implies guards assumptions) s) ∧
    length guards = length assumptions.
Proof.
  revert asms m s. induction assumptions as [|f fs IH]; intros asms m s; cbn.
  { exists [], m. rewrite !app_nil_r. split; [|done]. by destruct s. }
  destruct (mk_fresh_const "s" BoolSort m) as [a m1].
  rewrite (bind_run _ _ s ()
             (set_m_fmls (push_back (mk_implies a f) (m_fmls s)) s)) by done.
  destruct (IH (push_back a asms) m1
              (set_m_fmls (push_back (mk_implies a f) (m_fmls s)) s))
    as (guards & m' & E & Hlen).
  exists (a :: guards), m'. rewrite E. cbn. unfold push_back.
  rewrite <- !app_assoc. cbn. split; [done|]. by rewrite Hlen.
Qed.

Lemma collect_nweights_ok asms i nweights s r s' :
  collect_nweights asms i nweights s = Ok (r, s') →
  s' = s ∧ (asms = [] ∨ i + length asms ≤ length (m_weights s)).
Proof.
  revert i nweights. induction asms as [|l asms IH]; intros i nweights; cbn.
  { intros [= <- <-]. auto. }
  unfold gets, defined. unfold bind at 1 2.
  destruct (m_weights s !! i) as [w|] eqn:Ew; [|done]. cbn.
  intros [-> Hlen]%IH. split; [done|]. right.
  apply lookup_lt_Some in Ew.
  destruct Hlen as [-> |Hlen]; cbn; lia.
Qed.

Lemma display_weighted_run assumptions weights m s r s' :
  display_weighted assumptions weights m s = Ok (r, s') →
  ∃ guards,
    length guards = length assumptions ∧
    m_fmls s' = m_fmls s ++ zip_with mk_implies guards assumptions ∧
    m_fmls_head s' = length (m_fmls s') ∧
    m_asmsf s' = m_asmsf s ∧ m_num_scopes s' = m_num_scopes s ∧
    length (m_asms s') ≤ length (m_weights s') ∧
    length (m_weights s') =
      match weights with
      | Some _ => length assumptions
      | None => 0
      end.
Proof.
  unfold display_weighted.
  rewrite (bind_run _ _ s () (set_m_weights [] s)) by done.
  intros ([] & sa & Ea & E)%bind_Ok.
  assert (sa = set_m_weights (m_weights sa) s ∧
          length (m_weights sa) =
            match weights with
            | Some _ => length assumptions
            | None => 0
            end) as [Esa Hwa].
  { destruct weights as [ws|].
    - destruct (Nat.ltb_spec (length ws) (length assumptions));
        [done|].
      injection Ea as <-. cbn. split; [done|].
      rewrite length_fmap, length_take. lia.
    - injection Ea as <-. done. }
  clear Ea. revert E. unfold init_preprocess.
  rewrite (bind_run _ _ sa () (init_preprocess_on sa)) by done.
  set (sb := init_preprocess_on sa).
  rewrite (bind_run _ _ sb ()
             (set_m_solver (sat_pop_to_base_level (m_solver sb)) sb))
    by done.
  set (sc := set_m_solver _ sb).
  destruct (assert_soft_spec assumptions [] m sc)
    as (guards & m' & Es & Hlen).
  rewrite (bind_run _ _ _ _ _ Es). cbn [fst snd].
  set (sd := set_m_fmls _ sc).
  destruct (internalize_formulas_returns sd)
    as (r1 & se & E1 & Hf1 & Ha1 & _ & _ & _ & Hn1 & _ & _ & Hw1 & Hr1).
  rewrite (bind_run _ _ _ _ _ E1).
  destruct Hr1 as [[-> Hh1]|[-> _]]; cbn [lbool_eqb negb]; [|done].
  assert (m_weights se = [] ∨ length guards ≤ length (m_weights se))
    as Hwse.
  { rewrite Hw1, Hlen. cbn. rewrite Esa. cbn.
    destruct weights; [right; lia|left].
    by apply nil_length_inv. }
  destruct (internalize_assumptions_spec guards se Hwse)
    as (r2 & d & sf & E2 & Hr2 & Ha2 & _ & Hf2 & _ & Hasms & _).
  pose proof (internalize_assumptions_more _ _ _ _ _ Hwse E2)
    as (_ & _ & _ & _ & Hh2 & Hn2 & _).
  rewrite (bind_run _ _ _ _ _ E2). cbn [fst snd].
  destruct Hr2 as [-> | ->]; cbn [lbool_eqb negb]; [|done].
  destruct (Hasms eq_refl) as (_ & Hlw & _).
  rewrite (bind_run _ _ sf (m_asms sf) sf) by done.
  intros (nweights & sg & Ec & E)%bind_Ok.
  apply collect_nweights_ok in Ec as [-> Hc].
  unfold_monad. injection E as <- <-.
  exists guards. split; [done|].
  rewrite Hf2, Hf1, Hh2, Hh1, Ha2, Ha1, Hn2, Hn1, Hlw, Hw1.
  cbn. rewrite Esa in Hwa |- *. cbn in Hwa |- *.
  repeat split; try done.
  rewrite Hlw, Hw1 in Hc. cbn in Hc. rewrite Esa in Hc. cbn in Hc.
  destruct Hc as [-> |Hc]; cbn; lia.
Qed.

(** X19: [display_weighted] is no observer.  When it returns it has
    asserted, for each soft constraint handed to it, in order, an
    implication from a guard to that constraint, and translated them:
    the assertions have grown by one formula per soft constraint, and
    the frontier covers them all.  The assumptions and the scope depth
    are as before. *)
Theorem display_weighted_asserts_guards assumptions weights m s :
  match display_weighted assumptions weights m s with
  | Ok (_, s') =>
      ∃ guards,
        length guards = length assumptions ∧
        m_fmls s' = m_fmls s ++ zip_with mk_implies guards assumptions ∧
        get_num_assertions s' =
          Ok (length (m_fmls s) + length assumptions, s') ∧
        m_fmls_head s' = length (m_fmls s') ∧
        m_asmsf s' = m_asmsf s ∧ m_num_scopes s' = m_num_scopes s
  | Err _ => True
  end.
Proof.
  destruct (display_weighted assumptions weights m s) as [[r s']|] eqn:E;
    [|done].
  destruct (display_weighted_run _ _ _ _ _ _ E)
    as (guards & Hlen & Hf & Hh & Ha & Hn & _).
  destruct r. exists guards. repeat split; try done.
  unfold get_num_assertions, gets. rewrite Hf, length_app, length_zip_with.
  do 3 f_equal. lia.
Qed.

(** X20: [display_weighted] reads one weight for each literal of
    [m_asms], and has stored one weight per soft constraint, none when
    the weights pointer is null.  It returns only when the assumption
    literals are no more than that: a standing assumption that reaches
    the engine beside the soft constraints, or any assumption literal
    with a null weights pointer, makes it read past the end of
    [m_weights]. *)
Theorem display_needs_a_weight_per_literal assumptions weights m s :
  match display_weighted assumptions weights m s with
  | Ok (_, s') =>
      length (m_asms s') ≤
        match weights with
        | Some _ => length assumptions
        | None => 0
        end
  | Err _ => True
  end.
Proof.
  destruct (display_weighted assumptions weights m s) as [[r s']|] eqn:E;
    [|done].
  destruct (display_weighted_run _ _ _ _ _ _ E)
    as (guards & _ & _ & _ & _ & _ & Hle & Hw).
  by rewrite <- Hw.
Qed.

(** ** The free functions *)

Lemma unsigned_weights_spec n i (ws : list rational) acc s :
  i + n ≤ length ws →
  unsigned_weights n i ws acc s =
    if forallb is_unsigned (take n (drop i ws))
    then Ok (acc ++ (get_unsigned <$> take n (drop i ws)), s)
    else Err (default_exception
                "Cannot display weights that are not integers").
Proof.
  revert i acc. induction n as [|n IH]; intros i acc Hlen; cbn.
  { by rewrite app_nil_r. }
  destruct (lookup_lt_is_Some_2 ws i) as [w Hw]; [lia|].
  rewrite (drop_S _ _ _ Hw). cbn.
  unfold bind at 1. unfold defined. rewrite Hw. cbn.
  destruct (is_unsigned w); cbn; [|done].
  rewrite IH by lia. destruct (forallb _ _); [|done].
  unfold push_back. by rewrite <- app_assoc.
Qed.

(** X21: given a weight for each soft constraint, [inc_sat_display]
    checks all of them before it touches the solver: when one of them is
    no unsigned integer it throws and nothing has been displayed or
    asserted; otherwise it is [display_weighted] on the weights as
    unsigned numbers.  With a null weights pointer it is
    [display_weighted] with a null pointer. *)
Theorem inc_sat_display_checks_weights soft (ws : list rational) m s :
  length soft ≤ length ws →
  inc_sat_display soft (Some ws) m s =
    (if forallb is_unsigned (take (length soft) ws)
     then display_weighted soft
            (c_ptr (get_unsigned <$> take (length soft) ws)) m s
     else Err (default_exception
                 "Cannot display weights that are not integers")) ∧
  inc_sat_display soft None m s = display_weighted soft None m s.
Proof.
  intros Hlen. split; [|done]. unfold inc_sat_display.
  unfold bind at 1. rewrite unsigned_weights_spec by (cbn; lia).
  rewrite drop_0. by destruct (forallb _ _).
Qed.

Lemma double_weights_state n i (ws : list rational) acc s r s' :
  double_weights n i ws acc s = Ok (r, s') → s' = s.
Proof.
  revert i acc. induction n as [|n IH]; intros i acc; cbn.
  { by intros [= <- <-]. }
  unfold bind at 1. unfold defined.
  destruct (ws !! i); cbn; [|done]. apply IH.
Qed.

(** X22: [inc_sat_check_sat] replaces the parameters of the solver:
    after it has returned, [m_params] is a fresh parameter set with
    [minimize_core] and [elim_vars] off, whatever the solver had been
    configured with, and [m_optimize_model] is read from that set. *)
Theorem inc_sat_check_sat_resets_params soft _weights max_weight s :
  match inc_sat_check_sat soft _weights max_weight s with
  | Ok (_, s') =>
      m_params s' =
        params_set_bool "elim_vars" false
          (params_set_bool "minimize_core" false params_mk) ∧
      m_optimize_model s' =
        params_get_bool "optimize_model" false (m_params s')
  | Err _ => True
  end.
Proof.
  destruct (inc_sat_check_sat soft _weights max_weight s) as [[r s']|] eqn:E;
    [|done].
  unfold inc_sat_check_sat in E.
  apply bind_Ok in E as (weights & s1 & E1 & E).
  assert (s1 = s) as ->.
  { destruct _weights as [ws|]; [by eapply double_weights_state|].
    by injection E1 as <- <-. }
  unfold updt_params in E.
  apply bind_Ok in E as ([] & s2 & E2 & E).
  unfold_monad. cbn in E2. injection E2 as <-.
  apply check_sat_frame in E
    as (_ & _ & _ & _ & _ & _ & Hp & Ho & _). cbn in Hp, Ho.
  by rewrite Hp, Ho.
Qed.

(** ** What a translated copy carries *)

Lemma translate_fmls_fold (tr : expr → expr) l (r : inc_sat_solver) :
  foldl (λ r f, set_m_fmls (push_back (tr f) (m_fmls r)) r) r l =
    set_m_fmls (m_fmls r ++ (tr <$> l)) r.
Proof.
  revert r. induction l as [|f l IH]; intros r; cbn.
  { rewrite app_nil_r. by destruct r. }
  rewrite IH. cbn. unfold push_back. by rewrite <- app_assoc.
Qed.

Lemma translate_asmsf_fold (tr : expr → expr) l (r : inc_sat_solver) :
  foldl (λ r f, set_m_asmsf (push_back (tr f) (m_asmsf r)) r) r l =
    set_m_asmsf (m_asmsf r ++ (tr <$> l)) r.
Proof.
  revert r. induction l as [|f l IH]; intros r; cbn.
  { rewrite app_nil_r. by destruct r. }
  rewrite IH. cbn. unfold push_back. by rewrite <- app_assoc.
Qed.

(** X23: at depth zero [translate] hands out a solver that carries the
    translated formulas and assumptions and nothing else of the
    original: it meets the class invariant at depth zero, nothing of it
    is translated yet, its core, model, assumption literals and weights
    are empty, its reason for unknown is the initial one, and its
    parameters are the ones given to [translate], not the original's.
    The copy can be translated again, and the two translations
    compose. *)
Theorem translate_carries_assertions_only (tr1 tr2 : expr → expr) p1 p2 s :
  m_num_scopes s = 0 →
  ∃ r1 r2,
    translate tr1 p1 s = Ok (r1, s) ∧ translate tr2 p2 r1 = Ok (r2, r1) ∧
    m_fmls r2 = (tr2 ∘ tr1) <$> m_fmls s ∧
    m_asmsf r2 = (tr2 ∘ tr1) <$> m_asmsf s ∧
    wf r1 ∧ frontier_ok r1 ∧ m_fmls_head r1 = 0 ∧
    m_core r1 = [] ∧ m_model r1 = None ∧ m_asms r1 = [] ∧
    m_weights r1 = [] ∧ m_unknown r1 = "no reason given" ∧
    m_params r1 = params_set_bool "elim_vars" false p1.
Proof.
  intros Hn.
  assert (∀ (tr : expr → expr) p (s0 : inc_sat_solver),
            m_num_scopes s0 = 0 →
            translate tr p s0 =
              Ok (set_m_asmsf (tr <$> m_asmsf s0)
                    (set_m_fmls (tr <$> m_fmls s0) (inc_sat_solver_new p)),
                  s0)) as Htr.
  { intros tr p s0 H0. unfold translate.
    rewrite (bind_run _ _ s0 0 s0) by (unfold gets; by rewrite H0).
    change (0 <? 0) with false. cbv iota.
    rewrite (bind_run _ _ s0 s0 s0) by done.
    by rewrite translate_fmls_fold, translate_asmsf_fold. }
  eexists _, _. split; [by apply Htr|]. split; [by apply Htr|].
  cbn. rewrite <- !list_fmap_compose.
  repeat split; try done; cbn; try constructor; lia.
Qed.

(** ** The weights of a check *)

Lemma internalize_assumptions_weights asms s r (d : dep2asm_t) s' :
  m_weights s = [] ∨ length asms ≤ length (m_weights s) →
  internalize_assumptions asms ∅ s = Ok ((r, d), s') →
  length (m_weights s') = length (m_weights s).
Proof.
  intros Hws. unfold internalize_assumptions, get_num_assumptions.
  rewrite (bind_run _ _ s (length (m_asmsf s)) s) by done.
  destruct ((length asms =? 0) && (length (m_asmsf s) =? 0)) eqn:Ez.
  { unfold_monad. by intros [= <- <- <-]. }
  rewrite (bind_run _ _ s (m_asmsf s) s) by done.
  set (g := foldl _ (foldl _ _ asms) (m_asmsf s)).
  destruct (internalize_goal_returns g ∅ s)
    as (r1 & g' & d1 & s1 & E & Hr & Hbook).
  rewrite (bind_run _ _ _ _ _ E). cbn [fst snd].
  unfold book in Hbook. simplify_eq.
  destruct Hr as [-> | ->]; cbn [lbool_eqb].
  - destruct (extract_assumptions_spec asms d1 s1) as (ws & Ex & Hlen & _);
      [congruence|].
    rewrite (bind_run _ _ _ _ _ Ex). unfold ret.
    intros [= <- <- <-]. cbn. congruence.
  - rewrite (bind_run _ _ s1 () s1) by done. unfold ret.
    intros [= <- <- <-]. congruence.
Qed.

Lemma omap_all_length (d : dep2asm_t) (l : list expr) :
  (∀ e, e ∈ l → is_Some (d !! e)) → length (omap (d !!.) l) = length l.
Proof.
  induction l as [|a l IH]; intros Hall; cbn; [done|].
  destruct (Hall a) as [lit ->]; [apply list_elem_of_here|]. cbn.
  rewrite IH; [done|]. intros e He. apply Hall. by apply list_elem_of_further.
Qed.

Lemma omap_some_length (d : dep2asm_t) (l : list expr) e :
  e ∈ l → is_Some (d !! e) → 0 < length (omap (d !!.) l).
Proof.
  intros He [lit Hlit].
  assert (lit ∈ omap (d !!.) l) as Hin
    by (apply list_elem_of_omap; eauto).
  destruct (omap (d !!.) l); [by apply elem_of_nil in Hin|cbn; lia].
Qed.

(** X25: after a [check_sat] that has returned, [m_weights] holds one
    weight for each call-supplied assumption, and none when the check
    had no weights.  After a definite answer both stages of the check
    answered [l_true], and [m_asms] holds what the dependency map
    handed back by the check's own [internalize_assumptions] gives for
    the call-supplied terms and then for the standing assumptions.  So a
    standing assumption has no weight of its own: when every supplied
    term has a literal, there is a literal for each of them and one more
    for each standing assumption that has one, and more literals than
    weights as soon as one standing assumption has a literal. *)
Theorem weights_cover_supplied_assumptions_only assumptions weights
    max_weight s :
  let sa := check_sat_start
              match weights with
              | Some ws => take (length assumptions) ws
              | None => []
              end s in
  match check_sat assumptions weights max_weight s with
  | Ok (r, s') =>
      length (m_weights s') =
        match weights with
        | Some _ => length assumptions
        | None => 0
        end ∧
      (r ≠ l_undef →
       ∃ s1 (d : dep2asm_t) s2,
         internalize_formulas sa = Ok (l_true, s1) ∧
         internalize_assumptions assumptions ∅ s1 = Ok ((l_true, d), s2) ∧
         m_asms s' = omap (d !!.) assumptions ++ omap (d !!.) (m_asmsf s) ∧
         ((∀ e, e ∈ assumptions → is_Some (d !! e)) →
          length (m_asms s') =
            length assumptions + length (omap (d !!.) (m_asmsf s)) ∧
          ((∃ e, e ∈ m_asmsf s ∧ is_Some (d !! e)) →
           length (m_weights s') < length (m_asms s'))))
  | Err _ => True
  end.
Proof.
  intros sa.
  destruct (check_sat_run assumptions weights max_weight s)
    as [(ws & _ & _ & ->)|(ws & r1 & s1 & Hws & [-> Hlen] & E1 & Hrun)];
    [done|].
  fold sa in E1.
  destruct (internalize_formulas_returns sa)
    as (r1' & s1' & E1' & _ & Ha1 & _ & _ & _ & _ & _ & _ & Hw1 & _).
  rewrite E1 in E1'. injection E1' as <- <-.
  change (m_asmsf sa) with (m_asmsf s) in Ha1. subst sa. cbn in Hw1.
  destruct Hrun as [[_ ->]|[-> (r2 & d & s2 & E2 & Hws1 & Hrun)]].
  { split; [congruence|done]. }
  pose proof (internalize_assumptions_weights _ _ _ _ _ Hws1 E2) as Hw2.
  destruct (internalize_assumptions_spec assumptions s1 Hws1)
    as (r2' & d' & s2' & E2' & _ & _ & _ & _ & _ & Hasms & _).
  rewrite E2 in E2'. injection E2' as <- <- <-.
  destruct Hrun as [[_ ->]|[-> (r & solver & Ec & Hrun)]].
  { split; [congruence|done]. }
  destruct (Hasms eq_refl) as [Hasms' _]. clear Hasms.
  rewrite omap_app, Ha1 in Hasms'.
  assert (∀ s' : inc_sat_solver,
            m_asms s' = m_asms s2 → m_weights s' = m_weights s2 →
            ∃ s1' (d' : dep2asm_t) s2',
              internalize_formulas
                (check_sat_start
                   match weights with
                   | Some ws => take (length assumptions) ws
                   | None => []
                   end s) = Ok (l_true, s1') ∧
              internalize_assumptions assumptions ∅ s1' =
                Ok ((l_true, d'), s2') ∧
              m_asms s' =
                omap (d' !!.) assumptions ++ omap (d' !!.) (m_asmsf s) ∧
              ((∀ e, e ∈ assumptions → is_Some (d' !! e)) →
               length (m_asms s') =
                 length assumptions + length (omap (d' !!.) (m_asmsf s)) ∧
               ((∃ e, e ∈ m_asmsf s ∧ is_Some (d' !! e)) →
                length (m_weights s') < length (m_asms s')))) as Hend.
  { intros s' Ea Ew. exists s1, d, s2. split; [done|]. split; [done|].
    rewrite Ea, Ew, Hasms'. split; [done|]. intros Hall.
    rewrite length_app, (omap_all_length _ _ Hall). split; [done|].
    intros (e & He & Hsome).
    pose proof (omap_some_length d (m_asmsf s) e He Hsome).
    rewrite Hw2, Hw1, Hlen. destruct weights; lia. }
  cbn zeta in Hrun. destruct r.
  - destruct (empty (m_asms s2)).
    { rewrite Hrun. cbn. split; [congruence|]. intros _. by apply Hend. }
    destruct (mapM _ _); rewrite Hrun; [|done].
    cbn. split; [congruence|]. intros _. by apply Hend.
  - rewrite Hrun. cbn. split; [congruence|done].
  - destruct (_ && _); [destruct Hrun as [[_ ->]|[_ ->]]|rewrite Hrun];
      try done; cbn; (split; [congruence|]); intros _; by apply Hend.
Qed.

(** ** A definite answer is an answer for all the formulas *)

(** X26: [check_sat] answers [l_true] or [l_false] only after every
    stored formula has been translated: after a definite answer the
    frontier equals the formula count, and a further
    [internalize_formulas()] is a no-op.  The formulas themselves are
    never changed by a check. *)
Theorem definite_answer_covers_formulas assumptions weights max_weight s :
  match check_sat assumptions weights max_weight s with
  | Ok (r, s') =>
      m_fmls s' = m_fmls s ∧
      (r ≠ l_undef →
       m_fmls_head s' = length (m_fmls s') ∧
       internalize_formulas s' = Ok (l_true, s'))
  | Err _ => True
  end.
Proof.
  destruct (check_sat assumptions weights max_weight s) as [[r s']|] eqn:E;
    [|done].
  destruct (check_sat_frame _ _ _ _ _ _ E) as (Hf & _).
  split; [done|]. intros Hr.
  assert (m_fmls_head s' = length (m_fmls s')) as Hh;
    [|split; [done|by apply internalize_formulas_covered]].
  rewrite Hf. revert E.
  destruct (check_sat_run assumptions weights max_weight s)
    as [(ws & _ & _ & ->)|(ws & r1 & s1 & Hws & Hwsd & E1 & Hrun)]; [done|].
  destruct (internalize_formulas_returns (check_sat_start ws s))
    as (r1' & s1' & E1' & _ & _ & _ & _ & _ & _ & _ & _ & _ & Hh1).
  rewrite E1 in E1'. injection E1' as <- <-. cbn in Hh1.
  destruct Hrun as [[_ ->]|[-> (r2 & d & s2 & E2 & Hw1 & Hrun)]];
    [by intros [= <- <-]|].
  destruct Hh1 as [[_ Hh1]|[? _]]; [|done].
  pose proof (internalize_assumptions_more _ _ _ _ _ Hw1 E2)
    as (_ & _ & _ & _ & Hh2 & _).
  rewrite <- Hh1, <- Hh2.
  destruct Hrun as [[_ ->]|[_ (r0 & solver & Ec & Hrun)]];
    [by intros [= <- <-]|].
  cbn zeta in Hrun. destruct r0.
  - destruct (empty (m_asms s2)); [rewrite Hrun; by intros [= <- <-]|].
    destruct (mapM _ _) as [es|]; rewrite Hrun; [|done].
    by intros [= <- <-].
  - rewrite Hrun. by intros [= <- <-].
  - destruct (_ && _); [destruct Hrun as [[_ ->]|[_ ->]]|rewrite Hrun];
      try done; by intros [= <- <-].
Qed.

(** ** Popping in two steps *)

Lemma pop_scope_stacks s t s' :
  stacks s = stacks t → pop_scope s = Ok ((), s') →
  ∃ t', pop_scope t = Ok ((), t') ∧ stacks s' = stacks t' ∧
        shelf s' = shelf s ∧ shelf t' = shelf t.
Proof.
  unfold stacks. intros [= Hf Ha Hfl Hal Hhl Hh].
  unfold pop_scope, resize, back; unfold_monad; cbn.
  rewrite <- Hhl.
  destruct (list.last (m_fmls_head_lim s)); [|done]; cbn.
  rewrite <- Hfl.
  destruct (list.last (m_fmls_lim s)); [|done]; cbn.
  rewrite <- Hf.
  destruct (_ <=? _); [|done]; cbn.
  rewrite <- Hal.
  destruct (list.last (m_asms_lim s)); [|done]; cbn.
  rewrite <- Ha.
  destruct (_ <=? _); [|done]; cbn.
  intros [= <-]. eexists. split; [done|]. cbn.
  by rewrite <- Hhl, <- Hfl, <- Hal.
Qed.

Lemma pop_loop_stacks n s t s' :
  stacks s = stacks t → pop_loop n s = Ok ((), s') →
  ∃ t', pop_loop n t = Ok ((), t') ∧ stacks s' = stacks t' ∧
        shelf s' = shelf s ∧ shelf t' = shelf t.
Proof.
  revert s t. induction n as [|n IH]; intros s t Hst; cbn.
  { intros [= <-]. by exists t. }
  intros ([] & s1 & E1 & E)%bind_Ok.
  destruct (pop_scope_stacks s t s1 Hst E1) as (t1 & Et1 & Hst1 & Hs1 & Ht1).
  destruct (IH s1 t1 Hst1 E) as (t' & Et' & Hst' & Hs' & Ht').
  exists t'. rewrite (bind_run _ _ _ _ _ Et1).
  split; [done|]. split; [done|]. split; congruence.
Qed.

Lemma pop_loop_add n m s :
  pop_loop (n + m) s = bind (pop_loop n) (λ _, pop_loop m) s.
Proof.
  revert s. induction n as [|n IH]; intros s; cbn; [done|].
  rewrite bind_assoc. unfold bind in *.
  destruct (pop_scope s) as [[[] s1]|]; [|done]. apply IH.
Qed.

(** [pop(n)] is the loop of [pop] run [min n depth] times on the
    bookkeeping, with the depth lowered by as much. *)
Lemma pop_stacks n s s' :
  pop n s = Ok ((), s') →
  let k := if m_num_scopes s <? n then m_num_scopes s else n in
  ∃ t, pop_loop k s = Ok ((), t) ∧ stacks s' = stacks t ∧
       shelf s' = shelf (set_m_num_scopes (m_num_scopes s - k) s).
Proof.
  unfold pop. unfold gets, modify, bind at 1 2 3 4 5. cbn.
  intros E.
  match type of E with pop_loop _ ?s0 = _ =>
    destruct (pop_loop_stacks _ s0 s s' eq_refl E) as (t & Et & Hst & Hs & _)
  end.
  exists t. split; [done|]. split; [done|]. by rewrite Hs.
Qed.

(** X27: under the class invariant, [pop(n)] followed by [pop(m)] leaves
    the same bookkeeping as [pop(n + m)]: the same formulas and
    assumptions, checkpoints, frontier and depth, with the caches
    untouched. *)
Theorem pop_pop_is_pop n m s :
  wf s →
  ∃ s1 s2 s3,
    pop n s = Ok ((), s1) ∧ pop m s1 = Ok ((), s2) ∧
    pop (n + m) s = Ok ((), s3) ∧ book s2 = book s3.
Proof.
  intros Hwf.
  destruct (pop_returns n s Hwf) as (s1 & E1 & Hwf1 & Hn1 & _).
  destruct (pop_returns m s1 Hwf1) as (s2 & E2 & _ & Hn2 & _).
  destruct (pop_returns (n + m) s Hwf) as (s3 & E3 & _ & Hn3 & _).
  exists s1, s2, s3. split; [done|]. split; [done|]. split; [done|].
  destruct (pop_stacks _ _ _ E1) as (t1 & Et1 & Hst1 & Hsh1).
  destruct (pop_stacks _ _ _ E2) as (t2 & Et2 & Hst2 & Hsh2).
  destruct (pop_stacks _ _ _ E3) as (t3 & Et3 & Hst3 & Hsh3).
  cbn zeta in *.
  set (a := if m_num_scopes s <? n then m_num_scopes s else n) in *.
  set (b := if m_num_scopes s1 <? m then m_num_scopes s1 else m) in *.
  set (c := if m_num_scopes s <? n + m then m_num_scopes s else n + m) in *.
  assert (c = a + b) as Hc.
  { subst a b c. rewrite Hn1.
    destruct (Nat.ltb_spec (m_num_scopes s) n),
      (Nat.ltb_spec (m_num_scopes s - n) m),
      (Nat.ltb_spec (m_num_scopes s) (n + m)); lia. }
  rewrite Hc, pop_loop_add, (bind_run _ _ _ _ _ Et1) in Et3.
  symmetry in Hst1.
  destruct (pop_loop_stacks b t1 s1 t3 Hst1 Et3)
    as (t2' & Et2' & Hst' & Hsh3' & Hsh2').
  rewrite Et2 in Et2'. injection Et2' as <-.
  assert (stacks s2 = stacks s3) as Hst by congruence.
  assert (shelf s2 = shelf s3) as Hsh.
  { rewrite Hsh2, Hsh3. unfold shelf in *. cbn in *.
    injection Hsh1 as -> -> -> -> -> -> ->. f_equal. f_equal. f_equal.
    f_equal. f_equal. f_equal. lia. }
  unfold stacks in Hst. unfold shelf in Hsh. unfold book.
  clear -Hst Hsh. congruence.
Qed.

End MoreProperties.

(** ** The invariant as a test *)

Lemma descending_checkpoints l n :
  descending (rev l) n = true → checkpoints l n.
Proof.
  revert n. induction l as [|k l IH] using rev_ind; intros n; [constructor|].
  rewrite rev_app_distr. cbn.
  intros [Hk Hl]%andb_true_iff. apply Nat.leb_le in Hk.
  by apply checkpoints_snoc; [apply IH|].
Qed.

Lemma wfb_sound `{B : Backend} (s : inc_sat_solver) : wfb s = true → wf s.
Proof.
  unfold wfb. rewrite !andb_true_iff, !Nat.eqb_eq.
  intros ((((? & ?) & ?) & ?) & ?).
  repeat split; auto using descending_checkpoints.
Qed.

Lemma after_run' `{B : Backend} {A} (m : M A) s a s' :
  m s = Ok (a, s') → s' = after m s.
Proof. unfold after. by intros ->. Qed.

Lemma after_run `{B : Backend} (m : M unit) s s' :
  m s = Ok ((), s') → s' = after m s.
Proof. apply after_run'. Qed.

Lemma run_answer `{B : Backend} {A} (m : M A) s a :
  answer (m s) = Some a → m s = Ok (a, after m s).
Proof.
  unfold answer, after. destruct (m s) as [[a' s']|e]; [|done].
  by intros [= ->].
Qed.

(** ** The small backend keeps the contracts *)


Lemma toy_add_dep_leaves leaves (acc : list expr * gmap expr literal) e :
  is_Some ((foldl Toy.add_dep acc leaves).2 !! e) →
  is_Some (acc.2 !! e) ∨ e ∈ leaves.
Proof.
  revert acc. induction leaves as [|leaf leaves IH]; intros acc; cbn; [auto|].
  intros [H|H]%IH; [|right; by apply list_elem_of_further].
  unfold Toy.add_dep in H. case_bool_decide; [by left|].
  destruct (is_not leaf) as [sign a], (Toy.intern acc.1 a 0) as [atoms v].
  cbn in H. destruct (decide (leaf = e)) as [->|Hne].
  - right. apply list_elem_of_here.
  - rewrite lookup_insert_ne in H by done. by left.
Qed.

Lemma toy_deps_within_leaves :
  deps_within_leaves (B := Toy.backend Toy.accept).
Proof.
  split.
  - intros t bb g gs mc pc dc bb' t'. cbn. intros [= <- _ _ _ _ _] g' e.
    by intros ->%list_elem_of_singleton.
  - intros g p solver map d solver' map' d' atoms. cbn.
    unfold Toy.toy_goal2sat.
    destruct (foldl Toy.add_dep _ _) as [atoms' d''] eqn:Ef.
    intros [= _ _ <- _] e He.
    match type of Ef with foldl _ ?acc ?l = _ =>
      pose proof (toy_add_dep_leaves l acc e) as H end.
    rewrite Ef in H. cbn in H. by apply H.
Qed.

Lemma toy_mutexes_within_input pipeline :
  mutexes_within_input (B := Toy.backend pipeline).
Proof.
  intros ls solver groups solver'. cbn. intros [= <- _] group l.
  by intros ->%list_elem_of_singleton.
Qed.

(** ** The small services keep the contracts *)

Lemma toy_bit_blaster_counts_scopes pipeline :
  bit_blaster_counts_scopes (B := Toy.backend pipeline).
Proof.
  repeat split; cbn; try done.
  intros t bb g gs mc pc dc bb' t'. destruct (pipeline g); [done|].
  by intros [= _ _ _ _ <- _].
Qed.

Lemma toy_consequences_within_assumptions pipeline :
  consequences_within_assumptions (V := ToyServices.services pipeline).
Proof.
  intros asms bvars solver r lconseq solver'. cbn.
  intros [= <- <- <-]. split; [|done].
  intros c (b & -> & _)%list_elem_of_fmap. split; [done|]. cbn.
  by rewrite drop_0.
Qed.

Lemma toy_const2bits_of_bit_vectors pipeline :
  const2bits_of_bit_vectors (V := ToyServices.services pipeline).
Proof.
  intros bb f bits. cbn. intros [<- _]%lookup_singleton_Some. eauto.
Qed.

(** ** Worked cases on the small backend *)

(** C1, as first read: a fresh solver, [assert_expr(x)], [push()],
    [pop(1)].  The push translates [x] and records frontier 1; the pop
    brings back frontier 1, not the 0 from before the push. *)
Lemma frontier_not_restored :
  ¬ restores_counts_and_frontier (Toy.with_x Toy.accept) [].
Proof.
  intros H.
  assert (wf (Toy.with_x Toy.accept)) as Hwf
    by (apply wfb_sound; vm_compute; reflexivity).
  destruct (push_wf _ Hwf) as (s1 & E1 & Hwf1).
  destruct (pop_returns 1 s1 Hwf1) as (s3 & E3 & _).
  destruct (H s1 s1 s3 E1 eq_refl E3) as (_ & _ & Hhead).
  rewrite (after_run _ _ _ E3), (after_run _ _ _ E1) in Hhead.
  vm_compute in Hhead. discriminate.
Qed.

(** The integer equation [i = j] asserted: the push cannot translate it,
    so the frontier that comes back is the one from before the push. *)
Lemma push_pop_restores_witness :
  let s0 := Toy.with_eq in
  let ops := [AssertExpr Toy.y; Push; AssertExpr2 Toy.x (Some Toy.a)] in
  answer (internalize_formulas s0) = Some l_undef ∧
  ∃ r t s1 s2 s3,
    internalize_formulas s0 = Ok (r, t) ∧
    push s0 = Ok ((), s1) ∧ run_ops ops s1 = Ok ((), s2) ∧
    pop (S (pushes ops)) s2 = Ok ((), s3) ∧
    m_fmls s3 = m_fmls s0 ∧ m_asmsf s3 = m_asmsf s0 ∧
    m_num_scopes s3 = m_num_scopes s0 ∧
    m_fmls_lim s3 = m_fmls_lim s0 ∧ m_asms_lim s3 = m_asms_lim s0 ∧
    m_fmls_head_lim s3 = m_fmls_head_lim s0 ∧
    m_fmls_head s3 = m_fmls_head s1 ∧ m_fmls_head s1 = m_fmls_head t ∧
    match r with
    | l_true => m_fmls_head s3 = length (m_fmls s0)
    | l_undef =>
        m_fmls_head s3 = m_fmls_head s0 ∧
        m_fmls_head s0 ≠ length (m_fmls s0)
    | l_false => False
    end ∧
    (m_fmls_head s0 = length (m_fmls s0) →
     r = l_true ∧ m_fmls_head s3 = m_fmls_head s0).
Proof.
  intros s0 ops. split; [vm_compute; reflexivity|].
  exact (push_pop_restores s0 ops).
Defined.

Lemma pop_clamps_witness :
  let s := after push (Toy.with_x Toy.accept) in
  m_num_scopes s < 3 ∧ wf s ∧
  pop 3 s = pop (m_num_scopes s) s ∧
  ∃ s', pop 3 s = Ok ((), s') ∧ m_num_scopes s' = 0.
Proof.
  intros s.
  assert (wf s) as Hwf by (apply wfb_sound; vm_compute; reflexivity).
  assert (m_num_scopes s < 3) as Hn by (vm_compute; lia).
  split; [exact Hn|]. split; [exact Hwf|].
  split; [exact (proj1 (pop_clamps 3 s Hn))|].
  exact (proj2 (pop_clamps 3 s Hn) Hwf).
Defined.

(** C3, as first read: a fresh solver with the integer equation [i = j]
    asserted.  The first call answers [l_undef] for the interpreted atom
    and leaves the frontier at 0, so the second call runs the pipeline
    again and answers [l_undef] again. *)
Lemma second_call_retries :
  ¬ second_call_is_noop Toy.with_eq.
Proof.
  intros H.
  match type of H with second_call_is_noop ?s =>
    destruct (internalize_formulas_returns s) as (r & s1 & E1 & _)
  end.
  specialize (H r s1 E1).
  rewrite (after_run' _ _ _ _ E1) in H.
  apply (f_equal answer) in H.
  vm_compute in H. discriminate.
Qed.

(** [x] asserted: the first call translates it and the second finds
    nothing to do.  [i = j] asserted: the first call answers [l_undef]
    and the second runs the pipeline on the same goal. *)
Lemma internalize_formulas_twice_witness :
  let s := Toy.with_x Toy.accept in
  let s1 := after internalize_formulas s in
  let u := Toy.with_eq in
  let u1 := after internalize_formulas u in
  let g := foldl (λ g f, goal_assert f [] g) (mk_goal true false [])
                 (drop (m_fmls_head u) (m_fmls u)) in
  (internalize_formulas s = Ok (l_true, s1) ∧
   internalize_formulas s1 = Ok (l_true, s1) ∧
   m_fmls_head s1 = length (m_fmls s1)) ∧
  internalize_formulas u = Ok (l_undef, u1) ∧
  m_fmls u1 = m_fmls u ∧ m_fmls_head u1 = m_fmls_head u ∧
  m_fmls_head u1 ≠ length (m_fmls u1) ∧
  (∃ g' d', internalize_goal g ∅ u = Ok ((l_undef, g', d'), u1)) ∧
  ∃ r g' d' u2,
    internalize_goal g ∅ u1 = Ok ((r, g', d'), u2) ∧
    m_fmls u2 = m_fmls u ∧ m_fmls_head u2 = m_fmls_head u ∧
    internalize_formulas u1 =
      Ok (r, match r with
             | l_undef => u2
             | _ => set_m_fmls_head (length (m_fmls u2)) u2
             end).
Proof.
  intros s s1 u u1 g.
  assert (answer (internalize_formulas s) = Some l_true) as Ha
    by (vm_compute; reflexivity).
  pose proof (run_answer internalize_formulas s l_true Ha) as E.
  assert (answer (internalize_formulas u) = Some l_undef) as Hu
    by (vm_compute; reflexivity).
  pose proof (run_answer internalize_formulas u l_undef Hu) as Eu.
  split.
  { split; [exact E|].
    exact (proj1 (proj2 (internalize_formulas_twice s)) s1 E). }
  split; [exact Eu|].
  exact (proj2 (proj2 (internalize_formulas_twice u)) u1 Eu).
Defined.

(** The four bits of [b] with bits 0 and 2 set: [b = 5]. *)
Lemma internalize_value_witness :
  let value := [mk_literal 0%N false; mk_literal 1%N true;
                mk_literal 2%N false; mk_literal 3%N true] in
  let s := Toy.fresh Toy.accept in
  exps_ok (m_exps s) ∧ is_uninterp_const Toy.b4 = true ∧
  (∃ s', internalize_value value Toy.b4 s =
           Ok (mk_eq Toy.b4 (mk_numeral 5 4), s') ∧
         exps_ok (m_exps s') ∧ (0 ≤ bits_value value 0 < 2 ^ Z.of_nat 4)%Z) ∧
  internalize_value [mk_literal 7%N true] Toy.x s = Ok (mk_not Toy.x, s).
Proof.
  intros value s.
  assert (exps_ok (m_exps s)) as Hok.
  { intros i e. vm_compute. by destruct i. }
  split; [exact Hok|]. split; [reflexivity|]. split.
  - exact (proj2 (internalize_value_spec value Toy.b4 s Hok eq_refl)
                 4 eq_refl eq_refl).
  - exact (proj1 (internalize_value_spec [mk_literal 7%N true] Toy.x s Hok
                    eq_refl)
                 eq_refl _ eq_refl).
Defined.


Lemma push_pop_keep_caches_witness :
  let s := set_m_model (Some (Toy.a_model Toy.accept))
             (after (check_sat [Toy.x] None double_zero) Toy.guarded) in
  let ops := [ScopePush; ScopePop 5; ScopePush; ScopePush; ScopePop 1] in
  let s' := after (run_scope_ops ops) s in
  wf s ∧ m_core s = [Toy.x; Toy.a; Toy.a] ∧
  run_scope_ops ops s = Ok ((), s') ∧
  m_model s' = m_model s ∧ m_core s' = m_core s.
Proof.
  intros s ops s'.
  assert (wf s) as Hwf by (apply wfb_sound; vm_compute; reflexivity).
  assert (run_scope_ops ops s = Ok ((), s')) as E.
  { apply (run_answer (run_scope_ops ops) s ()). vm_compute. reflexivity. }
  split; [exact Hwf|]. split; [vm_compute; reflexivity|].
  split; [exact E|]. exact (proj1 (push_pop_keep_caches ops s) s' E).
Defined.

Lemma find_mutexes_l_true_witness :
  mutexes_within_input (B := Toy.accepting) ∧
  ∃ out s',
    find_mutexes [Toy.x; ENot Toy.a; EConst "z" BoolSort] []
      (after (check_sat [] None double_zero) Toy.guarded) =
    Ok ((l_true, out), s').
Proof.
  split; [apply toy_mutexes_within_input|].
  exact (proj2 (find_mutexes_l_true _ _ _) (toy_mutexes_within_input _)).
Defined.

(** C6: a fresh solver, [assert_expr(x)], a check.  When the pipeline
    raises [tactic_exception], and when it yields two subgoals, the check
    answers [l_undef] and [reason_unknown()] still reads
    "no reason given". *)
Lemma reason_unknown_left_unset :
  (let s' := after (check_sat0 []) (Toy.with_x Toy.raise) in
   check_sat0 [] (Toy.with_x Toy.raise) = Ok (l_undef, s') ∧
   answer (reason_unknown s') = Some "no reason given") ∧
  (let s' := after (check_sat0 []) (Toy.with_x Toy.split) in
   check_sat0 [] (Toy.with_x Toy.split) = Ok (l_undef, s') ∧
   answer (reason_unknown s') = Some "no reason given").
Proof.
  split; (split; [|vm_compute; reflexivity]).
  - apply (run_answer (check_sat0 []) (Toy.with_x Toy.raise) l_undef).
    vm_compute. reflexivity.
  - apply (run_answer (check_sat0 []) (Toy.with_x Toy.split) l_undef).
    vm_compute. reflexivity.
Qed.

(** C8: [assert_expr(x, a)], [assert_expr(y, a)], then the assumptions of
    a check without call-supplied terms.  The dependency map has the one
    entry for [a]; the literal list has its literal twice. *)
Lemma assumption_count_mismatch :
  m_asmsf Toy.guarded = [Toy.a; Toy.a] ∧
  match internalize_assumptions [] ∅ Toy.guarded with
  | Ok ((r, d), s') => r = l_true ∧ length (m_asms s') = 2 ∧ size d = 1
  | Err _ => False
  end.
Proof. split; vm_compute; auto. Qed.

(** Weights 10, 20, 30 for the assumptions [x], [true], [y]: the pipeline
    drops [true], and the weights of [x] and [y] move to the front. *)
Lemma assumption_literals_in_order_witness :
  let asms := [Toy.x; ETrue; Toy.y] in
  let s := set_m_weights (Toy.weights Toy.accept [10; 20; 30])
                           Toy.guarded in
  (m_weights s = [] ∨ length asms ≤ length (m_weights s)) ∧
  ∃ r (d : gmap expr literal) s',
    internalize_assumptions asms ∅ s = Ok ((r, d), s') ∧
    (r = l_true →
     m_asms s' = omap (d !!.) asms ++ omap (d !!.) (m_asmsf s) ∧
     (length asms ≤ length (m_weights s) →
      take (length (omap (d !!.) asms)) (m_weights s') =
        kept_weights d asms (m_weights s))).
Proof.
  intros asms s.
  assert (m_weights s = [] ∨ length asms ≤ length (m_weights s)) as Hws
    by (right; vm_compute; lia).
  split; [exact Hws|]. exact (assumption_literals_in_order asms s Hws).
Defined.

(** Two assumptions on a solver that still holds one weight from an
    earlier check, with one standing assumption: three literals, three
    entries. *)
Lemma assumption_count_without_repeats_witness :
  let s := set_m_weights (Toy.weights Toy.accept [7])
             (after (assert_expr2 Toy.x (Some Toy.a))
                    (Toy.fresh Toy.accept)) in
  let asms := [Toy.x; Toy.y] in
  length (m_weights s) = 1 ∧
  NoDup (asms ++ m_asmsf s) ∧
  ∃ (d : gmap expr literal) s',
    internalize_assumptions asms ∅ s = Ok ((l_true, d), s') ∧
    length (m_asms s') = size d.
Proof.
  intros s asms. split; [reflexivity|].
  assert (NoDup (asms ++ m_asmsf s)) as Hnd.
  { apply (bool_decide_unpack _). vm_compute. reflexivity. }
  split; [exact Hnd|].
  destruct (internalize_assumptions asms ∅ s) as [[[r d] s']|e] eqn:E.
  - assert (r = l_true) as ->.
    { pose proof (f_equal (λ x, fst <$> answer x) E) as Er.
      vm_compute in Er. by injection Er. }
    exists d, s'. split; [reflexivity|].
    exact (assumption_count_without_repeats asms s d s'
             toy_deps_within_leaves Hnd E).
  - pose proof (f_equal (λ x, fst <$> answer x) E) as Er.
    vm_compute in Er. discriminate.
Defined.

(** ** Worked cases for the remaining functions *)

(** The four literals of [b] with bits 0 and 2 positive: bits 0 and 2 of
    the numeral are set, bits 1 and 3 are not. *)
Lemma internalize_value_bits_witness :
  let value := [mk_literal 0%N false; mk_literal 1%N true;
                mk_literal 2%N false; mk_literal 3%N true] in
  let s := Toy.fresh Toy.accept in
  exps_ok (m_exps s) ∧ is_uninterp_const Toy.b4 = true ∧
  is_bv_sort (get_sort Toy.b4) = true ∧
  ∃ r s',
    internalize_value value Toy.b4 s =
      Ok (mk_eq Toy.b4 (mk_numeral r (length value)), s') ∧
    (∀ i l, value !! i = Some l →
            Z.testbit r (Z.of_nat i) = negb (lit_sign l)) ∧
    (∀ i, length value ≤ i → Z.testbit r (Z.of_nat i) = false).
Proof.
  intros value s.
  assert (exps_ok (m_exps s)) as Hok.
  { intros i e. vm_compute. by destruct i. }
  split; [exact Hok|]. split; [reflexivity|]. split; [reflexivity|].
  exact (internalize_value_bits value Toy.b4 s Hok eq_refl eq_refl).
Defined.

(** A fresh solver pushed twice and popped once: its bit-blaster is one
    scope deep. *)
Lemma bit_blaster_follows_scopes_witness :
  bit_blaster_counts_scopes (B := Toy.accepting) ∧
  (let s := after (pop 1) (after push (after push (Toy.fresh Toy.accept))) in
   m_num_scopes s = 1 ∧ bb_follows s) ∧
  (∀ p, bb_follows (inc_sat_solver_new (B := Toy.accepting) p)).
Proof.
  pose proof (bit_blaster_follows_scopes (B := Toy.accepting)
                (toy_bit_blaster_counts_scopes _)) as (Hnew & _ & Hkeep).
  split; [apply toy_bit_blaster_counts_scopes|]. split; [|exact Hnew].
  split; [vm_compute; reflexivity|].
  set (s0 := Toy.fresh Toy.accept).
  assert (wf s0) as Hwf0 by (apply wfb_sound; vm_compute; reflexivity).
  destruct (push_wf s0 Hwf0) as (s1 & E1 & Hwf1).
  destruct (push_wf s1 Hwf1) as (s2 & E2 & Hwf2).
  destruct (pop_returns 1 s2 Hwf2) as (s3 & E3 & _).
  rewrite <- (after_run _ _ _ E1), <- (after_run _ _ _ E2),
    <- (after_run _ _ _ E3).
  pose proof (Hnew tt) as H0.
  destruct (Hkeep s0 H0) as (_ & _ & Hpush0 & _).
  pose proof (Hpush0 s1 E1) as H1.
  destruct (Hkeep s1 H1) as (_ & _ & Hpush1 & _).
  pose proof (Hpush1 s2 E2) as H2.
  destruct (Hkeep s2 H2) as (_ & _ & _ & Hpop2 & _).
  exact (Hpop2 1 s3 E3).
Defined.

(** The four bits of [b] asserted with the second negated, and [x] under
    the guard [a]; the variables asked about are [b], [x] and a [y] that
    occurs nowhere.  The engine of the small services fixes every
    variable positively under the one assumption literal: the
    consequences are [a => b = 15] and [a => x], and none for [y]. *)
Lemma consequences_shape_witness :
  let s := ToyServices.with_bits in
  let vars := [Toy.b4; Toy.x; Toy.y] in
  deps_within_leaves (B := Toy.accepting) ∧
  consequences_within_assumptions (V := ToyServices.services Toy.accept) ∧
  const2bits_of_bit_vectors (V := ToyServices.services Toy.accept) ∧
  exps_ok (m_exps s) ∧
  (m_weights s = [] ∨ length (@nil expr) ≤ length (m_weights s)) ∧
  answer (get_consequences_core (V := ToyServices.services Toy.accept)
            [] vars [] s) =
    Some (l_true,
          [mk_implies Toy.a (mk_eq Toy.b4 (mk_numeral 15 4));
           mk_implies Toy.a Toy.x]) ∧
  ∃ r new s',
    get_consequences_core (V := ToyServices.services Toy.accept)
      [] vars [] s = Ok ((r, [] ++ new), s') ∧
    exps_ok (m_exps s') ∧ length new ≤ length vars ∧
    (r = l_false → new = []) ∧
    ∀ c, c ∈ new →
         ∃ v, v ∈ vars ∧
              consequence_of (V := ToyServices.services Toy.accept)
                (λ e, e ∈ @nil expr ∨ e ∈ m_asmsf s) v c.
Proof.
  intros s vars.
  assert (exps_ok (m_exps s)) as Hok.
  { intros i e. vm_compute. by destruct i. }
  assert (m_weights s = [] ∨ length (@nil expr) ≤ length (m_weights s))
    as Hws by (left; vm_compute; reflexivity).
  split; [apply toy_deps_within_leaves|].
  split; [apply toy_consequences_within_assumptions|].
  split; [apply toy_const2bits_of_bit_vectors|].
  split; [exact Hok|]. split; [exact Hws|].
  split; [vm_compute; reflexivity|].
  exact (consequences_shape (V := ToyServices.services Toy.accept)
           [] vars [] s toy_deps_within_leaves
           (toy_consequences_within_assumptions _)
           (toy_const2bits_of_bit_vectors _) Hok Hws).
Defined.

(** Two soft constraints with the weights 3 and -1: the second is no
    unsigned integer, and the display is refused. *)
Lemma inc_sat_display_checks_weights_witness :
  let soft := [Toy.x; Toy.y] in
  let ws := ToyServices.rationals Toy.accept [3; -1]%Z in
  let m := ToyServices.manager Toy.accept 0 in
  let s := Toy.fresh Toy.accept in
  length soft ≤ length ws ∧
  inc_sat_display soft (Some ws) m s =
    Err (default_exception "Cannot display weights that are not integers") ∧
  inc_sat_display soft None m s = display_weighted soft None m s.
Proof.
  intros soft ws m s.
  assert (length soft ≤ length ws) as Hlen by (cbn; lia).
  split; [exact Hlen|].
  exact (inc_sat_display_checks_weights soft ws m s Hlen).
Defined.

(** Two guarded assertions at depth zero, copied and copied again. *)
Lemma translate_carries_assertions_only_witness :
  let s := Toy.guarded in
  let p := tt : @params Toy.accepting in
  m_num_scopes s = 0 ∧
  ∃ r1 r2,
    translate id p s = Ok (r1, s) ∧ translate id p r1 = Ok (r2, r1) ∧
    m_fmls r2 = (id ∘ id) <$> m_fmls s ∧
    m_asmsf r2 = (id ∘ id) <$> m_asmsf s ∧
    wf r1 ∧ frontier_ok r1 ∧ m_fmls_head r1 = 0 ∧
    m_core r1 = [] ∧ m_model r1 = None ∧ m_asms r1 = [] ∧
    m_weights r1 = [] ∧ m_unknown r1 = "no reason given" ∧
    m_params r1 = params_set_bool "elim_vars" false p.
Proof.
  intros s p. split; [reflexivity|].
  exact (translate_carries_assertions_only id id p p s eq_refl).
Defined.

(** Two soft constraints with weights 1 and 2 on a fresh solver: the
    display is written, and the solver has two assertions more. *)
Lemma display_weighted_asserts_guards_witness :
  let soft := [Toy.x; Toy.y] in
  let run := display_weighted (V := ToyServices.services Toy.accept)
               soft (Some [1%N; 2%N]) (ToyServices.manager Toy.accept 0)
               (Toy.fresh Toy.accept) in
  fst <$> answer run = Some "p wcnf" ∧
  match run with
  | Ok (_, s') =>
      ∃ guards,
        length guards = length soft ∧
        m_fmls s' = m_fmls (Toy.fresh Toy.accept) ++
                    zip_with mk_implies guards soft ∧
        get_num_assertions s' =
          Ok (length (m_fmls (Toy.fresh Toy.accept)) + length soft, s') ∧
        m_fmls_head s' = length (m_fmls s') ∧
        m_asmsf s' = m_asmsf (Toy.fresh Toy.accept) ∧
        m_num_scopes s' = m_num_scopes (Toy.fresh Toy.accept)
  | Err _ => True
  end.
Proof.
  intros soft run. split; [vm_compute; reflexivity|].
  exact (display_weighted_asserts_guards
           (V := ToyServices.services Toy.accept) soft (Some [1%N; 2%N])
           (ToyServices.manager Toy.accept 0) (Toy.fresh Toy.accept)).
Defined.

(** One soft constraint without weights on a fresh solver, and one with
    a weight on a solver that has standing assumptions: both displays
    read past the end of [m_weights]. *)
Lemma display_needs_a_weight_per_literal_witness :
  let unweighted :=
    display_weighted (V := ToyServices.services Toy.accept)
      [Toy.x] None (ToyServices.manager Toy.accept 0)
      (Toy.fresh Toy.accept) in
  let standing :=
    display_weighted (V := ToyServices.services Toy.accept)
      [Toy.x] (Some [5%N]) (ToyServices.manager Toy.accept 0)
      Toy.guarded in
  match unweighted with
  | Ok _ => False
  | Err e => e = undefined_behaviour "m_weights[i]"
  end ∧
  match standing with
  | Ok _ => False
  | Err e => e = undefined_behaviour "m_weights[i]"
  end ∧
  match standing with
  | Ok (_, s') => length (m_asms s') ≤ 1
  | Err _ => True
  end.
Proof.
  intros unweighted standing.
  split; [vm_compute; reflexivity|]. split; [vm_compute; reflexivity|].
  exact (display_needs_a_weight_per_literal
           (V := ToyServices.services Toy.accept) [Toy.x] (Some [5%N])
           (ToyServices.manager Toy.accept 0) Toy.guarded).
Defined.

(** A model cached, then a consequence query for [x]: the model is
    still there. *)
Lemma consequences_keep_cached_model_witness :
  let s := set_m_model (Some (Toy.a_model Toy.accept))
             ToyServices.with_bits in
  deps_within_leaves (B := Toy.accepting) ∧
  consequences_within_assumptions (V := ToyServices.services Toy.accept) ∧
  const2bits_of_bit_vectors (V := ToyServices.services Toy.accept) ∧
  exps_ok (m_exps s) ∧
  (m_weights s = [] ∨ length (@nil expr) ≤ length (m_weights s)) ∧
  m_model s = Some (Toy.a_model Toy.accept) ∧
  ∃ r out s',
    get_consequences_core (V := ToyServices.services Toy.accept)
      [] [Toy.x] [] s = Ok ((r, out), s') ∧
    m_model s' = m_model s ∧
    (∀ md, m_model s = Some md →
           get_model (V := ToyServices.services Toy.accept) s' =
             Ok (Some md, s')) ∧
    m_fmls s' = m_fmls s ∧ m_asmsf s' = m_asmsf s ∧
    m_num_scopes s' = m_num_scopes s ∧
    (r ≠ l_false ∨ m_asms s' = [] → m_core s' = m_core s).
Proof.
  intros s.
  assert (exps_ok (m_exps s)) as Hok.
  { intros i e. vm_compute. by destruct i. }
  assert (m_weights s = [] ∨ length (@nil expr) ≤ length (m_weights s))
    as Hws by (left; vm_compute; reflexivity).
  split; [apply toy_deps_within_leaves|].
  split; [apply toy_consequences_within_assumptions|].
  split; [apply toy_const2bits_of_bit_vectors|].
  split; [exact Hok|]. split; [exact Hws|]. split; [reflexivity|].
  exact (consequences_keep_cached_model
           (V := ToyServices.services Toy.accept)
           [] [Toy.x] [] s toy_deps_within_leaves
           (toy_consequences_within_assumptions _)
           (toy_const2bits_of_bit_vectors _) Hok Hws).
Defined.

(** Two weighted assumptions on a solver with two standing assumptions:
    a definite answer, four assumption literals, two weights. *)
Lemma weights_cover_supplied_assumptions_only_witness :
  let s := Toy.guarded in
  let ws := Toy.weights Toy.accept [10; 20] in
  let asms := [Toy.x; Toy.y] in
  let run := check_sat asms (Some ws) double_zero s in
  match run with
  | Ok (r, s') =>
      (r ≠ l_undef) ∧ length (m_asms s') = 4 ∧ length (m_weights s') = 2
  | Err _ => False
  end ∧
  match run with
  | Ok (r, s') =>
      length (m_weights s') = 2 ∧
      (r ≠ l_undef →
       ∃ s1 (d : gmap expr literal) s2,
         internalize_formulas (check_sat_start (take 2 ws) s) =
           Ok (l_true, s1) ∧
         internalize_assumptions asms ∅ s1 = Ok ((l_true, d), s2) ∧
         m_asms s' = omap (d !!.) asms ++ omap (d !!.) (m_asmsf s) ∧
         ((∀ e, e ∈ asms → is_Some (d !! e)) →
          length (m_asms s') =
            length asms + length (omap (d !!.) (m_asmsf s)) ∧
          ((∃ e, e ∈ m_asmsf s ∧ is_Some (d !! e)) →
           length (m_weights s') < length (m_asms s'))))
  | Err _ => True
  end.
Proof.
  intros s ws asms run. split.
  { vm_compute. split; [discriminate|]. split; reflexivity. }
  exact (weights_cover_supplied_assumptions_only asms (Some ws)
           double_zero s).
Defined.

(** Three scopes deep: one pop and then a pop of five, against a pop of
    six. *)
Lemma pop_pop_is_pop_witness :
  let s := after push (after push (after push (Toy.with_x Toy.accept))) in
  wf s ∧ m_num_scopes s = 3 ∧
  ∃ s1 s2 s3,
    pop 1 s = Ok ((), s1) ∧ pop 5 s1 = Ok ((), s2) ∧
    pop (1 + 5) s = Ok ((), s3) ∧ book s2 = book s3.
Proof.
  intros s.
  assert (wf s) as Hwf by (apply wfb_sound; vm_compute; reflexivity).
  split; [exact Hwf|]. split; [vm_compute; reflexivity|].
  exact (pop_pop_is_pop 1 5 s Hwf).
Defined.

(** The small backend with the engine that always answers sat: [x]
    asserted and assumed.  The check answers sat with one assumption
    literal, which the model makes true. *)
Lemma sat_answer_meets_assumptions_witness :
  let s := after (assert_expr Toy.x)
             (inc_sat_solver_new (B := ToyServices.agreeable) tt) in
  let run := check_sat (B := ToyServices.agreeable) [Toy.x] None
               double_zero s in
  answer run = Some l_true ∧
  match run with
  | Ok (_, s') => m_asms s' = [mk_literal 0%N false]
  | Err _ => False
  end ∧
  match run with
  | Ok (l_true, s') =>
      [Toy.x] ≠ [] →
      ∀ l, l ∈ m_asms s' →
           sat_value_at l (sat_get_model (m_solver s')) = l_true
  | _ => True
  end.
Proof.
  intros s run. split; [vm_compute; reflexivity|].
  split; [vm_compute; reflexivity|].
  exact (sat_answer_meets_assumptions (B := ToyServices.agreeable)
           [Toy.x] double_zero s).
Defined.

(** A model cached, then a check: the cache is empty. *)
Lemma check_sat_drops_model_witness :
  let s := set_m_model (Some (Toy.a_model Toy.accept))
             (Toy.with_x Toy.accept) in
  let run := check_sat [] None double_zero s in
  answer run = Some l_true ∧
  (match run with
   | Ok (_, s') =>
       m_model s' = None ∧
       (sat_model_is_current (Services := ToyServices.services Toy.accept)
          (m_solver s') = false →
        get_model (V := ToyServices.services Toy.accept) s' = Ok (None, s'))
   | Err _ => True
   end ∧
   ∀ md, m_model s = Some md →
         get_model (V := ToyServices.services Toy.accept) s =
           Ok (Some md, s)).
Proof.
  intros s run. split; [vm_compute; reflexivity|].
  exact (check_sat_drops_model (V := ToyServices.services Toy.accept)
           [] None double_zero s).
Defined.

(** An unsat check under the assumption [x] leaves the core [x]; a sat
    check without assumptions after it leaves that core in place. *)
Lemma check_sat_keeps_stale_core_witness :
  let s1 := after (check_sat [Toy.x] None double_zero)
              (Toy.with_x Toy.accept) in
  let run := check_sat [] None double_zero s1 in
  m_core s1 = [Toy.x] ∧ answer run = Some l_true ∧
  match run with
  | Ok (r, s') =>
      r ≠ l_false ∨ m_asms s' = [] →
      m_core s' = m_core s1 ∧ get_unsat_core s' = Ok (m_core s1, s')
  | Err _ => True
  end.
Proof.
  intros s1 run. split; [vm_compute; reflexivity|].
  split; [vm_compute; reflexivity|].
  exact (check_sat_keeps_stale_core [] None double_zero s1).
Defined.

(** Two assumptions and one weight: the weights are read past their
    end. *)
Lemma check_sat_failures_witness :
  let run := check_sat [Toy.x; Toy.y] (Some (Toy.weights Toy.accept [7]))
               double_zero (Toy.fresh Toy.accept) in
  match run with
  | Ok _ => False
  | Err e => e = undefined_behaviour "weights[i]"
  end ∧
  match run with
  | Ok _ =>
      ∀ ws, Some (Toy.weights Toy.accept [7]) = Some ws →
            length [Toy.x; Toy.y] ≤ length ws
  | Err e =>
      (e = undefined_behaviour "weights[i]" ∧
       ∃ ws, Some (Toy.weights Toy.accept [7]) = Some ws ∧
             length ws < length [Toy.x; Toy.y]) ∨
      (e = default_exception "bad state" ∧
       Some (Toy.weights Toy.accept [7]) = None ∧ [Toy.x; Toy.y] ≠ []) ∨
      (e = verify_failed ∧
       ¬ core_within_assumptions (B := Toy.accepting))
  end.
Proof.
  intros run. split; [vm_compute; reflexivity|].
  exact (check_sat_failures [Toy.x; Toy.y]
           (Some (Toy.weights Toy.accept [7])) double_zero
           (Toy.fresh Toy.accept)).
Defined.

(** The integer equation [i = j] asserted: the run on the formulas is
    left with that atom, the check answers unknown and the reason names
    it.  [x] asserted with a pipeline that raises: the check answers
    unknown as well, no run is left with atoms, and the reason is the
    initial one. *)
Lemma reason_written_for_atoms_only_witness :
  let s := Toy.with_eq in
  let run := check_sat [] None double_zero s in
  let u := Toy.with_x Toy.raise in
  let run' := check_sat [] None double_zero u in
  (answer run = Some l_undef ∧
   formula_atoms (check_sat_start [] s) = [mk_eq Toy.i1 Toy.i2] ∧
   match run with
   | Ok (r, s') =>
       (r ≠ l_undef → m_unknown s' = m_unknown s) ∧
       match formula_atoms (check_sat_start [] s) with
       | (_ :: _) as atoms =>
           r = l_undef ∧
           m_unknown s' =
             "interpreted atoms sent to SAT solver " +:+
             pp_exprs (Backend := Toy.accepting) atoms
       | [] =>
           ∃ r1 s1,
             internalize_formulas (check_sat_start [] s) = Ok (r1, s1) ∧
             match
               match r1 with
               | l_true => assumption_atoms [] s1
               | _ => []
               end
             with
             | (_ :: _) as atoms =>
                 r = l_undef ∧
                 m_unknown s' =
                   "interpreted atoms sent to SAT solver " +:+
                   pp_exprs (Backend := Toy.accepting) atoms
             | [] => m_unknown s' = m_unknown s
             end
       end
   | Err _ => True
   end) ∧
  answer run' = Some l_undef ∧
  formula_atoms (check_sat_start [] u) = [] ∧
  match run' with
  | Ok (r, u') =>
      (r ≠ l_undef → m_unknown u' = m_unknown u) ∧
      match formula_atoms (check_sat_start [] u) with
      | (_ :: _) as atoms =>
          r = l_undef ∧
          m_unknown u' =
            "interpreted atoms sent to SAT solver " +:+
            pp_exprs (Backend := Toy.raising) atoms
      | [] =>
          ∃ r1 u1,
            internalize_formulas (check_sat_start [] u) = Ok (r1, u1) ∧
            match
              match r1 with
              | l_true => assumption_atoms [] u1
              | _ => []
              end
            with
            | (_ :: _) as atoms =>
                r = l_undef ∧
                m_unknown u' =
                  "interpreted atoms sent to SAT solver " +:+
                  pp_exprs (Backend := Toy.raising) atoms
            | [] => m_unknown u' = m_unknown u
            end
      end
  | Err _ => True
  end.
Proof.
  intros s run u run'. split.
  { split; [vm_compute; reflexivity|]. split; [vm_compute; reflexivity|].
    exact (reason_written_for_atoms_only [] None double_zero s). }
  split; [vm_compute; reflexivity|]. split; [vm_compute; reflexivity|].
  exact (reason_written_for_atoms_only [] None double_zero u).
Defined.

(** [x] asserted and checked: the answer is sat and the frontier is at
    the one formula. *)
Lemma definite_answer_covers_formulas_witness :
  let s := Toy.with_x Toy.accept in
  let run := check_sat [] None double_zero s in
  m_fmls_head s = 0 ∧ answer run = Some l_true ∧
  match run with
  | Ok (r, s') =>
      m_fmls s' = m_fmls s ∧
      (r ≠ l_undef →
       m_fmls_head s' = length (m_fmls s') ∧
       internalize_formulas s' = Ok (l_true, s'))
  | Err _ => True
  end.
Proof.
  intros s run. split; [reflexivity|]. split; [vm_compute; reflexivity|].
  exact (definite_answer_covers_formulas [] None double_zero s).
Defined.

(** After a check of the two guarded assertions, the mutexes among [x],
    [not a] and a [z] that occurs nowhere: the engine of the small
    backend answers with its input as one group, which comes back as the
    terms [x] and [not a]. *)
Lemma mutex_terms_from_input_witness :
  let s := after (check_sat [] None double_zero) Toy.guarded in
  let vars := [Toy.x; ENot Toy.a; EConst "z" BoolSort] in
  (snd <$> answer (find_mutexes vars [] s)) =
    Some [[Toy.x; ENot Toy.a]] ∧
  match find_mutexes vars [] s with
  | Ok ((_, out), s') =>
      ∃ new,
        out = [] ++ new ∧
        Forall2 (Forall2 (λ l e, e ∈ vars ∧ literal_of (m_map s) e = l))
          (sat_find_mutexes (collect_literals (m_map s) vars).1
             (m_solver s)).1
          new
  | Err _ => True
  end.
Proof.
  intros s vars. split; [vm_compute; reflexivity|].
  exact (mutex_terms_from_input vars [] s).
Defined.
